(** * rtsp-simple-server: supervisor reconciliation and the WebRTC front-end

    A shallow embedding of [internal/core/core.go] (the [Core] supervisor:
    command line, resource creation, configuration reload and tear-down) and
    of the WebRTC protocol server of the same package (request loop,
    HTTP request handler, read authenticator, API entry points).

    Go values are embedded as follows:
    - [string] as [string]; [int], [uint64] and durations as [Z];
    - a slice as [option (list A)] and a map as [option (gmap K V)] /
      [option (gset K)], [None] being the nil slice or map, because
      [reflect.DeepEqual] tells a nil value from an empty one;
    - a pointer to a subsystem as [option Handle], [None] being nil;
    - side effects as a trace of [Event]s threaded through a small
      state-and-panic monad. *)

From stdpp Require Import base decidable option list strings gmap.
From Stdlib Require Import ZArith Ascii String.

Open Scope Z_scope.
Open Scope string_scope.
Open Scope list_scope.

(** Go's [a != b] on comparable values, and [!reflect.DeepEqual(a, b)] on
    the value types used by the configuration (both are structural). *)
Definition neqb {A} `{EqDecision A} (a b : A) : bool := negb (bool_decide (a = b)).
Infix "!=?" := neqb (at level 70, no associativity).

Definition slice (A : Type) : Type := option (list A).

(** ** Package conf: the configuration tree *)
Module conf.

(** [conf.Encryption]. *)
Inductive Encryption := EncryptionNo | EncryptionOptional | EncryptionStrict.
#[export] Instance Encryption_eq_dec : EqDecision Encryption.
Proof. solve_decision. Defined.

(** An entry of [conf.IPsOrCIDRs]: a literal address or a network. *)
Inductive IPOrCIDR :=
| IP (addr : list Z)
| IPNet (addr : list Z) (mask : list Z).
#[export] Instance IPOrCIDR_eq_dec : EqDecision IPOrCIDR.
Proof. solve_decision. Defined.

Definition IPsOrCIDRs := slice IPOrCIDR.

(** [conf.PathConf], with the fields the core and the tests read. *)
Record PathConf := {
  Source : string;
  SourceOnDemandStartTimeout : Z;
  SourceOnDemandCloseAfter : Z;
  ReadUser : string;
  ReadPass : string;
  ReadIPs : IPsOrCIDRs;
  RunOnDemandStartTimeout : Z;
  RunOnDemandCloseAfter : Z
}.
#[export] Instance PathConf_eq_dec : EqDecision PathConf.
Proof. solve_decision. Defined.

(** [conf.Conf], with every field [core.go] reads.  The field
    [Encryption] is spelled [Encryption_] to keep it apart from its type. *)
Record Conf := {
  (* general *)
  LogLevel : Z;
  LogDestinations : option (gset Z);
  LogFile : string;
  ReadTimeout : Z;
  WriteTimeout : Z;
  ReadBufferCount : Z;
  ExternalAuthenticationURL : string;
  API : bool;
  APIAddress : string;
  Metrics : bool;
  MetricsAddress : string;
  PPROF : bool;
  PPROFAddress : string;
  RunOnConnect : string;
  RunOnConnectRestart : bool;
  (* RTSP *)
  RTSPDisable : bool;
  Protocols : option (gset Z);
  Encryption_ : Encryption;
  RTSPAddress : string;
  RTSPSAddress : string;
  RTPAddress : string;
  RTCPAddress : string;
  MulticastIPRange : string;
  MulticastRTPPort : Z;
  MulticastRTCPPort : Z;
  ServerKey : string;
  ServerCert : string;
  AuthMethods : slice Z;
  (* RTMP *)
  RTMPDisable : bool;
  RTMPAddress : string;
  RTMPEncryption : Encryption;
  RTMPSAddress : string;
  RTMPServerKey : string;
  RTMPServerCert : string;
  (* HLS *)
  HLSDisable : bool;
  HLSAddress : string;
  HLSEncryption : bool;
  HLSServerKey : string;
  HLSServerCert : string;
  HLSAlwaysRemux : bool;
  HLSVariant : Z;
  HLSSegmentCount : Z;
  HLSSegmentDuration : Z;
  HLSPartDuration : Z;
  HLSSegmentMaxSize : Z;
  HLSAllowOrigin : string;
  HLSTrustedProxies : IPsOrCIDRs;
  HLSDirectory : string;
  (* WebRTC *)
  WebRTCDisable : bool;
  WebRTCAddress : string;
  WebRTCEncryption : bool;
  WebRTCServerKey : string;
  WebRTCServerCert : string;
  WebRTCAllowOrigin : string;
  WebRTCTrustedProxies : IPsOrCIDRs;
  WebRTCICEServers : slice string;
  WebRTCICEHostNAT1To1IPs : slice string;
  WebRTCICEUDPMuxAddress : string;
  WebRTCICETCPMuxAddress : string;
  (* paths *)
  Paths : option (gmap string PathConf)
}.

(** [gortsplib.Transport] values used as keys of [Protocols]. *)
Definition TransportUDP : Z := 0.
Definition TransportUDPMulticast : Z := 1.
Definition TransportTCP : Z := 2.

(** Functional updates of the fields the reload scenarios change. *)
Definition with_ReadBufferCount (v : Z) (c : Conf) : Conf :=
  {| LogLevel := LogLevel c; LogDestinations := LogDestinations c; LogFile
     := LogFile c; ReadTimeout := ReadTimeout c; WriteTimeout := WriteTimeout
     c; ReadBufferCount := v; ExternalAuthenticationURL :=
     ExternalAuthenticationURL c; API := API c; APIAddress := APIAddress c;
     Metrics := Metrics c; MetricsAddress := MetricsAddress c; PPROF := PPROF
     c; PPROFAddress := PPROFAddress c; RunOnConnect := RunOnConnect c;
     RunOnConnectRestart := RunOnConnectRestart c; RTSPDisable := RTSPDisable
     c; Protocols := Protocols c; Encryption_ := Encryption_ c; RTSPAddress
     := RTSPAddress c; RTSPSAddress := RTSPSAddress c; RTPAddress :=
     RTPAddress c; RTCPAddress := RTCPAddress c; MulticastIPRange :=
     MulticastIPRange c; MulticastRTPPort := MulticastRTPPort c;
     MulticastRTCPPort := MulticastRTCPPort c; ServerKey := ServerKey c;
     ServerCert := ServerCert c; AuthMethods := AuthMethods c; RTMPDisable :=
     RTMPDisable c; RTMPAddress := RTMPAddress c; RTMPEncryption :=
     RTMPEncryption c; RTMPSAddress := RTMPSAddress c; RTMPServerKey :=
     RTMPServerKey c; RTMPServerCert := RTMPServerCert c; HLSDisable :=
     HLSDisable c; HLSAddress := HLSAddress c; HLSEncryption := HLSEncryption
     c; HLSServerKey := HLSServerKey c; HLSServerCert := HLSServerCert c;
     HLSAlwaysRemux := HLSAlwaysRemux c; HLSVariant := HLSVariant c;
     HLSSegmentCount := HLSSegmentCount c; HLSSegmentDuration :=
     HLSSegmentDuration c; HLSPartDuration := HLSPartDuration c;
     HLSSegmentMaxSize := HLSSegmentMaxSize c; HLSAllowOrigin :=
     HLSAllowOrigin c; HLSTrustedProxies := HLSTrustedProxies c; HLSDirectory
     := HLSDirectory c; WebRTCDisable := WebRTCDisable c; WebRTCAddress :=
     WebRTCAddress c; WebRTCEncryption := WebRTCEncryption c; WebRTCServerKey
     := WebRTCServerKey c; WebRTCServerCert := WebRTCServerCert c;
     WebRTCAllowOrigin := WebRTCAllowOrigin c; WebRTCTrustedProxies :=
     WebRTCTrustedProxies c; WebRTCICEServers := WebRTCICEServers c;
     WebRTCICEHostNAT1To1IPs := WebRTCICEHostNAT1To1IPs c;
     WebRTCICEUDPMuxAddress := WebRTCICEUDPMuxAddress c;
     WebRTCICETCPMuxAddress := WebRTCICETCPMuxAddress c; Paths := Paths c |}.
Definition with_API (v : bool) (c : Conf) : Conf :=
  {| LogLevel := LogLevel c; LogDestinations := LogDestinations c; LogFile
     := LogFile c; ReadTimeout := ReadTimeout c; WriteTimeout := WriteTimeout
     c; ReadBufferCount := ReadBufferCount c; ExternalAuthenticationURL :=
     ExternalAuthenticationURL c; API := v; APIAddress := APIAddress c;
     Metrics := Metrics c; MetricsAddress := MetricsAddress c; PPROF := PPROF
     c; PPROFAddress := PPROFAddress c; RunOnConnect := RunOnConnect c;
     RunOnConnectRestart := RunOnConnectRestart c; RTSPDisable := RTSPDisable
     c; Protocols := Protocols c; Encryption_ := Encryption_ c; RTSPAddress
     := RTSPAddress c; RTSPSAddress := RTSPSAddress c; RTPAddress :=
     RTPAddress c; RTCPAddress := RTCPAddress c; MulticastIPRange :=
     MulticastIPRange c; MulticastRTPPort := MulticastRTPPort c;
     MulticastRTCPPort := MulticastRTCPPort c; ServerKey := ServerKey c;
     ServerCert := ServerCert c; AuthMethods := AuthMethods c; RTMPDisable :=
     RTMPDisable c; RTMPAddress := RTMPAddress c; RTMPEncryption :=
     RTMPEncryption c; RTMPSAddress := RTMPSAddress c; RTMPServerKey :=
     RTMPServerKey c; RTMPServerCert := RTMPServerCert c; HLSDisable :=
     HLSDisable c; HLSAddress := HLSAddress c; HLSEncryption := HLSEncryption
     c; HLSServerKey := HLSServerKey c; HLSServerCert := HLSServerCert c;
     HLSAlwaysRemux := HLSAlwaysRemux c; HLSVariant := HLSVariant c;
     HLSSegmentCount := HLSSegmentCount c; HLSSegmentDuration :=
     HLSSegmentDuration c; HLSPartDuration := HLSPartDuration c;
     HLSSegmentMaxSize := HLSSegmentMaxSize c; HLSAllowOrigin :=
     HLSAllowOrigin c; HLSTrustedProxies := HLSTrustedProxies c; HLSDirectory
     := HLSDirectory c; WebRTCDisable := WebRTCDisable c; WebRTCAddress :=
     WebRTCAddress c; WebRTCEncryption := WebRTCEncryption c; WebRTCServerKey
     := WebRTCServerKey c; WebRTCServerCert := WebRTCServerCert c;
     WebRTCAllowOrigin := WebRTCAllowOrigin c; WebRTCTrustedProxies :=
     WebRTCTrustedProxies c; WebRTCICEServers := WebRTCICEServers c;
     WebRTCICEHostNAT1To1IPs := WebRTCICEHostNAT1To1IPs c;
     WebRTCICEUDPMuxAddress := WebRTCICEUDPMuxAddress c;
     WebRTCICETCPMuxAddress := WebRTCICETCPMuxAddress c; Paths := Paths c |}.
Definition with_RTMPEncryption (v : Encryption) (c : Conf) : Conf :=
  {| LogLevel := LogLevel c; LogDestinations := LogDestinations c; LogFile
     := LogFile c; ReadTimeout := ReadTimeout c; WriteTimeout := WriteTimeout
     c; ReadBufferCount := ReadBufferCount c; ExternalAuthenticationURL :=
     ExternalAuthenticationURL c; API := API c; APIAddress := APIAddress c;
     Metrics := Metrics c; MetricsAddress := MetricsAddress c; PPROF := PPROF
     c; PPROFAddress := PPROFAddress c; RunOnConnect := RunOnConnect c;
     RunOnConnectRestart := RunOnConnectRestart c; RTSPDisable := RTSPDisable
     c; Protocols := Protocols c; Encryption_ := Encryption_ c; RTSPAddress
     := RTSPAddress c; RTSPSAddress := RTSPSAddress c; RTPAddress :=
     RTPAddress c; RTCPAddress := RTCPAddress c; MulticastIPRange :=
     MulticastIPRange c; MulticastRTPPort := MulticastRTPPort c;
     MulticastRTCPPort := MulticastRTCPPort c; ServerKey := ServerKey c;
     ServerCert := ServerCert c; AuthMethods := AuthMethods c; RTMPDisable :=
     RTMPDisable c; RTMPAddress := RTMPAddress c; RTMPEncryption := v;
     RTMPSAddress := RTMPSAddress c; RTMPServerKey := RTMPServerKey c;
     RTMPServerCert := RTMPServerCert c; HLSDisable := HLSDisable c;
     HLSAddress := HLSAddress c; HLSEncryption := HLSEncryption c;
     HLSServerKey := HLSServerKey c; HLSServerCert := HLSServerCert c;
     HLSAlwaysRemux := HLSAlwaysRemux c; HLSVariant := HLSVariant c;
     HLSSegmentCount := HLSSegmentCount c; HLSSegmentDuration :=
     HLSSegmentDuration c; HLSPartDuration := HLSPartDuration c;
     HLSSegmentMaxSize := HLSSegmentMaxSize c; HLSAllowOrigin :=
     HLSAllowOrigin c; HLSTrustedProxies := HLSTrustedProxies c; HLSDirectory
     := HLSDirectory c; WebRTCDisable := WebRTCDisable c; WebRTCAddress :=
     WebRTCAddress c; WebRTCEncryption := WebRTCEncryption c; WebRTCServerKey
     := WebRTCServerKey c; WebRTCServerCert := WebRTCServerCert c;
     WebRTCAllowOrigin := WebRTCAllowOrigin c; WebRTCTrustedProxies :=
     WebRTCTrustedProxies c; WebRTCICEServers := WebRTCICEServers c;
     WebRTCICEHostNAT1To1IPs := WebRTCICEHostNAT1To1IPs c;
     WebRTCICEUDPMuxAddress := WebRTCICEUDPMuxAddress c;
     WebRTCICETCPMuxAddress := WebRTCICETCPMuxAddress c; Paths := Paths c |}.
Definition with_RTMPSAddress (v : string) (c : Conf) : Conf :=
  {| LogLevel := LogLevel c; LogDestinations := LogDestinations c; LogFile
     := LogFile c; ReadTimeout := ReadTimeout c; WriteTimeout := WriteTimeout
     c; ReadBufferCount := ReadBufferCount c; ExternalAuthenticationURL :=
     ExternalAuthenticationURL c; API := API c; APIAddress := APIAddress c;
     Metrics := Metrics c; MetricsAddress := MetricsAddress c; PPROF := PPROF
     c; PPROFAddress := PPROFAddress c; RunOnConnect := RunOnConnect c;
     RunOnConnectRestart := RunOnConnectRestart c; RTSPDisable := RTSPDisable
     c; Protocols := Protocols c; Encryption_ := Encryption_ c; RTSPAddress
     := RTSPAddress c; RTSPSAddress := RTSPSAddress c; RTPAddress :=
     RTPAddress c; RTCPAddress := RTCPAddress c; MulticastIPRange :=
     MulticastIPRange c; MulticastRTPPort := MulticastRTPPort c;
     MulticastRTCPPort := MulticastRTCPPort c; ServerKey := ServerKey c;
     ServerCert := ServerCert c; AuthMethods := AuthMethods c; RTMPDisable :=
     RTMPDisable c; RTMPAddress := RTMPAddress c; RTMPEncryption :=
     RTMPEncryption c; RTMPSAddress := v; RTMPServerKey := RTMPServerKey c;
     RTMPServerCert := RTMPServerCert c; HLSDisable := HLSDisable c;
     HLSAddress := HLSAddress c; HLSEncryption := HLSEncryption c;
     HLSServerKey := HLSServerKey c; HLSServerCert := HLSServerCert c;
     HLSAlwaysRemux := HLSAlwaysRemux c; HLSVariant := HLSVariant c;
     HLSSegmentCount := HLSSegmentCount c; HLSSegmentDuration :=
     HLSSegmentDuration c; HLSPartDuration := HLSPartDuration c;
     HLSSegmentMaxSize := HLSSegmentMaxSize c; HLSAllowOrigin :=
     HLSAllowOrigin c; HLSTrustedProxies := HLSTrustedProxies c; HLSDirectory
     := HLSDirectory c; WebRTCDisable := WebRTCDisable c; WebRTCAddress :=
     WebRTCAddress c; WebRTCEncryption := WebRTCEncryption c; WebRTCServerKey
     := WebRTCServerKey c; WebRTCServerCert := WebRTCServerCert c;
     WebRTCAllowOrigin := WebRTCAllowOrigin c; WebRTCTrustedProxies :=
     WebRTCTrustedProxies c; WebRTCICEServers := WebRTCICEServers c;
     WebRTCICEHostNAT1To1IPs := WebRTCICEHostNAT1To1IPs c;
     WebRTCICEUDPMuxAddress := WebRTCICEUDPMuxAddress c;
     WebRTCICETCPMuxAddress := WebRTCICETCPMuxAddress c; Paths := Paths c |}.
Definition with_Paths (v : option (gmap string PathConf)) (c : Conf) : Conf :=
  {| LogLevel := LogLevel c; LogDestinations := LogDestinations c; LogFile
     := LogFile c; ReadTimeout := ReadTimeout c; WriteTimeout := WriteTimeout
     c; ReadBufferCount := ReadBufferCount c; ExternalAuthenticationURL :=
     ExternalAuthenticationURL c; API := API c; APIAddress := APIAddress c;
     Metrics := Metrics c; MetricsAddress := MetricsAddress c; PPROF := PPROF
     c; PPROFAddress := PPROFAddress c; RunOnConnect := RunOnConnect c;
     RunOnConnectRestart := RunOnConnectRestart c; RTSPDisable := RTSPDisable
     c; Protocols := Protocols c; Encryption_ := Encryption_ c; RTSPAddress
     := RTSPAddress c; RTSPSAddress := RTSPSAddress c; RTPAddress :=
     RTPAddress c; RTCPAddress := RTCPAddress c; MulticastIPRange :=
     MulticastIPRange c; MulticastRTPPort := MulticastRTPPort c;
     MulticastRTCPPort := MulticastRTCPPort c; ServerKey := ServerKey c;
     ServerCert := ServerCert c; AuthMethods := AuthMethods c; RTMPDisable :=
     RTMPDisable c; RTMPAddress := RTMPAddress c; RTMPEncryption :=
     RTMPEncryption c; RTMPSAddress := RTMPSAddress c; RTMPServerKey :=
     RTMPServerKey c; RTMPServerCert := RTMPServerCert c; HLSDisable :=
     HLSDisable c; HLSAddress := HLSAddress c; HLSEncryption := HLSEncryption
     c; HLSServerKey := HLSServerKey c; HLSServerCert := HLSServerCert c;
     HLSAlwaysRemux := HLSAlwaysRemux c; HLSVariant := HLSVariant c;
     HLSSegmentCount := HLSSegmentCount c; HLSSegmentDuration :=
     HLSSegmentDuration c; HLSPartDuration := HLSPartDuration c;
     HLSSegmentMaxSize := HLSSegmentMaxSize c; HLSAllowOrigin :=
     HLSAllowOrigin c; HLSTrustedProxies := HLSTrustedProxies c; HLSDirectory
     := HLSDirectory c; WebRTCDisable := WebRTCDisable c; WebRTCAddress :=
     WebRTCAddress c; WebRTCEncryption := WebRTCEncryption c; WebRTCServerKey
     := WebRTCServerKey c; WebRTCServerCert := WebRTCServerCert c;
     WebRTCAllowOrigin := WebRTCAllowOrigin c; WebRTCTrustedProxies :=
     WebRTCTrustedProxies c; WebRTCICEServers := WebRTCICEServers c;
     WebRTCICEHostNAT1To1IPs := WebRTCICEHostNAT1To1IPs c;
     WebRTCICEUDPMuxAddress := WebRTCICEUDPMuxAddress c;
     WebRTCICETCPMuxAddress := WebRTCICETCPMuxAddress c; Paths := v |}.

(** A configuration with every front-end enabled in clear and the API,
    metrics and pprof off, used as the running configuration of the
    scenarios below. *)
Definition defaultConf : Conf :=
  {| LogLevel := 2; LogDestinations := Some {[ 0 ]}; LogFile := "rtsp-simple-server.log";
     ReadTimeout := 10000000000; WriteTimeout := 10000000000;
     ReadBufferCount := 512; ExternalAuthenticationURL := "";
     API := false; APIAddress := "127.0.0.1:9997";
     Metrics := false; MetricsAddress := "127.0.0.1:9998";
     PPROF := false; PPROFAddress := "127.0.0.1:9999";
     RunOnConnect := ""; RunOnConnectRestart := false;
     RTSPDisable := false;
     Protocols := Some {[ TransportUDP; TransportUDPMulticast; TransportTCP ]};
     Encryption_ := EncryptionNo;
     RTSPAddress := ":8554"; RTSPSAddress := ":8322";
     RTPAddress := ":8000"; RTCPAddress := ":8001";
     MulticastIPRange := "224.1.0.0/16";
     MulticastRTPPort := 8002; MulticastRTCPPort := 8003;
     ServerKey := "server.key"; ServerCert := "server.crt";
     AuthMethods := Some [0];
     RTMPDisable := false; RTMPAddress := ":1935";
     RTMPEncryption := EncryptionNo; RTMPSAddress := ":1936";
     RTMPServerKey := "server.key"; RTMPServerCert := "server.crt";
     HLSDisable := false; HLSAddress := ":8888"; HLSEncryption := false;
     HLSServerKey := "server.key"; HLSServerCert := "server.crt";
     HLSAlwaysRemux := false; HLSVariant := 2; HLSSegmentCount := 7;
     HLSSegmentDuration := 1000000000; HLSPartDuration := 200000000;
     HLSSegmentMaxSize := 50000000; HLSAllowOrigin := "*";
     HLSTrustedProxies := None; HLSDirectory := "";
     WebRTCDisable := false; WebRTCAddress := ":8889";
     WebRTCEncryption := false;
     WebRTCServerKey := "server.key"; WebRTCServerCert := "server.crt";
     WebRTCAllowOrigin := "*"; WebRTCTrustedProxies := None;
     WebRTCICEServers := Some ["stun:stun.l.google.com:19302"];
     WebRTCICEHostNAT1To1IPs := None;
     WebRTCICEUDPMuxAddress := ""; WebRTCICETCPMuxAddress := "";
     Paths := Some ∅ |}.

(** A path entry as the loader fills it ([TestConfFromFile]). *)
Definition publisherPath : PathConf :=
  {| Source := "publisher";
     SourceOnDemandStartTimeout := 10000000000;
     SourceOnDemandCloseAfter := 10000000000;
     ReadUser := ""; ReadPass := ""; ReadIPs := None;
     RunOnDemandStartTimeout := 10000000000;
     RunOnDemandCloseAfter := 10000000000 |}.

End conf.

(** ** The restart decisions of [Core.closeResources]

    Each [closeX] local of [closeResources] is a function of the new
    configuration ([None] is the nil pointer passed at shutdown) and of the
    running one.  The disjunctions are kept in source order, duplicates
    included. *)
Module decide_close.
Import conf.

Section flags.
Variable newConf : option Conf.
Variable c : Conf.

Definition closeLogger : bool :=
  match newConf with
  | None => true
  | Some n =>
      (LogDestinations n !=? LogDestinations c) ||
      (LogFile n !=? LogFile c)
  end.

Definition closeMetrics : bool :=
  match newConf with
  | None => true
  | Some n =>
      (Metrics n !=? Metrics c) ||
      (MetricsAddress n !=? MetricsAddress c)
  end.

Definition closePPROF : bool :=
  match newConf with
  | None => true
  | Some n =>
      (PPROF n !=? PPROF c) ||
      (PPROFAddress n !=? PPROFAddress c)
  end.

Definition closePathManager : bool :=
  match newConf with
  | None => true
  | Some n =>
      (RTSPAddress n !=? RTSPAddress c) ||
      (ReadTimeout n !=? ReadTimeout c) ||
      (WriteTimeout n !=? WriteTimeout c) ||
      (ReadBufferCount n !=? ReadBufferCount c) ||
      closeMetrics
  end.

Definition closeRTSPServer : bool :=
  match newConf with
  | None => true
  | Some n =>
      (RTSPDisable n !=? RTSPDisable c) ||
      (Encryption_ n !=? Encryption_ c) ||
      (ExternalAuthenticationURL n !=? ExternalAuthenticationURL c) ||
      (RTSPAddress n !=? RTSPAddress c) ||
      (AuthMethods n !=? AuthMethods c) ||
      (ReadTimeout n !=? ReadTimeout c) ||
      (WriteTimeout n !=? WriteTimeout c) ||
      (ReadBufferCount n !=? ReadBufferCount c) ||
      (Protocols n !=? Protocols c) ||
      (RTPAddress n !=? RTPAddress c) ||
      (RTCPAddress n !=? RTCPAddress c) ||
      (MulticastIPRange n !=? MulticastIPRange c) ||
      (MulticastRTPPort n !=? MulticastRTPPort c) ||
      (MulticastRTCPPort n !=? MulticastRTCPPort c) ||
      (RTSPAddress n !=? RTSPAddress c) ||
      (Protocols n !=? Protocols c) ||
      (RunOnConnect n !=? RunOnConnect c) ||
      (RunOnConnectRestart n !=? RunOnConnectRestart c) ||
      closeMetrics ||
      closePathManager
  end.

Definition closeRTSPSServer : bool :=
  match newConf with
  | None => true
  | Some n =>
      (RTSPDisable n !=? RTSPDisable c) ||
      (Encryption_ n !=? Encryption_ c) ||
      (ExternalAuthenticationURL n !=? ExternalAuthenticationURL c) ||
      (RTSPSAddress n !=? RTSPSAddress c) ||
      (AuthMethods n !=? AuthMethods c) ||
      (ReadTimeout n !=? ReadTimeout c) ||
      (WriteTimeout n !=? WriteTimeout c) ||
      (ReadBufferCount n !=? ReadBufferCount c) ||
      (ServerCert n !=? ServerCert c) ||
      (ServerKey n !=? ServerKey c) ||
      (RTSPAddress n !=? RTSPAddress c) ||
      (Protocols n !=? Protocols c) ||
      (RunOnConnect n !=? RunOnConnect c) ||
      (RunOnConnectRestart n !=? RunOnConnectRestart c) ||
      closeMetrics ||
      closePathManager
  end.

Definition closeRTMPServer : bool :=
  match newConf with
  | None => true
  | Some n =>
      (RTMPDisable n !=? RTMPDisable c) ||
      (RTMPEncryption n !=? RTMPEncryption c) ||
      (RTMPAddress n !=? RTMPAddress c) ||
      (ExternalAuthenticationURL n !=? ExternalAuthenticationURL c) ||
      (ReadTimeout n !=? ReadTimeout c) ||
      (WriteTimeout n !=? WriteTimeout c) ||
      (ReadBufferCount n !=? ReadBufferCount c) ||
      (RTSPAddress n !=? RTSPAddress c) ||
      (RunOnConnect n !=? RunOnConnect c) ||
      (RunOnConnectRestart n !=? RunOnConnectRestart c) ||
      closeMetrics ||
      closePathManager
  end.

Definition closeRTMPSServer : bool :=
  match newConf with
  | None => true
  | Some n =>
      (RTMPDisable n !=? RTMPDisable c) ||
      (RTMPEncryption n !=? RTMPEncryption c) ||
      (RTMPSAddress n !=? RTMPSAddress c) ||
      (ExternalAuthenticationURL n !=? ExternalAuthenticationURL c) ||
      (ReadTimeout n !=? ReadTimeout c) ||
      (WriteTimeout n !=? WriteTimeout c) ||
      (ReadBufferCount n !=? ReadBufferCount c) ||
      (RTMPServerCert n !=? RTMPServerCert c) ||
      (RTMPServerKey n !=? RTMPServerKey c) ||
      (RTSPAddress n !=? RTSPAddress c) ||
      (RunOnConnect n !=? RunOnConnect c) ||
      (RunOnConnectRestart n !=? RunOnConnectRestart c) ||
      closeMetrics ||
      closePathManager
  end.

Definition closeHLSServer : bool :=
  match newConf with
  | None => true
  | Some n =>
      (HLSDisable n !=? HLSDisable c) ||
      (HLSAddress n !=? HLSAddress c) ||
      (HLSEncryption n !=? HLSEncryption c) ||
      (HLSServerKey n !=? HLSServerKey c) ||
      (HLSServerCert n !=? HLSServerCert c) ||
      (ExternalAuthenticationURL n !=? ExternalAuthenticationURL c) ||
      (HLSAlwaysRemux n !=? HLSAlwaysRemux c) ||
      (HLSVariant n !=? HLSVariant c) ||
      (HLSSegmentCount n !=? HLSSegmentCount c) ||
      (HLSSegmentDuration n !=? HLSSegmentDuration c) ||
      (HLSPartDuration n !=? HLSPartDuration c) ||
      (HLSSegmentMaxSize n !=? HLSSegmentMaxSize c) ||
      (HLSAllowOrigin n !=? HLSAllowOrigin c) ||
      (HLSTrustedProxies n !=? HLSTrustedProxies c) ||
      (HLSDirectory n !=? HLSDirectory c) ||
      (ReadBufferCount n !=? ReadBufferCount c) ||
      closePathManager ||
      closeMetrics
  end.

Definition closeWebRTCServer : bool :=
  match newConf with
  | None => true
  | Some n =>
      (WebRTCDisable n !=? WebRTCDisable c) ||
      (ExternalAuthenticationURL n !=? ExternalAuthenticationURL c) ||
      (WebRTCAddress n !=? WebRTCAddress c) ||
      (WebRTCEncryption n !=? WebRTCEncryption c) ||
      (WebRTCServerKey n !=? WebRTCServerKey c) ||
      (WebRTCServerCert n !=? WebRTCServerCert c) ||
      (WebRTCAllowOrigin n !=? WebRTCAllowOrigin c) ||
      (WebRTCTrustedProxies n !=? WebRTCTrustedProxies c) ||
      (WebRTCICEServers n !=? WebRTCICEServers c) ||
      (ReadBufferCount n !=? ReadBufferCount c) ||
      closeMetrics ||
      closePathManager ||
      (WebRTCICEHostNAT1To1IPs n !=? WebRTCICEHostNAT1To1IPs c) ||
      (WebRTCICEUDPMuxAddress n !=? WebRTCICEUDPMuxAddress c) ||
      (WebRTCICETCPMuxAddress n !=? WebRTCICETCPMuxAddress c)
  end.

Definition closeAPI : bool :=
  match newConf with
  | None => true
  | Some n =>
      (API n !=? API c) ||
      (APIAddress n !=? APIAddress c) ||
      closePathManager ||
      closeRTSPServer ||
      closeRTSPSServer ||
      closeRTMPServer ||
      closeHLSServer ||
      closeWebRTCServer
  end.

End flags.
End decide_close.

(** ** Package core: the supervisor *)
Module core.
Import conf decide_close.

Definition version : string := "v0.0.0".

(** A pointer to a live subsystem instance. *)
Definition Handle := nat.

Inductive Subsystem :=
| SLogger | SExternalCmdPool | SMetrics | SPPROF | SPathManager
| SRTSPServer | SRTSPSServer | SRTMPServer | SRTMPSServer
| SHLSServer | SWebRTCServer | SAPI | SConfWatcher.
#[export] Instance Subsystem_eq_dec : EqDecision Subsystem.
Proof. solve_decision. Defined.

(** [logger.Level]. *)
Inductive Level := Debug | Info | Warn | Error.
#[export] Instance Level_eq_dec : EqDecision Level.
Proof. solve_decision. Defined.

(** The [api] instance keeps the configuration and the pointers it was
    constructed with ([newAPI] receives [p.conf], [p.pathManager] and the
    six server pointers, nil ones included). *)
Record apiInst := {
  api_handle : Handle;
  api_conf : option Conf;
  api_pathManager : option Handle;
  api_rtspServer : option Handle;
  api_rtspsServer : option Handle;
  api_rtmpServer : option Handle;
  api_rtmpsServer : option Handle;
  api_hlsServer : option Handle;
  api_webRTCServer : option Handle
}.

(** Observable effects of the supervisor, in program order. *)
Inductive Event :=
| ENew (s : Subsystem) (h : Handle)
| ENewFailed (s : Subsystem) (err : string)
| EClose (s : Subsystem) (h : Handle)
| EPathManagerConfReload (h : Handle) (paths : option (gmap string PathConf))
| EAPIConfReload (h : Handle) (c : option Conf)
| ELog (l : Level) (msg : string)
| EPrint (msg : string)
| ERlimitRaise
| EGinSetMode
| ERpiCameraCleanup
| ECtxCancel
| EDone
| EExit (code : Z)
| EPanic.

(** [type Core struct]; [nextHandle] is the allocator of fresh
    pointers and [ctxDone] the state of [ctx]. *)
Record Core := {
  confPath : string;
  conf : Conf;
  confFound : bool;
  logger : option Handle;
  externalCmdPool : option Handle;
  metrics : option Handle;
  pprof : option Handle;
  pathManager : option Handle;
  rtspServer : option Handle;
  rtspsServer : option Handle;
  rtmpServer : option Handle;
  rtmpsServer : option Handle;
  hlsServer : option Handle;
  webRTCServer : option Handle;
  api : option apiInst;
  confWatcher : option Handle;
  ctxDone : bool;
  nextHandle : Handle
}.

Definition set_conf (v : Conf) (p : Core) : Core :=
  {| confPath := confPath p; conf := v; confFound := confFound p; logger :=
     logger p; externalCmdPool := externalCmdPool p; metrics := metrics p;
     pprof := pprof p; pathManager := pathManager p; rtspServer := rtspServer
     p; rtspsServer := rtspsServer p; rtmpServer := rtmpServer p; rtmpsServer
     := rtmpsServer p; hlsServer := hlsServer p; webRTCServer := webRTCServer
     p; api := api p; confWatcher := confWatcher p; ctxDone := ctxDone p;
     nextHandle := nextHandle p |}.
Definition set_logger (v : option Handle) (p : Core) : Core :=
  {| confPath := confPath p; conf := conf p; confFound := confFound p;
     logger := v; externalCmdPool := externalCmdPool p; metrics := metrics p;
     pprof := pprof p; pathManager := pathManager p; rtspServer := rtspServer
     p; rtspsServer := rtspsServer p; rtmpServer := rtmpServer p; rtmpsServer
     := rtmpsServer p; hlsServer := hlsServer p; webRTCServer := webRTCServer
     p; api := api p; confWatcher := confWatcher p; ctxDone := ctxDone p;
     nextHandle := nextHandle p |}.
Definition set_externalCmdPool (v : option Handle) (p : Core) : Core :=
  {| confPath := confPath p; conf := conf p; confFound := confFound p;
     logger := logger p; externalCmdPool := v; metrics := metrics p; pprof :=
     pprof p; pathManager := pathManager p; rtspServer := rtspServer p;
     rtspsServer := rtspsServer p; rtmpServer := rtmpServer p; rtmpsServer :=
     rtmpsServer p; hlsServer := hlsServer p; webRTCServer := webRTCServer p;
     api := api p; confWatcher := confWatcher p; ctxDone := ctxDone p;
     nextHandle := nextHandle p |}.
Definition set_metrics (v : option Handle) (p : Core) : Core :=
  {| confPath := confPath p; conf := conf p; confFound := confFound p;
     logger := logger p; externalCmdPool := externalCmdPool p; metrics := v;
     pprof := pprof p; pathManager := pathManager p; rtspServer := rtspServer
     p; rtspsServer := rtspsServer p; rtmpServer := rtmpServer p; rtmpsServer
     := rtmpsServer p; hlsServer := hlsServer p; webRTCServer := webRTCServer
     p; api := api p; confWatcher := confWatcher p; ctxDone := ctxDone p;
     nextHandle := nextHandle p |}.
Definition set_pprof (v : option Handle) (p : Core) : Core :=
  {| confPath := confPath p; conf := conf p; confFound := confFound p;
     logger := logger p; externalCmdPool := externalCmdPool p; metrics :=
     metrics p; pprof := v; pathManager := pathManager p; rtspServer :=
     rtspServer p; rtspsServer := rtspsServer p; rtmpServer := rtmpServer p;
     rtmpsServer := rtmpsServer p; hlsServer := hlsServer p; webRTCServer :=
     webRTCServer p; api := api p; confWatcher := confWatcher p; ctxDone :=
     ctxDone p; nextHandle := nextHandle p |}.
Definition set_pathManager (v : option Handle) (p : Core) : Core :=
  {| confPath := confPath p; conf := conf p; confFound := confFound p;
     logger := logger p; externalCmdPool := externalCmdPool p; metrics :=
     metrics p; pprof := pprof p; pathManager := v; rtspServer := rtspServer p;
     rtspsServer := rtspsServer p; rtmpServer := rtmpServer p; rtmpsServer :=
     rtmpsServer p; hlsServer := hlsServer p; webRTCServer := webRTCServer p;
     api := api p; confWatcher := confWatcher p; ctxDone := ctxDone p;
     nextHandle := nextHandle p |}.
Definition set_rtspServer (v : option Handle) (p : Core) : Core :=
  {| confPath := confPath p; conf := conf p; confFound := confFound p;
     logger := logger p; externalCmdPool := externalCmdPool p; metrics :=
     metrics p; pprof := pprof p; pathManager := pathManager p; rtspServer :=
     v; rtspsServer := rtspsServer p; rtmpServer := rtmpServer p; rtmpsServer
     := rtmpsServer p; hlsServer := hlsServer p; webRTCServer := webRTCServer
     p; api := api p; confWatcher := confWatcher p; ctxDone := ctxDone p;
     nextHandle := nextHandle p |}.
Definition set_rtspsServer (v : option Handle) (p : Core) : Core :=
  {| confPath := confPath p; conf := conf p; confFound := confFound p;
     logger := logger p; externalCmdPool := externalCmdPool p; metrics :=
     metrics p; pprof := pprof p; pathManager := pathManager p; rtspServer :=
     rtspServer p; rtspsServer := v; rtmpServer := rtmpServer p; rtmpsServer :=
     rtmpsServer p; hlsServer := hlsServer p; webRTCServer := webRTCServer p;
     api := api p; confWatcher := confWatcher p; ctxDone := ctxDone p;
     nextHandle := nextHandle p |}.
Definition set_rtmpServer (v : option Handle) (p : Core) : Core :=
  {| confPath := confPath p; conf := conf p; confFound := confFound p;
     logger := logger p; externalCmdPool := externalCmdPool p; metrics :=
     metrics p; pprof := pprof p; pathManager := pathManager p; rtspServer :=
     rtspServer p; rtspsServer := rtspsServer p; rtmpServer := v; rtmpsServer
     := rtmpsServer p; hlsServer := hlsServer p; webRTCServer := webRTCServer
     p; api := api p; confWatcher := confWatcher p; ctxDone := ctxDone p;
     nextHandle := nextHandle p |}.
Definition set_rtmpsServer (v : option Handle) (p : Core) : Core :=
  {| confPath := confPath p; conf := conf p; confFound := confFound p;
     logger := logger p; externalCmdPool := externalCmdPool p; metrics :=
     metrics p; pprof := pprof p; pathManager := pathManager p; rtspServer :=
     rtspServer p; rtspsServer := rtspsServer p; rtmpServer := rtmpServer p;
     rtmpsServer := v; hlsServer := hlsServer p; webRTCServer := webRTCServer
     p; api := api p; confWatcher := confWatcher p; ctxDone := ctxDone p;
     nextHandle := nextHandle p |}.
Definition set_hlsServer (v : option Handle) (p : Core) : Core :=
  {| confPath := confPath p; conf := conf p; confFound := confFound p;
     logger := logger p; externalCmdPool := externalCmdPool p; metrics :=
     metrics p; pprof := pprof p; pathManager := pathManager p; rtspServer :=
     rtspServer p; rtspsServer := rtspsServer p; rtmpServer := rtmpServer p;
     rtmpsServer := rtmpsServer p; hlsServer := v; webRTCServer := webRTCServer
     p; api := api p; confWatcher := confWatcher p; ctxDone := ctxDone p;
     nextHandle := nextHandle p |}.
Definition set_webRTCServer (v : option Handle) (p : Core) : Core :=
  {| confPath := confPath p; conf := conf p; confFound := confFound p;
     logger := logger p; externalCmdPool := externalCmdPool p; metrics :=
     metrics p; pprof := pprof p; pathManager := pathManager p; rtspServer :=
     rtspServer p; rtspsServer := rtspsServer p; rtmpServer := rtmpServer p;
     rtmpsServer := rtmpsServer p; hlsServer := hlsServer p; webRTCServer := v;
     api := api p; confWatcher := confWatcher p; ctxDone := ctxDone p;
     nextHandle := nextHandle p |}.
Definition set_api (v : option apiInst) (p : Core) : Core :=
  {| confPath := confPath p; conf := conf p; confFound := confFound p;
     logger := logger p; externalCmdPool := externalCmdPool p; metrics :=
     metrics p; pprof := pprof p; pathManager := pathManager p; rtspServer :=
     rtspServer p; rtspsServer := rtspsServer p; rtmpServer := rtmpServer p;
     rtmpsServer := rtmpsServer p; hlsServer := hlsServer p; webRTCServer :=
     webRTCServer p; api := v; confWatcher := confWatcher p; ctxDone := ctxDone
     p; nextHandle := nextHandle p |}.
Definition set_confWatcher (v : option Handle) (p : Core) : Core :=
  {| confPath := confPath p; conf := conf p; confFound := confFound p;
     logger := logger p; externalCmdPool := externalCmdPool p; metrics :=
     metrics p; pprof := pprof p; pathManager := pathManager p; rtspServer :=
     rtspServer p; rtspsServer := rtspsServer p; rtmpServer := rtmpServer p;
     rtmpsServer := rtmpsServer p; hlsServer := hlsServer p; webRTCServer :=
     webRTCServer p; api := api p; confWatcher := v; ctxDone := ctxDone p;
     nextHandle := nextHandle p |}.
Definition set_ctxDone (v : bool) (p : Core) : Core :=
  {| confPath := confPath p; conf := conf p; confFound := confFound p;
     logger := logger p; externalCmdPool := externalCmdPool p; metrics :=
     metrics p; pprof := pprof p; pathManager := pathManager p; rtspServer :=
     rtspServer p; rtspsServer := rtspsServer p; rtmpServer := rtmpServer p;
     rtmpsServer := rtmpsServer p; hlsServer := hlsServer p; webRTCServer :=
     webRTCServer p; api := api p; confWatcher := confWatcher p; ctxDone := v;
     nextHandle := nextHandle p |}.
Definition set_nextHandle (v : Handle) (p : Core) : Core :=
  {| confPath := confPath p; conf := conf p; confFound := confFound p;
     logger := logger p; externalCmdPool := externalCmdPool p; metrics :=
     metrics p; pprof := pprof p; pathManager := pathManager p; rtspServer :=
     rtspServer p; rtspsServer := rtspsServer p; rtmpServer := rtmpServer p;
     rtmpsServer := rtmpsServer p; hlsServer := hlsServer p; webRTCServer :=
     webRTCServer p; api := api p; confWatcher := confWatcher p; ctxDone :=
     ctxDone p; nextHandle := v |}.

(** *** State, trace and panic monad

    A computation runs on a [Core], appends events, and either returns a
    value or panics (a nil dereference), which stops it. *)
Record Res (A : Type) := mkRes {
  res_val : option A;
  res_core : Core;
  res_trace : list Event
}.
Arguments mkRes {A} _ _ _.
Arguments res_val {A} _.
Arguments res_core {A} _.
Arguments res_trace {A} _.

Definition M (A : Type) : Type := Core -> Res A.

Definition ret {A} (a : A) : M A := fun p => mkRes (Some a) p [].

Definition bind {A B} (m : M A) (f : A -> M B) : M B :=
  fun p =>
    match m p with
    | mkRes None p' t => mkRes None p' t
    | mkRes (Some a) p' t =>
        match f a p' with
        | mkRes v p'' t' => mkRes v p'' (t ++ t')
        end
    end.

#[export] Instance M_ret : MRet M := @ret.
#[export] Instance M_bind : MBind M := fun A B f m => bind m f.

Definition get : M Core := fun p => mkRes (Some p) p [].
Definition modify (f : Core -> Core) : M unit := fun p => mkRes (Some tt) (f p) [].
Definition emit (e : Event) : M unit := fun p => mkRes (Some tt) p [e].
Definition panic {A} : M A := fun p => mkRes None p [EPanic].
Definition when (b : bool) (m : M unit) : M unit := if b then m else ret tt.

Definition fresh : M Handle :=
  p ← get; modify (set_nextHandle (S (nextHandle p))) ;; ret (nextHandle p).

(** [p.Log]: forwards to [p.logger.Log], a nil dereference without logger. *)
Definition Log (l : Level) (msg : string) : M unit :=
  p ← get;
  match logger p with
  | None => panic
  | Some _ => emit (ELog l msg)
  end.

(** [if cond && p.x != nil { p.x.close(); p.x = nil }]. *)
Definition closeIf (cond : bool) (s : Subsystem)
    (field : Core -> option Handle) (clear : Core -> Core) : M unit :=
  p ← get;
  match field p with
  | Some h => when cond (emit (EClose s h) ;; modify clear)
  | None => ret tt
  end.

(** [func (p *Core) closeResources(newConf *conf.Conf, calledByAPI bool)]. *)
Definition closeResources (newConf : option Conf) (calledByAPI : bool) : M unit :=
  p ← get;
  let c := conf p in
  (match newConf with
   | Some n =>
       when (negb (closePathManager newConf c) && (Paths n !=? Paths c))
         (q ← get;
          match pathManager q with
          | Some h => emit (EPathManagerConfReload h (Paths n))
          | None => panic
          end)
   | None => ret tt
   end) ;;
  (q ← get;
   match newConf, confWatcher q with
   | None, Some h => emit (EClose SConfWatcher h) ;; modify (set_confWatcher None)
   | _, _ => ret tt
   end) ;;
  (q ← get;
   match api q with
   | Some a =>
       if closeAPI newConf c then
         emit (EClose SAPI (api_handle a)) ;; modify (set_api None)
       else if negb calledByAPI then
         emit (EAPIConfReload (api_handle a) newConf) ;;
         modify (set_api (Some
           {| api_handle := api_handle a; api_conf := newConf;
              api_pathManager := api_pathManager a;
              api_rtspServer := api_rtspServer a;
              api_rtspsServer := api_rtspsServer a;
              api_rtmpServer := api_rtmpServer a;
              api_rtmpsServer := api_rtmpsServer a;
              api_hlsServer := api_hlsServer a;
              api_webRTCServer := api_webRTCServer a |}))
       else ret tt
   | None => ret tt
   end) ;;
  closeIf (closeRTSPSServer newConf c) SRTSPSServer rtspsServer (set_rtspsServer None) ;;
  closeIf (closeRTSPServer newConf c) SRTSPServer rtspServer (set_rtspServer None) ;;
  closeIf (closePathManager newConf c) SPathManager pathManager (set_pathManager None) ;;
  closeIf (closeWebRTCServer newConf c) SWebRTCServer webRTCServer (set_webRTCServer None) ;;
  closeIf (closeHLSServer newConf c) SHLSServer hlsServer (set_hlsServer None) ;;
  closeIf (closeRTMPSServer newConf c) SRTMPSServer rtmpsServer (set_rtmpsServer None) ;;
  closeIf (closeRTMPServer newConf c) SRTMPServer rtmpServer (set_rtmpServer None) ;;
  closeIf (closePPROF newConf c) SPPROF pprof (set_pprof None) ;;
  closeIf (closeMetrics newConf c) SMetrics metrics (set_metrics None) ;;
  (match newConf with
   | None =>
       (q ← get;
        match externalCmdPool q with
        | Some h => Log Info "waiting for external commands" ;;
                    emit (EClose SExternalCmdPool h)
        | None => ret tt
        end) ;;
       emit ERpiCameraCleanup
   | Some _ => ret tt
   end) ;;
  when (closeLogger newConf c)
    (q ← get;
     match logger q with
     | Some h => emit (EClose SLogger h) ;; modify (set_logger None)
     | None => panic
     end).

(** *** Resource creation *)

(** [x, err := f(); if err != nil { return err }; rest]. *)
Definition orReturn (m k : M (option string)) : M (option string) :=
  e ← m;
  match e with
  | Some err => mret (Some err)
  | None => k
  end.

Section create.
(** The outcome of each constructor ([logger.New], [newMetrics],
    [net.Listen] inside a server constructor, ...) at this call:
    [Some err] when it fails. *)
Variable newErr : Subsystem -> option string.

(** [p.x, err = newX(...)]. *)
Definition create (s : Subsystem) (set : option Handle -> Core -> Core)
    : M (option string) :=
  match newErr s with
  | Some err => emit (ENewFailed s err) ;; mret (Some err)
  | None => h ← fresh; emit (ENew s h) ;; modify (set (Some h)) ;; mret None
  end.

(** [if cond { if p.x == nil { p.x, err = newX(...) ... } }]. *)
Definition ensure (cond : Conf -> bool) (s : Subsystem)
    (field : Core -> option Handle) (set : option Handle -> Core -> Core)
    : M (option string) :=
  p ← get;
  if cond (conf p) then
    match field p with
    | None => create s set
    | Some _ => mret None
    end
  else mret None.

Definition rtspEnabled (c : Conf) : bool :=
  negb (RTSPDisable c) &&
  (bool_decide (Encryption_ c = EncryptionNo) ||
   bool_decide (Encryption_ c = EncryptionOptional)).

Definition rtspsEnabled (c : Conf) : bool :=
  negb (RTSPDisable c) &&
  (bool_decide (Encryption_ c = EncryptionStrict) ||
   bool_decide (Encryption_ c = EncryptionOptional)).

Definition rtmpEnabled (c : Conf) : bool :=
  negb (RTMPDisable c) &&
  (bool_decide (RTMPEncryption c = EncryptionNo) ||
   bool_decide (RTMPEncryption c = EncryptionOptional)).

Definition rtmpsEnabled (c : Conf) : bool :=
  negb (RTMPDisable c) &&
  (bool_decide (RTMPEncryption c = EncryptionStrict) ||
   bool_decide (RTMPEncryption c = EncryptionOptional)).

(** [newAPI(p.conf.APIAddress, p.conf, p.pathManager, p.rtspServer, ...)]. *)
Definition createAPI : M (option string) :=
  match newErr SAPI with
  | Some err => emit (ENewFailed SAPI err) ;; mret (Some err)
  | None =>
      h ← fresh;
      emit (ENew SAPI h) ;;
      p ← get;
      modify (set_api (Some
        {| api_handle := h; api_conf := Some (conf p);
           api_pathManager := pathManager p;
           api_rtspServer := rtspServer p;
           api_rtspsServer := rtspsServer p;
           api_rtmpServer := rtmpServer p;
           api_rtmpsServer := rtmpsServer p;
           api_hlsServer := hlsServer p;
           api_webRTCServer := webRTCServer p |})) ;;
      mret None
  end.

(** [func (p *Core) createResources(initial bool) error]. *)
Definition createResources (initial : bool) : M (option string) :=
  orReturn
    (p ← get;
     match logger p with
     | None => create SLogger set_logger
     | Some _ => mret None
     end)
  (when initial
     (Log Info ("MediaMTX / rtsp-simple-server " +:+ version) ;;
      (p ← get;
       when (negb (confFound p))
         (Log Warn "configuration file not found, using an empty configuration")) ;;
      emit ERlimitRaise ;;
      emit EGinSetMode ;;
      h ← fresh;
      emit (ENew SExternalCmdPool h) ;;
      modify (set_externalCmdPool (Some h))) ;;
   orReturn (ensure Metrics SMetrics metrics set_metrics)
  (orReturn (ensure PPROF SPPROF pprof set_pprof)
  ((p ← get;
    match pathManager p with
    | None =>
        h ← fresh;
        emit (ENew SPathManager h) ;;
        modify (set_pathManager (Some h))
    | Some _ => mret tt
    end) ;;
   orReturn (ensure rtspEnabled SRTSPServer rtspServer set_rtspServer)
  (orReturn (ensure rtspsEnabled SRTSPSServer rtspsServer set_rtspsServer)
  (orReturn (ensure rtmpEnabled SRTMPServer rtmpServer set_rtmpServer)
  (orReturn (ensure rtmpsEnabled SRTMPSServer rtmpsServer set_rtmpsServer)
  (orReturn (ensure (fun c => negb (HLSDisable c)) SHLSServer hlsServer set_hlsServer)
  (orReturn (ensure (fun c => negb (WebRTCDisable c)) SWebRTCServer
               webRTCServer set_webRTCServer)
  (orReturn
     (p ← get;
      if API (conf p) then
        match api p with
        | None => createAPI
        | Some _ => mret None
        end
      else mret None)
  (orReturn
     (p ← get;
      if initial && confFound p then create SConfWatcher set_confWatcher
      else mret None)
  (mret None))))))))))).

(** [func (p *Core) reloadConf(newConf *conf.Conf, calledByAPI bool) error]. *)
Definition reloadConf (newConf : Conf) (calledByAPI : bool) : M (option string) :=
  closeResources (Some newConf) calledByAPI ;;
  modify (set_conf newConf) ;;
  createResources false.

End create.

(** *** Command line and start-up *)

(** [var cli struct { Version bool; Confpath string }]. *)
Record cliT := { Version : bool; Confpath : string }.

(** The value of the [default:] tag of [Confpath]. *)
Definition cli_default : cliT :=
  {| Version := false; Confpath := "rtsp-simple-server.yml" |}.

Definition isFlag (a : string) : bool :=
  match a with
  | String "-"%char _ => true
  | _ => false
  end.

(** Modelled from the spec: the command-line grammar that the external
    kong parser derives from the tags of [cli]: a flag [--version] and one
    optional positional argument [confpath]; [seen] tells whether the
    positional argument was consumed. *)
Fixpoint kongParse (args : list string) (seen : bool) (c : cliT) : cliT + string :=
  match args with
  | [] => inl c
  | a :: rest =>
      if bool_decide (a = "--version") then
        kongParse rest seen {| Version := true; Confpath := Confpath c |}
      else if isFlag a then inr ("unknown flag " +:+ a)
      else if seen then inr ("unexpected argument " +:+ a)
      else kongParse rest true {| Version := Version c; Confpath := a |}
  end.

Section start.
(** The configuration files of the host: [None] when the path does not
    exist, otherwise the result of decoding and checking its content. *)
Variable files : string -> option (Conf + string).
(** The configuration obtained from no file at all. *)
Variable emptyConf : Conf.

(** Modelled from the spec: [conf.Load] of package conf, whose source is
    not part of this development.  A missing file is not an error: the
    empty configuration is returned with [found = false]. *)
Definition Load (fpath : string) : (Conf * bool) + string :=
  match files fpath with
  | None => inl (emptyConf, false)
  | Some (inl c) => inl (c, true)
  | Some (inr err) => inr err
  end.

Inductive NewOutcome :=
| NewExit (code : Z) (tr : list Event)
| NewFailed (tr : list Event)
| NewCore (r : Res bool).

Definition initCore (confPath : string) (c : Conf) (found : bool) : Core :=
  {| confPath := confPath; conf := c; confFound := found;
     logger := None; externalCmdPool := None; metrics := None;
     pprof := None; pathManager := None; rtspServer := None;
     rtspsServer := None; rtmpServer := None; rtmpsServer := None;
     hlsServer := None; webRTCServer := None; api := None;
     confWatcher := None; ctxDone := false; nextHandle := 0%nat |}.

Variable newErr : Subsystem -> option string.

(** [func New(args []string)], which returns a Core pointer and a
    boolean; the boolean is the value of the computation, and
    [go p.run()] is left to [run]. *)
Definition New (args : list string) : NewOutcome :=
  match kongParse args false cli_default with
  | inr err => NewExit 1 [EPrint err]
  | inl cli =>
      if Version cli then NewExit 0 [EPrint version]
      else
        match Load (Confpath cli) with
        | inr err => NewFailed [EPrint ("ERR: " +:+ err)]
        | inl (c, found) =>
            NewCore
              ((err ← createResources newErr true;
                match err with
                | Some e =>
                    (p ← get;
                     match logger p with
                     | Some _ => Log Error e
                     | None => emit (EPrint ("ERR: " +:+ e))
                     end) ;;
                    closeResources None false ;;
                    mret false
                | None => mret true
                end) (initCore (Confpath cli) c found))
        end
  end.

End start.

(** *** The supervisor loop *)

(** What the [select] of [run] receives. *)
Inductive RunMsg :=
| MConfChanged (loaded : (Conf * bool) + string)
| MAPIConfigSet (newConf : Conf)
| MInterrupt
| MCtxDone.

(** One iteration of the [for { select { ... } }] of [run]; the result is
    [false] on [break outer]. *)
Definition runIter (newErr : Subsystem -> option string) (msg : RunMsg) : M bool :=
  match msg with
  | MConfChanged loaded =>
      Log Info "reloading configuration (file changed)" ;;
      match loaded with
      | inr err => Log Error err ;; mret false
      | inl (newConf, _) =>
          e ← reloadConf newErr newConf false;
          match e with
          | Some err => Log Error err ;; mret false
          | None => mret true
          end
      end
  | MAPIConfigSet newConf =>
      Log Info "reloading configuration (API request)" ;;
      e ← reloadConf newErr newConf true;
      match e with
      | Some err => Log Error err ;; mret false
      | None => mret true
      end
  | MInterrupt => Log Info "shutting down gracefully" ;; mret false
  | MCtxDone => mret false
  end.

(** [func (p *Core) run()] on the messages it receives, each with the
    outcome of the constructors it triggers.  When the messages run out
    the loop is still waiting in its [select]. *)
Fixpoint run (msgs : list ((Subsystem -> option string) * RunMsg)) : M unit :=
  match msgs with
  | [] => mret tt
  | (newErr, msg) :: rest =>
      continue ← runIter newErr msg;
      if continue : bool then run rest
      else
        emit ECtxCancel ;;
        modify (set_ctxDone true) ;;
        closeResources None false ;;
        emit EDone
  end.

End core.

(** ** The WebRTC protocol server *)
Module webrtc.
Import conf.

(** [strings.HasSuffix] and [strings.TrimSuffix]. *)
Definition HasSuffix (s suffix : string) : bool :=
  String.prefix (String.rev suffix) (String.rev s).

Definition TrimSuffix (s suffix : string) : string :=
  if HasSuffix s suffix then
    String.substring 0 (String.length s - String.length suffix) s
  else s.

Definition dquote : string := String "034"%char EmptyString.

(** The realm challenge sent with every 401. *)
Definition basicRealm : string :=
  "Basic realm=" +:+ dquote +:+ "rtsp-simple-server" +:+ dquote.

(** A connection actor as the server sees it: its address ([ptr]) and
    what its accessors return. *)
Record webRTCConn := {
  ptr : nat;
  uuid : string;
  created : Z;
  remoteAddr : string;
  peerConnectionEstablished : bool;
  localCandidate : string;
  remoteCandidate : string;
  bytesReceived : Z;
  bytesSent : Z
}.

Record webRTCServerAPIConnsListItem := {
  Created : Z;
  RemoteAddr : string;
  PeerConnectionEstablished : bool;
  LocalCandidate : string;
  RemoteCandidate : string;
  BytesReceived : Z;
  BytesSent : Z
}.

Record webRTCServerAPIConnsListRes := {
  list_data : option (gmap string webRTCServerAPIConnsListItem);
  list_err : option string
}.

Record webRTCServerAPIConnsKickRes := { kick_err : option string }.

(** [type webRTCServer struct], with the fields that the request loop,
    the handler and the authenticator read.  [conns] is the Go map used as
    a set of connection pointers, listed in the order a [range] visits it
    (which the runtime chooses); pointers in it are pairwise distinct. *)
Record webRTCServer := {
  externalAuthenticationURL : string;
  allowOrigin : string;
  tlsConfig : bool;
  udpMuxLn : option nat;
  tcpMuxLn : option nat;
  conns : list webRTCConn;
  ctxDone : bool
}.

Definition set_conns (v : list webRTCConn) (s : webRTCServer) : webRTCServer :=
  {| externalAuthenticationURL := externalAuthenticationURL s;
     allowOrigin := allowOrigin s; tlsConfig := tlsConfig s;
     udpMuxLn := udpMuxLn s; tcpMuxLn := tcpMuxLn s;
     conns := v; ctxDone := ctxDone s |}.

Definition set_ctxDone (v : bool) (s : webRTCServer) : webRTCServer :=
  {| externalAuthenticationURL := externalAuthenticationURL s;
     allowOrigin := allowOrigin s; tlsConfig := tlsConfig s;
     udpMuxLn := udpMuxLn s; tcpMuxLn := tcpMuxLn s;
     conns := conns s; ctxDone := v |}.

(** [logger.Level]. *)
Inductive Level := Debug | Info | Warn | Error.

Inductive Event :=
(* run *)
| ERequestPoolNew
| EServe (tls : bool)
| EConnClose (c : nat)
| ECtxCancel
| EHTTPShutdown
| ELnClose
| EWgWait
| EUDPMuxLnClose (h : nat)
| ETCPMuxLnClose (h : nat)
| ERequestPoolClose
| EDone
(* onRequest *)
| ELog (l : Level) (msg : string)
| ESetHeader (key value : string)
| EWriteHeader (status : Z)
| EWriteIndex
| EWebsocket (dir : string)
| EPanic.

(** *** The request loop *)

(** [s.conns[c] = struct{}{}] and [delete(s.conns, c)]. *)
Definition conns_add (c : webRTCConn) (l : list webRTCConn) : list webRTCConn :=
  if bool_decide (ptr c ∈ ptr <$> l) then l else (l ++ [c])%list.

Definition conns_delete (c : nat) (l : list webRTCConn) : list webRTCConn :=
  filter (fun c' => ptr c' ≠ c) l.

Definition listItem (c : webRTCConn) : webRTCServerAPIConnsListItem :=
  {| Created := created c; RemoteAddr := remoteAddr c;
     PeerConnectionEstablished := peerConnectionEstablished c;
     LocalCandidate := localCandidate c; RemoteCandidate := remoteCandidate c;
     BytesReceived := bytesReceived c; BytesSent := bytesSent c |}.

(** [for c := range s.conns { data.Items[c.uuid.String()] = ... }]. *)
Definition listItems (l : list webRTCConn)
    : gmap string webRTCServerAPIConnsListItem :=
  foldl (fun items c => <[uuid c := listItem c]> items) ∅ l.

(** The closure of the [chAPIConnsKick] case: the first visited
    connection whose UUID is [id], if any. *)
Fixpoint kickFind (id : string) (l : list webRTCConn) : option webRTCConn :=
  match l with
  | [] => None
  | c :: rest => if bool_decide (uuid c = id) then Some c else kickFind id rest
  end.

(** What the [select] of [run] receives. *)
Inductive Req :=
| ReqConnNew (c : webRTCConn)
| ReqConnClose (c : nat)
| ReqAPIConnsList
| ReqAPIConnsKick (id : string)
| CtxDone.

Inductive Reply :=
| RepConn (c : webRTCConn)
| RepList (r : webRTCServerAPIConnsListRes)
| RepKick (r : webRTCServerAPIConnsKickRes)
| RepNone.

Record Step := mkStep {
  step_server : webRTCServer;
  step_trace : list Event;
  step_reply : Reply;
  step_continue : bool
}.

(** One iteration of the [for { select { ... } }] of [run].  In
    [ReqConnNew c], [c] is the actor [newWebRTCConn] allocates. *)
Definition handle (s : webRTCServer) (req : Req) : Step :=
  match req with
  | ReqConnNew c =>
      mkStep (set_conns (conns_add c (conns s)) s) [] (RepConn c) true
  | ReqConnClose c =>
      mkStep (set_conns (conns_delete c (conns s)) s) [] RepNone true
  | ReqAPIConnsList =>
      mkStep s []
        (RepList {| list_data := Some (listItems (conns s)); list_err := None |})
        true
  | ReqAPIConnsKick id =>
      match kickFind id (conns s) with
      | Some c =>
          mkStep (set_conns (conns_delete (ptr c) (conns s)) s)
            [EConnClose (ptr c)] (RepKick {| kick_err := None |}) true
      | None =>
          mkStep s [] (RepKick {| kick_err := Some "not found" |}) true
      end
  | CtxDone => mkStep s [] RepNone false
  end.

(** The statements of [run] after the loop, followed by its two deferred
    calls. *)
Definition shutdown (s : webRTCServer) : webRTCServer * list Event :=
  (set_ctxDone true s,
   ([ECtxCancel; EHTTPShutdown; ELnClose; EWgWait] ++
    (match udpMuxLn s with Some h => [EUDPMuxLnClose h] | None => [] end) ++
    (match tcpMuxLn s with Some h => [ETCPMuxLnClose h] | None => [] end) ++
    [ERequestPoolClose; EDone])%list).

(** The loop of [run] on the requests it receives; when they run out the
    loop is still waiting in its [select]. *)
Fixpoint loop (s : webRTCServer) (reqs : list Req) : webRTCServer * list Event :=
  match reqs with
  | [] => (s, [])
  | req :: rest =>
      let st := handle s req in
      if step_continue st then
        let '(s', tr) := loop (step_server st) rest in
        (s', (step_trace st ++ tr)%list)
      else
        let '(s', tr) := shutdown (step_server st) in
        (s', (step_trace st ++ tr)%list)
  end.

(** [func (s *webRTCServer) run()]. *)
Definition run (s : webRTCServer) (reqs : list Req) : webRTCServer * list Event :=
  let '(s', tr) := loop s reqs in
  (s', ([ERequestPoolNew; EServe (tlsConfig s)] ++ tr)%list).

(** *** API entry points

    [apiConnsList] and [apiConnsKick] block in a [select] between handing
    the request to the loop and [ctx.Done()]; which case fires is decided
    by the scheduler and is an input here. *)
Inductive SelectCase := CaseSent | CaseCtxDone.

Definition apiConnsList (s : webRTCServer) (chosen : SelectCase)
    : webRTCServer * list Event * webRTCServerAPIConnsListRes :=
  match chosen with
  | CaseSent =>
      let st := handle s ReqAPIConnsList in
      (step_server st, step_trace st,
       match step_reply st with
       | RepList r => r
       | _ => {| list_data := None; list_err := None |}
       end)
  | CaseCtxDone => (s, [], {| list_data := None; list_err := Some "terminated" |})
  end.

Definition apiConnsKick (s : webRTCServer) (id : string) (chosen : SelectCase)
    : webRTCServer * list Event * webRTCServerAPIConnsKickRes :=
  match chosen with
  | CaseSent =>
      let st := handle s (ReqAPIConnsKick id) in
      (step_server st, step_trace st,
       match step_reply st with
       | RepKick r => r
       | _ => {| kick_err := None |}
       end)
  | CaseCtxDone => (s, [], {| kick_err := Some "terminated" |})
  end.

(** *** The HTTP request handler *)

(** [pathErrAuthNotCritical] and [pathErrAuthCritical]. *)
Inductive pathErr :=
| pathErrAuthNotCritical
| pathErrAuthCritical (message : string).

Definition isCritical (e : pathErr) : bool :=
  match e with
  | pathErrAuthCritical _ => true
  | pathErrAuthNotCritical => false
  end.

(** The [path] returned by [pathManager.describe]: its name and what
    [safeConf] returns. *)
Record path := { name : string; safeConf : PathConf }.

(** What the handler reads from [gin.Context]: [BasicAuth] is [None] when
    [Request.BasicAuth()] reports [ok = false]. *)
Record Request := {
  Method : string;
  URLPath : string;
  RawQuery : string;
  ClientIP : string;
  BasicAuth : option (string * string);
  AccessControlRequestHeaders : string
}.

Definition externalAuthProtoWebRTC : string := "webrtc".

Section handler.
(** [net.IP], [net.ParseIP] and [IP.String] of the standard library. *)
Variable IPaddr : Type.
Variable ParseIP : string -> IPaddr.
Variable IPString : IPaddr -> string.
(** [ipEqualOrInRange] of this package. *)
Variable ipEqualOrInRange : IPaddr -> list IPOrCIDR -> bool.
(** [externalAuth(url, ip, user, password, path, protocol, id, publish,
    query)] of this package: the verdict of the HTTP endpoint, [Some err]
    on a transport error or a non-2xx answer.  [id] is always nil here. *)
Variable externalAuth :
  string -> string -> string -> string -> string -> string -> bool -> string
  -> option string.
(** [path.Dir] of the standard library. *)
Variable gopathDir : string -> string.
Variable gopathBase : string -> string.
(** [pathManager.describe]: [None] when it answers with an error. *)
Variable describe : string -> option path.

(** [func (s *webRTCServer) authenticate(pa *path, ctx *gin.Context) error]. *)
Definition authenticate (s : webRTCServer) (pa : path) (ctx : Request)
    : option pathErr :=
  let pathConf := safeConf pa in
  let pathIPs := ReadIPs pathConf in
  let pathUser := ReadUser pathConf in
  let pathPass := ReadPass pathConf in
  let external : option pathErr :=
    if externalAuthenticationURL s !=? "" then
      let ip := ParseIP (ClientIP ctx) in
      let '(user, pass, ok) :=
        match BasicAuth ctx with
        | Some (u, p) => (u, p, true)
        | None => ("", "", false)
        end in
      match externalAuth (externalAuthenticationURL s) (IPString ip)
              user pass (name pa) externalAuthProtoWebRTC false
              (RawQuery ctx) with
      | Some err =>
          if negb ok then Some pathErrAuthNotCritical
          else Some (pathErrAuthCritical
                       ("external authentication failed: " +:+ err))
      | None => None
      end
    else None in
  match external with
  | Some e => Some e
  | None =>
      let byIP : option pathErr :=
        match pathIPs with
        | Some ips =>
            let ip := ParseIP (ClientIP ctx) in
            if negb (ipEqualOrInRange ip ips) then
              Some (pathErrAuthCritical
                      ("IP '" +:+ IPString ip +:+ "' not allowed"))
            else None
        | None => None
        end in
      match byIP with
      | Some e => Some e
      | None =>
          if pathUser !=? "" then
            match BasicAuth ctx with
            | None => Some pathErrAuthNotCritical
            | Some (user, pass) =>
                if (user !=? pathUser) || (pass !=? pathPass) then
                  Some (pathErrAuthCritical "invalid credentials")
                else None
            end
          else None
      end
  end.

(** [func (s *webRTCServer) onRequest(ctx *gin.Context)]: the calls made
    on the response writer and the logger.  The websocket branch hands
    the request over to a connection actor and is one event. *)
Definition onRequest (s : webRTCServer) (ctx : Request) : list Event :=
  [ESetHeader "Access-Control-Allow-Origin" (allowOrigin s);
   ESetHeader "Access-Control-Allow-Credentials" "true"] ++
  (if bool_decide (Method ctx = "GET") then
     match URLPath ctx with
     | EmptyString => [EPanic]
     | String _ pa =>
         if bool_decide (pa = "") || bool_decide (pa = "favicon.ico") then []
         else
           let '(dir, fname) :=
             if HasSuffix pa "/ws" then (gopathDir pa, gopathBase pa)
             else (pa, "") in
           if bool_decide (fname = "") && negb (HasSuffix dir "/") then
             [ESetHeader "Location" ("/" +:+ dir +:+ "/");
              EWriteHeader 301]
           else
             let dir := TrimSuffix dir "/" in
             match describe dir with
             | None => [EWriteHeader 404]
             | Some pa' =>
                 match authenticate s pa' ctx with
                 | Some err =>
                     match err with
                     | pathErrAuthCritical message =>
                         [ELog Info ("authentication error: " +:+ message);
                          ESetHeader "WWW-Authenticate" basicRealm;
                          EWriteHeader 401]
                     | pathErrAuthNotCritical =>
                         [ESetHeader "WWW-Authenticate" basicRealm;
                          EWriteHeader 401]
                     end
                 | None =>
                     if bool_decide (fname = "") then
                       [ESetHeader "Content-Type" "text/html";
                        EWriteHeader 200;
                        EWriteIndex]
                     else if bool_decide (fname = "ws") then
                       [EWebsocket dir]
                     else []
                 end
             end
     end
   else if bool_decide (Method ctx = "OPTIONS") then
     [ESetHeader "Access-Control-Allow-Methods" "GET, OPTIONS";
      ESetHeader "Access-Control-Allow-Headers" (AccessControlRequestHeaders ctx);
      EWriteHeader 200]
   else [])%list.

End handler.

(** The response a trace of writer calls amounts to: the status of the
    first [WriteHeader] and the last value set for a header. *)
Definition status (tr : list Event) : option Z :=
  head (omap (fun e => match e with EWriteHeader c => Some c | _ => None end) tr).

Definition header (key : string) (tr : list Event) : option string :=
  last (omap (fun e =>
                match e with
                | ESetHeader k v => if bool_decide (k = key) then Some v else None
                | _ => None
                end) tr).

Definition logs (tr : list Event) : list (Level * string) :=
  omap (fun e => match e with ELog l m => Some (l, m) | _ => None end) tr.

End webrtc.

(** ** Observations on supervisor runs, and the notions the properties
    below are stated with *)
Module core_obs.
Import conf decide_close core.

(** The subsystems a trace closes, in order. *)
Definition closed (tr : list Event) : list Subsystem :=
  omap (fun e => match e with EClose s _ => Some s | _ => None end) tr.

(** Every run of [m] closes a subsequence of [k], in the order of [k]. *)
Definition closes {A} (k : list Subsystem) (m : M A) : Prop :=
  forall p, closed (res_trace (m p)) `sublist_of` k.

(** The order in which [closeResources] visits the subsystems. *)
Definition closeOrder : list Subsystem :=
  [SConfWatcher; SAPI; SRTSPSServer; SRTSPServer; SPathManager; SWebRTCServer;
   SHLSServer; SRTMPSServer; SRTMPServer; SPPROF; SMetrics; SExternalCmdPool;
   SLogger].



(** Triples over a state and the history of events so far: if [P] holds
    before [m] runs, [Q] holds of its value ([None] for a panic), the
    final state and the extended history. *)
Definition triple {A} (P : Core -> list Event -> Prop) (m : M A)
    (Q : option A -> Core -> list Event -> Prop) : Prop :=
  forall p t, P p t ->
    Q (res_val (m p)) (res_core (m p)) (t ++ res_trace (m p)).

(** [m] preserves the state invariant [I] and emits only events that
    satisfy [φ]. *)
Definition keeps {A} (I : Core -> Prop) (φ : Event -> Prop) (m : M A) : Prop :=
  forall p, I p -> I (res_core (m p)) /\ Forall φ (res_trace (m p)).

(** No constructor fails. *)
Definition noErr : Subsystem -> option string := fun _ => None.

(** The supervisor as [New] leaves it when the file [confPath] holds the
    configuration [c] and every constructor succeeds. *)
Definition started (c : Conf) : Core :=
  res_core (createResources noErr true (initCore "rtsp-simple-server.yml" c true)).

(** The invariant of a supervisor inside its loop: the logger and the
    path manager exist. *)
Definition running (p : Core) : Prop :=
  is_Some (logger p) /\ is_Some (pathManager p).

Definition isAPILifecycle (e : Event) : Prop :=
  match e with
  | ENew SAPI _ | EClose SAPI _ => True
  | _ => False
  end.

Definition isAPIConfReload (e : Event) : Prop :=
  match e with
  | EAPIConfReload _ _ => True
  | _ => False
  end.

Definition isAPINew (e : Event) : Prop :=
  match e with
  | ENew SAPI _ => True
  | _ => False
  end.

(** What start-up emits when it fails: an error line on the logger or on
    standard output. *)
Definition isFatal (e : Event) : Prop :=
  match e with
  | ELog Error _ | EPrint _ => True
  | _ => False
  end.

Definition warnNotFound : Event :=
  ELog Warn "configuration file not found, using an empty configuration".

Definition isPathManagerLifecycle (e : Event) : Prop :=
  match e with
  | ENew SPathManager _ | EClose SPathManager _ => True
  | _ => False
  end.

End core_obs.


(** ** Observations on the WebRTC server *)
Module webrtc_obs.
Import conf webrtc.

Definition isConnClose (e : Event) : Prop :=
  match e with
  | EConnClose _ => True
  | _ => False
  end.

(** The three verdicts of an authenticator. *)
Inductive Verdict := Allowed | NotCritical | Critical.

Definition verdict (e : option pathErr) : Verdict :=
  match e with
  | None => Allowed
  | Some pathErrAuthNotCritical => NotCritical
  | Some (pathErrAuthCritical _) => Critical
  end.

Section checks.
Variable IPaddr : Type.
Variable ParseIP : string -> IPaddr.
Variable IPString : IPaddr -> string.
Variable ipEqualOrInRange : IPaddr -> list IPOrCIDR -> bool.
Variable externalAuth :
  string -> string -> string -> string -> string -> string -> bool -> string
  -> option string.

(** The answer of the external endpoint for this request: [None] when no
    URL is configured or the endpoint accepts, [Some err] when it
    refuses.  Without Basic credentials it is asked with empty ones. *)
Definition externalRefusal (s : webRTCServer) (pa : path) (ctx : Request)
    : option string :=
  if bool_decide (externalAuthenticationURL s = "") then None
  else
    externalAuth (externalAuthenticationURL s)
      (IPString (ParseIP (ClientIP ctx)))
      (default "" (fst <$> BasicAuth ctx))
      (default "" (snd <$> BasicAuth ctx))
      (name pa) externalAuthProtoWebRTC false (RawQuery ctx).

(** The client address passes the allowlist of the path, if any. *)
Definition ipAllowed (pa : path) (ctx : Request) : bool :=
  match ReadIPs (safeConf pa) with
  | Some ips => ipEqualOrInRange (ParseIP (ClientIP ctx)) ips
  | None => true
  end.

(** The authenticator in the words of the specification: external
    authentication first, then the IP allowlist, then user and
    password. *)
Definition authSpec (s : webRTCServer) (pa : path) (ctx : Request) : Verdict :=
  match externalRefusal s pa ctx with
  | Some _ =>
      match BasicAuth ctx with
      | None => NotCritical
      | Some _ => Critical
      end
  | None =>
      if negb (ipAllowed pa ctx) then Critical
      else if bool_decide (ReadUser (safeConf pa) = "") then Allowed
      else
        match BasicAuth ctx with
        | None => NotCritical
        | Some (user, pass) =>
            if bool_decide (user = ReadUser (safeConf pa)) &&
               bool_decide (pass = ReadPass (safeConf pa))
            then Allowed else Critical
        end
  end.
End checks.

Section routing.
Variable gopathDir : string -> string.
Variable gopathBase : string -> string.

(** The path name and file name with which [onRequest] reaches
    [pathManager.describe], if it does. *)
Definition route (ctx : Request) : option (string * string) :=
  if bool_decide (Method ctx = "GET") then
    match URLPath ctx with
    | EmptyString => None
    | String _ pa =>
        if bool_decide (pa = "") || bool_decide (pa = "favicon.ico") then None
        else
          let '(dir, fname) :=
            if HasSuffix pa "/ws" then (gopathDir pa, gopathBase pa)
            else (pa, "") in
          if bool_decide (fname = "") && negb (HasSuffix dir "/") then None
          else Some (TrimSuffix dir "/", fname)
    end
  else None.
End routing.

(** Scenario 6 of the specification: path [secret] with
    [readUser=u, readPass=p], no external authentication, no allowlist. *)
Definition secretPath : path :=
  {| name := "secret";
     safeConf :=
       {| Source := "publisher";
          SourceOnDemandStartTimeout := 10000000000;
          SourceOnDemandCloseAfter := 10000000000;
          ReadUser := "u"; ReadPass := "p"; ReadIPs := None;
          RunOnDemandStartTimeout := 10000000000;
          RunOnDemandCloseAfter := 10000000000 |} |}.

Definition plainServer : webRTCServer :=
  {| externalAuthenticationURL := ""; allowOrigin := "*"; tlsConfig := false;
     udpMuxLn := None; tcpMuxLn := Some 1%nat; conns := []; ctxDone := false |}.

Definition getSecret (auth : option (string * string)) : Request :=
  {| Method := "GET"; URLPath := "/secret/"; RawQuery := "";
     ClientIP := "192.168.1.7"; BasicAuth := auth;
     AccessControlRequestHeaders := "" |}.

(** Stand-ins for the library functions in the scenarios: addresses are
    kept as text, every address is in every range, the external endpoint
    refuses, and [path.Dir] / [path.Base] split at the final [/ws]. *)
Definition textIP (ip : string) : string := ip.
Definition anyRange (ip : string) (ips : list IPOrCIDR) : bool := true.
Definition refusing (url ip user pass pathName proto : string) (publish : bool)
    (query : string) : option string := Some "bad status code: 401".
Definition dirOfWs (pa : string) : string :=
  String.substring 0 (String.length pa - 3) pa.
Definition baseOfWs (pa : string) : string := "ws".
Definition onlySecret (n : string) : option path :=
  if bool_decide (n = "secret") then Some secretPath else None.

Definition conn (p : nat) (id : string) : webRTCConn :=
  {| ptr := p; uuid := id; created := 0; remoteAddr := "192.168.1.7:50000";
     peerConnectionEstablished := true; localCandidate := "";
     remoteCandidate := ""; bytesReceived := 0; bytesSent := 0 |}.

End webrtc_obs.

(** ** The set of subsystems of a supervisor *)
Module core_state.
Import conf decide_close core.

(** The pointer the [Core] holds for a subsystem (for the API, the handle
    of the instance). *)
Definition pointer (s : Subsystem) (p : Core) : option Handle :=
  match s with
  | SLogger => logger p
  | SExternalCmdPool => externalCmdPool p
  | SMetrics => metrics p
  | SPPROF => pprof p
  | SPathManager => pathManager p
  | SRTSPServer => rtspServer p
  | SRTSPSServer => rtspsServer p
  | SRTMPServer => rtmpServer p
  | SRTMPSServer => rtmpsServer p
  | SHLSServer => hlsServer p
  | SWebRTCServer => webRTCServer p
  | SAPI => api_handle <$> api p
  | SConfWatcher => confWatcher p
  end.

(** The condition under which [closeResources] closes a subsystem that
    exists: its [closeX] local, or [newConf == nil] for the config watcher
    and the external command pool. *)
Definition mustClose (s : Subsystem) (newConf : option Conf) (c : Conf) : bool :=
  match s with
  | SLogger => closeLogger newConf c
  | SMetrics => closeMetrics newConf c
  | SPPROF => closePPROF newConf c
  | SPathManager => closePathManager newConf c
  | SRTSPServer => closeRTSPServer newConf c
  | SRTSPSServer => closeRTSPSServer newConf c
  | SRTMPServer => closeRTMPServer newConf c
  | SRTMPSServer => closeRTMPSServer newConf c
  | SHLSServer => closeHLSServer newConf c
  | SWebRTCServer => closeWebRTCServer newConf c
  | SAPI => closeAPI newConf c
  | SConfWatcher | SExternalCmdPool =>
      match newConf with
      | None => true
      | Some _ => false
      end
  end.

(** The condition under which [createResources] wants a subsystem; the
    logger and the path manager are unconditional. *)
Definition enabled (s : Subsystem) (c : Conf) : bool :=
  match s with
  | SLogger | SPathManager => true
  | SMetrics => Metrics c
  | SPPROF => PPROF c
  | SRTSPServer => rtspEnabled c
  | SRTSPSServer => rtspsEnabled c
  | SRTMPServer => rtmpEnabled c
  | SRTMPSServer => rtmpsEnabled c
  | SHLSServer => negb (HLSDisable c)
  | SWebRTCServer => negb (WebRTCDisable c)
  | SAPI => API c
  | SExternalCmdPool | SConfWatcher => false
  end.

(** The subsystems that [createResources] builds from the configuration
    on every call. *)
Definition configured : list Subsystem :=
  [SLogger; SMetrics; SPPROF; SPathManager; SRTSPServer; SRTSPSServer;
   SRTMPServer; SRTMPSServer; SHLSServer; SWebRTCServer; SAPI].

(** The running subsystems are those the configuration asks for. *)
Definition matchesConf (p : Core) : Prop :=
  forall s, s ∈ configured -> (is_Some (pointer s p) <-> enabled s (conf p) = true).

Definition closesOf (s : Subsystem) (e : Event) : Prop :=
  match e with
  | EClose s' _ => s' = s
  | _ => False
  end.

Definition newsOf (s : Subsystem) (e : Event) : Prop :=
  match e with
  | ENew s' _ => s' = s
  | _ => False
  end.

(** Events that construct or close something. *)
Definition isLifecycle (e : Event) : Prop :=
  match e with
  | ENew _ _ | ENewFailed _ _ | EClose _ _ => True
  | _ => False
  end.

(** Messages after which [run] leaves its loop whatever the state. *)
Definition stops (msg : RunMsg) : bool :=
  match msg with
  | MInterrupt | MCtxDone => true
  | MConfChanged (inr _) => true
  | _ => false
  end.

(** What [closeResources] does to the API when nothing else changes: the
    API is told about the configuration unless it asked for the reload. *)
Definition notified (calledByAPI : bool) (p : Core) : Core :=
  match api p with
  | Some a =>
      if calledByAPI then p
      else set_api (Some
        {| api_handle := api_handle a; api_conf := Some (conf p);
           api_pathManager := api_pathManager a;
           api_rtspServer := api_rtspServer a;
           api_rtspsServer := api_rtspsServer a;
           api_rtmpServer := api_rtmpServer a;
           api_rtmpsServer := api_rtmpsServer a;
           api_hlsServer := api_hlsServer a;
           api_webRTCServer := api_webRTCServer a |}) p
  | None => p
  end.

Definition notice (calledByAPI : bool) (p : Core) : list Event :=
  match api p with
  | Some a => if calledByAPI then [] else [EAPIConfReload (api_handle a) (Some (conf p))]
  | None => []
  end.

(** [matchesConf] as a check. *)
Definition matchesConfb (p : Core) : bool :=
  forallb (fun s => Bool.eqb (bool_decide (is_Some (pointer s p))) (enabled s (conf p)))
    configured.

(** The subsystems whose pointers [createResources] hands to the
    constructor of [s]. *)
Definition given (s : Subsystem) : list Subsystem :=
  match s with
  | SPathManager => [SExternalCmdPool; SMetrics]
  | SRTSPServer | SRTSPSServer | SRTMPServer | SRTMPSServer =>
      [SExternalCmdPool; SMetrics; SPathManager]
  | SHLSServer | SWebRTCServer => [SPathManager; SMetrics]
  | SAPI =>
      [SPathManager; SRTSPServer; SRTSPSServer; SRTMPServer; SRTMPSServer;
       SHLSServer; SWebRTCServer]
  | _ => []
  end.

(** A host on which the RTSP port is taken: the constructor of the RTSP
    server fails, every other one succeeds. *)
Definition rtspBusy : Subsystem -> option string :=
  fun s =>
    match s with
    | SRTSPServer => Some "listen tcp :8554: bind: address already in use"
    | _ => None
    end.

End core_state.

(** ** Construction of the WebRTC server *)
Module webrtc_new.
Import conf webrtc.

(** What the operating system and the TLS library answer to
    [newWebRTCServer]: [net.Listen] on the HTTP address,
    [tls.LoadX509KeyPair] (its error, if any), [net.ListenPacket] on the
    ICE UDP mux address and [net.Listen] on the ICE TCP mux address.  A
    listener is the handle it was opened with. *)
Record Env := {
  listenHTTP : nat + string;
  loadX509KeyPair : option string;
  listenPacketUDP : nat + string;
  listenTCP : nat + string
}.

(** The arguments of [newWebRTCServer] that it reads itself; [metrics] is
    whether the pointer is non-nil. *)
Record Args := {
  a_externalAuthenticationURL : string;
  a_address : string;
  a_encryption : bool;
  a_allowOrigin : string;
  a_metrics : bool;
  a_iceUDPMuxAddress : string;
  a_iceTCPMuxAddress : string
}.

Inductive NewEvent :=
| EOpened (h : nat)
| EClosed (h : nat)
| ELogged (l : Level) (msg : string)
| EMetricsSet
| EGoRun.

(** The message of the [s.log] call at the end of [newWebRTCServer]. *)
Definition openedMsg (a : Args) (udp tcp : option nat) : string :=
  "listener opened on " +:+ a_address a +:+ " (HTTP)" +:+
  (match udp with
   | Some _ => ", " +:+ a_iceUDPMuxAddress a +:+ " (ICE/UDP)"
   | None => ""
   end) +:+
  (match tcp with
   | Some _ => ", " +:+ a_iceTCPMuxAddress a +:+ " (ICE/TCP)"
   | None => ""
   end).

(** The tail of [newWebRTCServer] from [context.WithCancel] on. *)
Definition assemble (a : Args) (udp tcp : option nat)
    : webRTCServer * list NewEvent :=
  ({| externalAuthenticationURL := a_externalAuthenticationURL a;
      allowOrigin := a_allowOrigin a;
      tlsConfig := a_encryption a;
      udpMuxLn := udp;
      tcpMuxLn := tcp;
      conns := [];
      ctxDone := false |},
   [ELogged Info (openedMsg a udp tcp)] ++
   (if a_metrics a then [EMetricsSet] else []) ++
   [EGoRun]).

(** [func newWebRTCServer(...)], which returns a server pointer or an
    error. *)
Definition newWebRTCServer (a : Args) (env : Env)
    : (webRTCServer + string) * list NewEvent :=
  match listenHTTP env with
  | inr err => (inr err, [])
  | inl ln =>
      match (if a_encryption a then loadX509KeyPair env else None) with
      | Some err => (inr err, [EOpened ln; EClosed ln])
      | None =>
          let udp : option nat + string :=
            if a_iceUDPMuxAddress a !=? "" then
              match listenPacketUDP env with
              | inl h => inl (Some h)
              | inr err => inr err
              end
            else inl None in
          match udp with
          | inr err => (inr err, [EOpened ln])
          | inl udpMuxLn =>
              let opened1 :=
                EOpened ln ::
                match udpMuxLn with Some h => [EOpened h] | None => [] end in
              let tcp : option nat + string :=
                if a_iceTCPMuxAddress a !=? "" then
                  match listenTCP env with
                  | inl h => inl (Some h)
                  | inr err => inr err
                  end
                else inl None in
              match tcp with
              | inr err => (inr err, opened1)
              | inl tcpMuxLn =>
                  let '(s, tr) := assemble a udpMuxLn tcpMuxLn in
                  (inl s,
                   opened1 ++
                   (match tcpMuxLn with Some h => [EOpened h] | None => [] end) ++
                   tr)
              end
          end
      end
  end.

(** The listeners that a trace opened and did not close. *)
Definition stillOpen (tr : list NewEvent) : list nat :=
  foldl (fun acc e =>
           match e with
           | EOpened h => acc ++ [h]
           | EClosed h => filter (fun h' => h' ≠ h) acc
           | _ => acc
           end) [] tr.

(** Events by which [onRequest] serves the path: the page or the
    websocket. *)
Definition serves (e : Event) : Prop :=
  match e with
  | EWriteIndex | EWebsocket _ => True
  | _ => False
  end.

(** A request that is not a GET. *)
Definition postSecret : Request :=
  {| Method := "POST"; URLPath := "/secret/"; RawQuery := "";
     ClientIP := "192.168.1.7"; BasicAuth := None;
     AccessControlRequestHeaders := "" |}.

(** An endpoint that accepts and a path manager that knows no path. *)
Definition accepting (url ip user pass pathName proto : string) (publish : bool)
    (query : string) : option string := None.
Definition noPath (n : string) : option path := None.

(** A server with TLS and both ICE muxes wanted, and a system in which
    only the ICE TCP mux address is taken. *)
Definition fullArgs : Args :=
  {| a_externalAuthenticationURL := ""; a_address := ":8889";
     a_encryption := true; a_allowOrigin := "*"; a_metrics := true;
     a_iceUDPMuxAddress := ":8189"; a_iceTCPMuxAddress := ":8189" |}.

Definition tcpTaken : Env :=
  {| listenHTTP := inl 1%nat; loadX509KeyPair := None;
     listenPacketUDP := inl 2%nat;
     listenTCP := inr "listen tcp :8189: bind: address already in use" |}.

Definition allFree : Env :=
  {| listenHTTP := inl 1%nat; loadX509KeyPair := None;
     listenPacketUDP := inl 2%nat; listenTCP := inl 3%nat |}.

End webrtc_new.

(** * Properties *)

Lemma neqb_refl {A} `{EqDecision A} (a : A) : (a !=? a) = false.
Proof. unfold neqb. by rewrite bool_decide_eq_true_2. Qed.

Lemma neqb_true {A} `{EqDecision A} (a b : A) : (a !=? b) = true <-> a <> b.
Proof. unfold neqb. by rewrite negb_true_iff, bool_decide_eq_false. Qed.

(** Membership in an explicit list. *)
Ltac elem_now :=
  repeat first [apply list_elem_of_here | apply list_elem_of_further].

(** ** Restart decisions *)
Module restart.
Import conf decide_close.

(** Rewrites a disjunct known to hold and lets the disjunction collapse. *)
Local Ltac by_disjunct H :=
  rewrite ?H; rewrite ?orb_true_r, ?orb_true_l; reflexivity.

Lemma closeMetrics_closePathManager newConf c :
  closeMetrics newConf c = true -> closePathManager newConf c = true.
Proof. intros H. unfold closePathManager. destruct newConf; [by_disjunct H | done]. Qed.

(** Every protocol server follows the path manager. *)
Lemma closePathManager_servers newConf c :
  closePathManager newConf c = true ->
  closeRTSPServer newConf c = true /\ closeRTSPSServer newConf c = true /\
  closeRTMPServer newConf c = true /\ closeRTMPSServer newConf c = true /\
  closeHLSServer newConf c = true /\ closeWebRTCServer newConf c = true.
Proof.
  intros H.
  unfold closeRTSPServer, closeRTSPSServer, closeRTMPServer, closeRTMPSServer,
    closeHLSServer, closeWebRTCServer.
  destruct newConf; [| done].
  repeat split; by_disjunct H.
Qed.

(** Everything constructed with the metrics pointer follows metrics. *)
Lemma closeMetrics_registered newConf c :
  closeMetrics newConf c = true ->
  closePathManager newConf c = true /\
  closeRTSPServer newConf c = true /\ closeRTSPSServer newConf c = true /\
  closeRTMPServer newConf c = true /\ closeRTMPSServer newConf c = true /\
  closeHLSServer newConf c = true /\ closeWebRTCServer newConf c = true.
Proof.
  intros H. split; [by apply closeMetrics_closePathManager |].
  by apply closePathManager_servers, closeMetrics_closePathManager.
Qed.

(** The API follows the path manager and five of the six servers. *)
Lemma servers_closeAPI newConf c :
  closePathManager newConf c = true \/
  closeRTSPServer newConf c = true \/ closeRTSPSServer newConf c = true \/
  closeRTMPServer newConf c = true \/ closeHLSServer newConf c = true \/
  closeWebRTCServer newConf c = true ->
  closeAPI newConf c = true.
Proof.
  unfold closeAPI. destruct newConf; [| done].
  intros [H|[H|[H|[H|[H|H]]]]]; by_disjunct H.
Qed.

(** The RTMPS server is the one that the API does not follow: a reload
    that changes nothing but [RTMPSAddress] restarts it alone. *)
Lemma only_RTMPSAddress c addr :
  addr <> RTMPSAddress c ->
  closeRTMPSServer (Some (with_RTMPSAddress addr c)) c = true /\
  closeAPI (Some (with_RTMPSAddress addr c)) c = false.
Proof.
  intros Hne. apply neqb_true in Hne.
  unfold closeAPI, closeRTMPSServer, closeRTSPServer, closeRTSPSServer,
    closeRTMPServer, closeHLSServer, closeWebRTCServer, closePathManager,
    closeMetrics.
  cbn [with_RTMPSAddress RTMPSAddress API APIAddress RTSPAddress ReadTimeout
       WriteTimeout ReadBufferCount Metrics MetricsAddress RTSPDisable
       Encryption_ ExternalAuthenticationURL AuthMethods Protocols RTPAddress
       RTCPAddress MulticastIPRange MulticastRTPPort MulticastRTCPPort
       RunOnConnect RunOnConnectRestart ServerCert ServerKey RTMPDisable
       RTMPEncryption RTMPAddress HLSDisable HLSAddress HLSEncryption
       HLSServerKey HLSServerCert HLSAlwaysRemux HLSVariant HLSSegmentCount
       HLSSegmentDuration HLSPartDuration HLSSegmentMaxSize HLSAllowOrigin
       HLSTrustedProxies HLSDirectory WebRTCDisable WebRTCAddress
       WebRTCEncryption WebRTCServerKey WebRTCServerCert WebRTCAllowOrigin
       WebRTCTrustedProxies WebRTCICEServers WebRTCICEHostNAT1To1IPs
       WebRTCICEUDPMuxAddress WebRTCICETCPMuxAddress].
  rewrite !neqb_refl, Hne. done.
Qed.

(** C1.  The restart decisions are transitively closed except at one
    place: with the default configuration running, a new configuration
    that differs only in [RTMPSAddress] makes the RTMPS server restart
    while the API, which was constructed with the pointer to that
    server, does not. *)
Theorem C1_closeAPI_misses_RTMPS :
  closeRTMPSServer (Some (with_RTMPSAddress ":1937" defaultConf)) defaultConf = true /\
  closeAPI (Some (with_RTMPSAddress ":1937" defaultConf)) defaultConf = false.
Proof. apply only_RTMPSAddress. done. Qed.

End restart.

(** ** Reasoning about supervisor computations *)
Module core_logic.
Import conf decide_close core core_obs.

(** Runs the primitive operations of the monad on the state at hand. *)
Ltac msimpl :=
  unfold closeIf, ensure, createAPI, create, orReturn;
  unfold Log, fresh, when;
  unfold mbind, mret, M_bind, M_ret, bind, ret, get, modify, emit, panic;
  cbn.

(** Case analysis on an innermost stuck [match]. *)
Ltac mcase :=
  match goal with
  | |- context [match ?x with _ => _ end] =>
      lazymatch x with
      | context [match _ with _ => _ end] => fail
      | _ => destruct x eqn:?
      end
  end.

Ltac mrun := msimpl; repeat (mcase; cbn).

Lemma bind_unfold {A B} (m : M A) (f : A -> M B) p :
  (m ≫= f) p =
  match res_val (m p) with
  | None => mkRes None (res_core (m p)) (res_trace (m p))
  | Some a =>
      mkRes (res_val (f a (res_core (m p)))) (res_core (f a (res_core (m p))))
        (res_trace (m p) ++ res_trace (f a (res_core (m p))))
  end.
Proof.
  unfold mbind, M_bind, bind. destruct (m p) as [[a|] p' t]; cbn; [| done].
  by destruct (f a p').
Qed.

Lemma bind_get {A} (f : Core -> M A) p : (get ≫= f) p = f p p.
Proof. rewrite bind_unfold. cbn. by destruct (f p p). Qed.

(** The events of the first computation are a prefix of the whole. *)
Lemma bind_trace_prefix {A B} (m : M A) (f : A -> M B) p :
  res_trace (m p) `prefix_of` res_trace ((m ≫= f) p).
Proof.
  rewrite bind_unfold. destruct (res_val (m p)); cbn.
  - by apply prefix_app_r.
  - done.
Qed.

Lemma bind_trace_l {A B} (m : M A) (f : A -> M B) p e :
  e ∈ res_trace (m p) -> e ∈ res_trace ((m ≫= f) p).
Proof.
  intros He. destruct (bind_trace_prefix m f p) as [k ->].
  apply elem_of_app. by left.
Qed.

(** *** The order of [close] calls *)

Lemma closed_app t1 t2 : closed (t1 ++ t2) = closed t1 ++ closed t2.
Proof. apply omap_app. Qed.

Lemma closes_bind {A B} k1 k2 (m : M A) (f : A -> M B) :
  closes k1 m -> (forall a, closes k2 (f a)) -> closes (k1 ++ k2) (m ≫= f).
Proof.
  intros Hm Hf p. rewrite bind_unfold.
  destruct (res_val (m p)) as [a|]; cbn.
  - rewrite closed_app. apply sublist_app; [apply Hm | apply Hf].
  - apply sublist_inserts_r, Hm.
Qed.

Lemma closes_silent {A} (m : M A) k :
  (forall p, closed (res_trace (m p)) = []) -> closes k m.
Proof. intros H p. rewrite H. apply sublist_nil_l. Qed.

Lemma closes_closeIf cond s field clear : closes [s] (closeIf cond s field clear).
Proof.
  intros p. mrun; by repeat constructor.
Qed.

Ltac closes_step :=
  let q := fresh "q" in
  intros q; mrun; by repeat constructor.

Lemma closeResources_closes newConf calledByAPI :
  closes closeOrder (closeResources newConf calledByAPI).
Proof.
  unfold closeResources.
  apply (closes_bind [] closeOrder); [by apply closes_silent |]. intros p.
  apply (closes_bind [] closeOrder); [closes_step |].
  intros _. apply (closes_bind [SConfWatcher] (tail closeOrder)); [closes_step |].
  intros _. apply (closes_bind [SAPI] (tail (tail closeOrder))); [closes_step |].
  intros _. apply (closes_bind [SRTSPSServer]); [apply closes_closeIf |].
  intros _. apply (closes_bind [SRTSPServer]); [apply closes_closeIf |].
  intros _. apply (closes_bind [SPathManager]); [apply closes_closeIf |].
  intros _. apply (closes_bind [SWebRTCServer]); [apply closes_closeIf |].
  intros _. apply (closes_bind [SHLSServer]); [apply closes_closeIf |].
  intros _. apply (closes_bind [SRTMPSServer]); [apply closes_closeIf |].
  intros _. apply (closes_bind [SRTMPServer]); [apply closes_closeIf |].
  intros _. apply (closes_bind [SPPROF]); [apply closes_closeIf |].
  intros _. apply (closes_bind [SMetrics]); [apply closes_closeIf |].
  intros _. apply (closes_bind [SExternalCmdPool] [SLogger]); [closes_step |].
  intros _. closes_step.
Qed.



(** *** Invariants *)

Lemma keeps_bind {A B} I φ (m : M A) (f : A -> M B) :
  keeps I φ m -> (forall a, keeps I φ (f a)) -> keeps I φ (m ≫= f).
Proof.
  intros Hm Hf p Hp. destruct (Hm p Hp) as [Hi Ht].
  rewrite bind_unfold. destruct (res_val (m p)) as [a|]; cbn; [| done].
  destruct (Hf a _ Hi). split; [done |]. by apply Forall_app.
Qed.

Lemma keeps_orReturn I φ (m k : M (option string)) :
  keeps I φ m -> keeps I φ k -> keeps I φ (orReturn m k).
Proof.
  intros Hm Hk. apply keeps_bind; [done |].
  intros [err|]; [| done]. intros p Hp. split; [done | constructor].
Qed.

Lemma keeps_get_bind {A} I φ (f : Core -> M A) :
  (forall p0, keeps I φ (f p0)) -> keeps I φ (get ≫= f).
Proof. intros H p Hp. rewrite bind_get. by apply H. Qed.

(** Discharges [keeps] for one step by running it on every shape of the
    state it reads. *)
Ltac keeps_step :=
  let q := fresh "q" in
  let Hq := fresh "Hq" in
  intros q Hq; mrun;
  try (lazymatch type of Hq with _ /\ _ => destruct Hq end);
  (split; [first [done | congruence | naive_solver]
          | repeat constructor; cbn;
            first [tauto | exfalso; congruence | naive_solver]]).

Section path_manager_kept.
Variable h : Handle.
Let I (p : Core) : Prop := pathManager p = Some h.
Let φ (e : Event) : Prop := ~ isPathManagerLifecycle e.

Lemma closeResources_keeps_pathManager newConf calledByAPI p :
  closePathManager newConf (conf p) = false ->
  I p ->
  I (res_core (closeResources newConf calledByAPI p)) /\
  Forall φ (res_trace (closeResources newConf calledByAPI p)).
Proof.
  intros Hflag Hp. unfold closeResources. rewrite bind_get, Hflag.
  remember (conf p) as c eqn:Ec. clear Ec Hflag.
  revert p Hp. refine (_ : keeps I φ _). subst I φ.
  repeat (apply keeps_bind; [keeps_step | intros _]).
  keeps_step.
Qed.

Lemma createResources_keeps_pathManager newErr initial :
  keeps I φ (createResources newErr initial).
Proof.
  unfold createResources. subst I φ.
  repeat first
    [ apply keeps_orReturn; [keeps_step |]
    | apply keeps_bind; [keeps_step | intros _] ].
  keeps_step.
Qed.

Lemma reloadConf_keeps_pathManager newErr newConf calledByAPI p :
  closePathManager (Some newConf) (conf p) = false ->
  I p ->
  I (res_core (reloadConf newErr newConf calledByAPI p)) /\
  Forall φ (res_trace (reloadConf newErr newConf calledByAPI p)).
Proof.
  intros Hflag Hp. unfold reloadConf.
  destruct (closeResources_keeps_pathManager (Some newConf) calledByAPI p Hflag Hp)
    as [Hi Ht].
  rewrite bind_unfold.
  destruct (res_val (closeResources (Some newConf) calledByAPI p)); cbn; [| done].
  pose proof (createResources_keeps_pathManager newErr false) as Hc.
  assert (keeps I φ (modify (set_conf newConf) ;; createResources newErr false)) as Hk.
  { apply keeps_bind; [| done]. subst I φ. keeps_step. }
  destruct (Hk _ Hi) as [Hi' Ht']. split; [done |]. by apply Forall_app.
Qed.

End path_manager_kept.

Lemma closePathManager_unchanged (n c : Conf) :
  RTSPAddress n = RTSPAddress c ->
  ReadTimeout n = ReadTimeout c ->
  WriteTimeout n = WriteTimeout c ->
  ReadBufferCount n = ReadBufferCount c ->
  Metrics n = Metrics c ->
  MetricsAddress n = MetricsAddress c ->
  closePathManager (Some n) c = false.
Proof.
  unfold closePathManager, closeMetrics.
  intros -> -> -> -> -> ->. by rewrite !neqb_refl.
Qed.

(** C2.  On a reload that leaves [RTSPAddress], [ReadTimeout],
    [WriteTimeout], [ReadBufferCount] and the metrics settings unchanged
    and changes the [Paths] map, the path manager is neither closed nor
    created: the supervisor keeps the same instance and calls its
    [confReload] with the new [Paths] map. *)
Theorem C2_paths_only_reload newErr newConf calledByAPI p h :
  pathManager p = Some h ->
  RTSPAddress newConf = RTSPAddress (conf p) ->
  ReadTimeout newConf = ReadTimeout (conf p) ->
  WriteTimeout newConf = WriteTimeout (conf p) ->
  ReadBufferCount newConf = ReadBufferCount (conf p) ->
  Metrics newConf = Metrics (conf p) ->
  MetricsAddress newConf = MetricsAddress (conf p) ->
  Paths newConf <> Paths (conf p) ->
  let r := reloadConf newErr newConf calledByAPI p in
  pathManager (res_core r) = Some h /\
  (forall h', EClose SPathManager h' ∉ res_trace r) /\
  (forall h', ENew SPathManager h' ∉ res_trace r) /\
  EPathManagerConfReload h (Paths newConf) ∈ res_trace r.
Proof.
  intros Hpm H1 H2 H3 H4 H5 H6 Hpaths r.
  pose proof (closePathManager_unchanged _ _ H1 H2 H3 H4 H5 H6) as Hflag.
  destruct (reloadConf_keeps_pathManager h newErr newConf calledByAPI p Hflag Hpm)
    as [Hi Ht].
  rewrite Forall_forall in Ht.
  split; [done |]. split; [| split].
  - intros h' Hin. by apply (Ht _ Hin).
  - intros h' Hin. by apply (Ht _ Hin).
  - subst r. unfold reloadConf. apply bind_trace_l.
    unfold closeResources. rewrite bind_get. apply bind_trace_l.
    rewrite Hflag. apply neqb_true in Hpaths. rewrite Hpaths.
    msimpl. rewrite Hpm. cbn. set_solver.
Qed.

(** A reload of the default configuration that adds the path [cam1]. *)
Lemma C2_paths_only_reload_witness :
  let newConf := with_Paths (Some {[ "cam1" := publisherPath ]}) defaultConf in
  let r := reloadConf noErr newConf false (started defaultConf) in
  pathManager (res_core r) = Some 2%nat /\
  (forall h', EClose SPathManager h' ∉ res_trace r) /\
  (forall h', ENew SPathManager h' ∉ res_trace r) /\
  EPathManagerConfReload 2%nat (Paths newConf) ∈ res_trace r.
Proof.
  intros newConf r.
  apply (C2_paths_only_reload noErr newConf false (started defaultConf) 2%nat);
    by vm_compute.
Defined.

(** *** Triples *)

Lemma triple_conseq {A} (P P' : Core -> list Event -> Prop) (m : M A)
    (Q Q' : option A -> Core -> list Event -> Prop) :
  triple P' m Q' ->
  (forall p t, P p t -> P' p t) -> (forall v p t, Q' v p t -> Q v p t) ->
  triple P m Q.
Proof. intros H HP HQ p t Hp. apply HQ, H, HP, Hp. Qed.

Lemma triple_bind {A B} (Q1 : option A -> Core -> list Event -> Prop)
    P (m : M A) (f : A -> M B) Q :
  triple P m Q1 ->
  (forall a, triple (Q1 (Some a)) (f a) Q) ->
  (forall p t, Q1 None p t -> Q None p t) ->
  triple P (m ≫= f) Q.
Proof.
  intros Hm Hf Hn p t Hp. specialize (Hm p t Hp).
  rewrite bind_unfold. destruct (res_val (m p)) as [a|]; cbn.
  - rewrite app_assoc. by apply Hf.
  - by apply Hn.
Qed.

(** Sequencing under an assertion that a panic cannot falsify. *)
Lemma triple_seq {A B} (S : Core -> list Event -> Prop)
    P (m : M A) (f : A -> M B) Q :
  triple P m (fun _ => S) ->
  (forall a, triple S (f a) Q) ->
  (forall p t, S p t -> Q None p t) ->
  triple P (m ≫= f) Q.
Proof. intros Hm Hf Hn. by apply (triple_bind (fun _ => S)). Qed.

(** [orReturn] towards a postcondition that only speaks of success. *)
Lemma triple_orReturn (S : Core -> list Event -> Prop) P (m k : M (option string))
    (G : Core -> list Event -> Prop) :
  triple P m (fun v p t => v = Some None -> S p t) ->
  triple S k (fun v p t => v = Some None -> G p t) ->
  triple P (orReturn m k) (fun v p t => v = Some None -> G p t).
Proof.
  intros Hm Hk. unfold orReturn.
  apply (triple_bind (fun v p t => v = Some None -> S p t)); [done | |].
  - intros [err|].
    + intros p t _. cbn. done.
    + intros p t Hp. apply Hk. by apply Hp.
  - done.
Qed.

(** A state invariant carried through a triple whose history assertion
    only grows. *)
Lemma keeps_triple_mono {A} I (R : list Event -> Prop) (m : M A) :
  keeps I (fun _ => True) m ->
  (forall t t', R t -> R (t ++ t')) ->
  triple (fun p t => I p /\ R t) m (fun _ p t => I p /\ R t).
Proof.
  intros H HR p t [Hp Ht]. destruct (H p Hp). split; [done |]. by apply HR.
Qed.

(** *** The API across a reload *)

(** Walks the chain of [closeResources] once its flags are fixed. *)
Ltac close_chain :=
  repeat (apply keeps_bind; [keeps_step | intros _]); keeps_step.

Ltac create_chain :=
  repeat first
    [ apply keeps_orReturn; [keeps_step |]
    | apply keeps_bind; [keeps_step | intros _] ];
  keeps_step.

Section api_kept.
Variable a : apiInst.
Let I (p : Core) : Prop := api_handle <$> api p = Some (api_handle a).

Lemma closeResources_keeps_api newConf calledByAPI p :
  closeAPI newConf (conf p) = false ->
  I p ->
  I (res_core (closeResources newConf calledByAPI p)) /\
  Forall (fun e => ~ isAPILifecycle e)
    (res_trace (closeResources newConf calledByAPI p)).
Proof.
  intros Hflag Hp. unfold closeResources. rewrite bind_get, Hflag.
  remember (conf p) as c eqn:Ec. clear Ec Hflag.
  revert p Hp. refine (_ : keeps I _ _). subst I. close_chain.
Qed.

Lemma createResources_keeps_api newErr initial :
  keeps I (fun e => ~ isAPILifecycle e) (createResources newErr initial).
Proof. unfold createResources. subst I. create_chain. Qed.

End api_kept.

Lemma closeResources_no_api_confReload newConf calledByAPI p :
  closeAPI newConf (conf p) = true \/ calledByAPI = true ->
  Forall (fun e => ~ isAPIConfReload e)
    (res_trace (closeResources newConf calledByAPI p)).
Proof.
  intros Hflag. unfold closeResources. rewrite bind_get.
  remember (conf p) as c eqn:Ec. clear Ec.
  destruct Hflag as [Hflag | ->]; [rewrite Hflag; clear Hflag |];
    (revert p;
     refine (fun p => proj2 ((_ : keeps (fun _ => True) _ _) p Logic.I));
     close_chain).
Qed.

Lemma createResources_no_api_confReload newErr initial :
  keeps (fun _ => True) (fun e => ~ isAPIConfReload e)
    (createResources newErr initial).
Proof. unfold createResources. create_chain. Qed.

Lemma closeResources_no_new newConf calledByAPI :
  keeps (fun _ => True) (fun e => ~ isAPINew e)
    (closeResources newConf calledByAPI).
Proof.
  unfold closeResources. apply keeps_get_bind. intros p0. cbn zeta.
  generalize (conf p0). intros c. close_chain.
Qed.

(** With the API disabled, [createResources] leaves it absent. *)
Lemma createResources_api_disabled newErr initial :
  keeps (fun p => api p = None /\ API (conf p) = false)
    (fun e => ~ isAPINew e) (createResources newErr initial).
Proof. unfold createResources. create_chain. Qed.

Lemma triple_of_keeps {A} I (R : list Event -> Prop) (m : M A)
    (Q : option A -> Core -> list Event -> Prop) :
  keeps I (fun _ => True) m ->
  (forall t t', R t -> R (t ++ t')) ->
  (forall v p t, I p -> R t -> Q v p t) ->
  triple (fun p t => I p /\ R t) m Q.
Proof.
  intros Hk HR HQ. eapply triple_conseq; [by apply keeps_triple_mono | done |].
  intros v p t [??]. by apply HQ.
Qed.

(** When the API must restart, [closeResources] closes the instance at
    hand and clears the pointer. *)
Lemma closeResources_closes_api newConf calledByAPI a p :
  closeAPI (Some newConf) (conf p) = true ->
  api p = Some a ->
  is_Some (pathManager p) ->
  api (res_core (closeResources (Some newConf) calledByAPI p)) = None /\
  EClose SAPI (api_handle a) ∈ res_trace (closeResources (Some newConf) calledByAPI p).
Proof.
  intros Hflag Ha Hpm. unfold closeResources. rewrite bind_get, Hflag.
  remember (conf p) as c eqn:Ec. clear Ec Hflag.
  enough (triple (fun q t => api q = Some a /\ is_Some (pathManager q))
            (_ : M unit)
            (fun _ q t => api q = None /\ EClose SAPI (api_handle a) ∈ t)) as T
    by (apply (T p [] (conj Ha Hpm))).
  clear p Ha Hpm.
  apply (triple_bind (fun v q t => v = Some tt /\ api q = Some a)).
  { intros q t [Ha [h Hpm]]. mrun; [done | congruence | done]. }
  2: { by intros p t [? _]. }
  intros []. apply (triple_bind (fun v q t => v = Some tt /\ api q = Some a)).
  { intros q t [_ Ha]. by mrun. }
  2: { by intros p t [? _]. }
  intros []. apply (triple_seq (fun q t => api q = None /\ EClose SAPI (api_handle a) ∈ t)).
  { intros q t [_ Ha]. msimpl. rewrite Ha. cbn. split; [done | set_solver]. }
  2: { done. }
  intros []. apply triple_of_keeps; [| set_solver | done].
  close_chain.
Qed.

(** With the API enabled and absent, a [createResources] that returns no
    error has constructed it. *)
Lemma createResources_api_created newErr initial :
  triple (fun p t => api p = None /\ API (conf p) = true)
    (createResources newErr initial)
    (fun v p t => v = Some None ->
       exists a', api p = Some a' /\ ENew SAPI (api_handle a') ∈ t).
Proof.
  set (I := fun p : Core => api p = None /\ API (conf p) = true).
  set (S := fun (p : Core) (t : list Event) => I p /\ True).
  set (G := fun (p : Core) (t : list Event) =>
              exists a', api p = Some a' /\ ENew SAPI (api_handle a') ∈ t).
  assert (forall (m : M (option string)), keeps I (fun _ => True) m ->
            triple S m (fun v p t => v = Some None -> S p t)) as step.
  { intros m Hm. apply triple_of_keeps; [done | done | by intros]. }
  assert (forall (m : M unit), keeps I (fun _ => True) m ->
            triple S m (fun _ => S)) as step'.
  { intros m Hm. apply triple_of_keeps; [done | done | by intros]. }
  unfold createResources.
  apply (triple_conseq _ S _ _ (fun v p t => v = Some None -> G p t));
    [| intros p t ?; by split | done].
  apply (triple_orReturn S); [apply step; subst I; keeps_step |].
  apply (triple_seq S); [apply step'; subst I; keeps_step | intros _ | done].
  apply (triple_orReturn S); [apply step; subst I; keeps_step |].
  apply (triple_orReturn S); [apply step; subst I; keeps_step |].
  apply (triple_seq S); [apply step'; subst I; keeps_step | intros _ | done].
  do 6 (apply (triple_orReturn S); [apply step; subst I; keeps_step |]).
  apply (triple_orReturn G).
  { intros q t [[Hapi HAPI] _]. msimpl. rewrite HAPI, Hapi.
    destruct (newErr SAPI); cbn; [done |].
    intros _. eexists. split; [done |]. set_solver. }
  apply (triple_orReturn G).
  { intros q t [a' [Hapi Hin]]. mrun; intros _; exists a'; set_solver. }
  intros q t HG. by cbn; rewrite app_nil_r.
Qed.

(** With the API kept, a reload from the file watcher hands it the new
    configuration. *)
Lemma closeResources_api_confReload newConf a p :
  closeAPI (Some newConf) (conf p) = false ->
  api p = Some a ->
  is_Some (pathManager p) ->
  EAPIConfReload (api_handle a) (Some newConf)
    ∈ res_trace (closeResources (Some newConf) false p).
Proof.
  intros Hflag Ha Hpm. unfold closeResources. rewrite bind_get, Hflag.
  remember (conf p) as c eqn:Ec. clear Ec Hflag.
  enough (triple (fun q t => api q = Some a /\ is_Some (pathManager q))
            (_ : M unit)
            (fun _ q t => EAPIConfReload (api_handle a) (Some newConf) ∈ t)) as T
    by (apply (T p [] (conj Ha Hpm))).
  clear p Ha Hpm.
  apply (triple_bind (fun v q t => v = Some tt /\ api q = Some a)).
  { intros q t [Ha [h Hpm]]. mrun; [done | congruence | done]. }
  2: { by intros p t [? _]. }
  intros []. apply (triple_bind (fun v q t => v = Some tt /\ api q = Some a)).
  { intros q t [_ Ha]. by mrun. }
  2: { by intros p t [? _]. }
  intros [].
  apply (triple_seq (fun q t => True /\ EAPIConfReload (api_handle a) (Some newConf) ∈ t)).
  { intros q t [_ Ha]. msimpl. rewrite Ha. cbn. split; [done | set_solver]. }
  2: { by intros p t [_ ?]. }
  intros []. apply triple_of_keeps; [| set_solver | done].
  close_chain.
Qed.

Lemma reloadConf_unfold newErr newConf calledByAPI p :
  reloadConf newErr newConf calledByAPI p =
  let r1 := closeResources (Some newConf) calledByAPI p in
  match res_val r1 with
  | None => mkRes None (res_core r1) (res_trace r1)
  | Some _ =>
      let r2 := createResources newErr false (set_conf newConf (res_core r1)) in
      mkRes (res_val r2) (res_core r2) (res_trace r1 ++ res_trace r2)
  end.
Proof.
  unfold reloadConf. rewrite bind_unfold.
  destruct (res_val (closeResources (Some newConf) calledByAPI p)); cbn; [| done].
  rewrite bind_unfold. cbn. done.
Qed.

Lemma reloadConf_Forall φ newErr newConf calledByAPI p :
  Forall φ (res_trace (closeResources (Some newConf) calledByAPI p)) ->
  Forall φ (res_trace (createResources newErr false
              (set_conf newConf
                 (res_core (closeResources (Some newConf) calledByAPI p))))) ->
  Forall φ (res_trace (reloadConf newErr newConf calledByAPI p)).
Proof.
  intros H1 H2. rewrite reloadConf_unfold. cbn zeta.
  destruct (res_val _); cbn; [by apply Forall_app | done].
Qed.

Lemma reloadConf_trace_l newErr newConf calledByAPI p e :
  e ∈ res_trace (closeResources (Some newConf) calledByAPI p) ->
  e ∈ res_trace (reloadConf newErr newConf calledByAPI p).
Proof. intros H. unfold reloadConf. by apply bind_trace_l. Qed.

(** C10 (as amended).  On a reload of a supervisor that has an API (and a
    path manager): if the API need not restart it is neither closed nor
    constructed, and [api.confReload(newConf)] is called exactly when the
    reload does not come from the API; if it must restart it is closed,
    never reloaded, and it is constructed again only when the new
    configuration enables the API and [createResources] returns no
    error -- with the API disabled the pointer stays nil. *)
Theorem C10_api_on_reload newErr newConf calledByAPI p a :
  api p = Some a ->
  is_Some (pathManager p) ->
  let r := reloadConf newErr newConf calledByAPI p in
  if closeAPI (Some newConf) (conf p) then
    EClose SAPI (api_handle a) ∈ res_trace r /\
    (forall h c, EAPIConfReload h c ∉ res_trace r) /\
    (if API newConf then
       res_val r = Some None ->
       exists a', api (res_core r) = Some a' /\
                  ENew SAPI (api_handle a') ∈ res_trace r
     else
       (forall h, ENew SAPI h ∉ res_trace r) /\ api (res_core r) = None)
  else
    (forall h, EClose SAPI h ∉ res_trace r) /\
    (forall h, ENew SAPI h ∉ res_trace r) /\
    api_handle <$> api (res_core r) = Some (api_handle a) /\
    (if calledByAPI then forall h c, EAPIConfReload h c ∉ res_trace r
     else EAPIConfReload (api_handle a) (Some newConf) ∈ res_trace r).
Proof.
  intros Ha Hpm r.
  set (r1 := closeResources (Some newConf) calledByAPI p).
  set (p1 := set_conf newConf (res_core r1)).
  pose proof (createResources_no_api_confReload newErr false p1 Logic.I)
    as [_ Hcr2].
  destruct (closeAPI (Some newConf) (conf p)) eqn:Hflag.
  - destruct (closeResources_closes_api newConf calledByAPI a p Hflag Ha Hpm)
      as [Hnone Hclose].
    pose proof (closeResources_no_api_confReload (Some newConf) calledByAPI p
                  (or_introl Hflag)) as Hcr1.
    pose proof (closeResources_no_new (Some newConf) calledByAPI p Logic.I)
      as [_ Hnew1].
    split; [by apply reloadConf_trace_l | split].
    + intros h c Hin.
      pose proof (reloadConf_Forall _ newErr _ _ _ Hcr1 Hcr2) as HF.
      rewrite Forall_forall in HF. by apply (HF _ Hin).
    + destruct (API newConf) eqn:HAPI.
      * subst r. rewrite reloadConf_unfold. cbn zeta. fold r1 p1.
        destruct (res_val r1); cbn; [| done]. intros Hok.
        by apply (createResources_api_created newErr false p1 (res_trace r1)).
      * destruct (createResources_api_disabled newErr false p1)
          as [[Hn2 _] Hnew2]; [done |].
        split.
        -- intros h Hin.
           pose proof (reloadConf_Forall _ newErr _ _ _ Hnew1 Hnew2) as HF.
           rewrite Forall_forall in HF. by apply (HF _ Hin).
        -- subst r. rewrite reloadConf_unfold. cbn zeta. fold r1 p1.
           by destruct (res_val r1).
  - assert (api_handle <$> api p = Some (api_handle a)) as Hi by (by rewrite Ha).
    destruct (closeResources_keeps_api a (Some newConf) calledByAPI p Hflag Hi)
      as [Hi1 Hl1].
    destruct (createResources_keeps_api a newErr false p1 Hi1) as [Hi2 Hl2].
    pose proof (reloadConf_Forall _ newErr _ _ _ Hl1 Hl2) as HF.
    rewrite Forall_forall in HF.
    split; [| split; [| split]].
    + intros h Hin. by apply (HF _ Hin).
    + intros h Hin. by apply (HF _ Hin).
    + subst r. rewrite reloadConf_unfold. cbn zeta. fold r1 p1.
      by destruct (res_val r1).
    + destruct calledByAPI.
      * pose proof (closeResources_no_api_confReload (Some newConf) true p
                      (or_intror eq_refl)) as Hcr1.
        intros h c Hin.
        pose proof (reloadConf_Forall _ newErr _ _ _ Hcr1 Hcr2) as HF'.
        rewrite Forall_forall in HF'. by apply (HF' _ Hin).
      * apply reloadConf_trace_l.
        by apply closeResources_api_confReload.
Qed.

(** C10 (as stated) fails in its last part: when the API request itself
    disables the API, the API must restart, the reload succeeds, the
    instance is closed, and nothing constructs it again. *)
Lemma C10_closed_not_recreated :
  let c := with_API true defaultConf in
  let newConf := with_API false c in
  let r := reloadConf noErr newConf true (started c) in
  is_Some (api (started c)) /\
  closeAPI (Some newConf) (conf (started c)) = true /\
  res_val r = Some None /\
  EClose SAPI 7%nat ∈ res_trace r /\
  (forall h, ENew SAPI h ∉ res_trace r) /\
  api (res_core r) = None.
Proof.
  cbn zeta.
  split; [by vm_compute; eexists |].
  split; [by vm_compute |].
  split; [by vm_compute |].
  split; [vm_compute; elem_now |].
  split; [| by vm_compute].
  intros h. vm_compute. intros Hin.
  repeat (apply elem_of_cons in Hin as [Hin | Hin]; [discriminate |]).
  by apply elem_of_nil in Hin.
Qed.

(** A reload from the file watcher that changes [readBufferCount]: the
    API must restart, and is constructed again. *)
Lemma C10_api_on_reload_witness :
  let c := with_API true defaultConf in
  let r := reloadConf noErr (with_ReadBufferCount 1024 c) false (started c) in
  EClose SAPI 7%nat ∈ res_trace r /\
  (forall h c', EAPIConfReload h c' ∉ res_trace r) /\
  (res_val r = Some None ->
   exists a', api (res_core r) = Some a' /\
              ENew SAPI (api_handle a') ∈ res_trace r).
Proof.
  intros c r.
  pose (a := {| api_handle := 7%nat; api_conf := Some c;
                api_pathManager := Some 2%nat; api_rtspServer := Some 3%nat;
                api_rtspsServer := None; api_rtmpServer := Some 4%nat;
                api_rtmpsServer := None; api_hlsServer := Some 5%nat;
                api_webRTCServer := Some 6%nat |}).
  assert (api (started c) = Some a) as Ha by (by vm_compute).
  assert (is_Some (pathManager (started c))) as Hpm by (by vm_compute; eexists).
  pose proof (C10_api_on_reload noErr (with_ReadBufferCount 1024 c) false
                (started c) a Ha Hpm) as H.
  cbn zeta in H.
  assert (closeAPI (Some (with_ReadBufferCount 1024 c)) (conf (started c)) = true)
    as E1 by (by vm_compute).
  rewrite E1 in H.
  assert (API (with_ReadBufferCount 1024 c) = true) as E2 by (by vm_compute).
  rewrite E2 in H. exact H.
Defined.

(** After the reload of C1 the API is the same instance as before and
    still points to the RTMPS server that was closed, not to the one that
    replaced it. *)
Lemma closeAPI_misses_RTMPS_stale_pointer :
  let c := with_API true (with_RTMPEncryption EncryptionOptional defaultConf) in
  let p := started c in
  let r := reloadConf noErr (with_RTMPSAddress ":1937" c) false p in
  res_val r = Some None /\
  rtmpsServer p = Some 5%nat /\
  EClose SRTMPSServer 5%nat ∈ res_trace r /\
  rtmpsServer (res_core r) = Some 10%nat /\
  api_handle <$> api p = api_handle <$> api (res_core r) /\
  (api (res_core r) ≫= api_rtmpsServer) = Some 5%nat.
Proof.
  cbn zeta.
  split; [by vm_compute |].
  split; [by vm_compute |].
  split; [vm_compute; elem_now |].
  split; [by vm_compute |].
  split; by vm_compute.
Qed.

(** *** Start-up *)

Section startup.
Variable newErr : Subsystem -> option string.

(** [createResources] never replaces the configuration. *)
Lemma createResources_keeps_conf c found initial :
  keeps (fun p => conf p = c /\ confFound p = found) (fun _ => True)
    (createResources newErr initial).
Proof. unfold createResources. create_chain. Qed.

Lemma closeResources_keeps_conf c found newConf calledByAPI :
  keeps (fun p => conf p = c /\ confFound p = found) (fun _ => True)
    (closeResources newConf calledByAPI).
Proof.
  unfold closeResources. apply keeps_get_bind. intros p0. cbn zeta.
  generalize (conf p0). intros c0. close_chain.
Qed.

(** Without configuration file, the first start-up logs the warning as
    soon as the logger exists. *)
Lemma createResources_warns p :
  logger p = None -> confFound p = false -> newErr SLogger = None ->
  warnNotFound ∈ res_trace (createResources newErr true p).
Proof.
  intros Hl Hf Hn.
  enough (triple (fun q t => logger q = None /\ confFound q = false)
            (createResources newErr true)
            (fun _ q t => warnNotFound ∈ t)) as T
    by (apply (T p [] (conj Hl Hf))).
  clear p Hl Hf. unfold createResources, orReturn.
  apply (triple_bind (fun v q t => v = Some None /\ is_Some (logger q) /\
                                   confFound q = false)).
  { intros q t [Hl Hf]. msimpl. rewrite Hl, Hn. by cbn. }
  2: { by intros q t [? _]. }
  intros [err|]; [by intros q t [? _] |].
  apply (triple_seq (fun q t => True /\ warnNotFound ∈ t)).
  { intros q t [_ [[h Hl] Hf]]. msimpl. repeat (rewrite ?Hl, ?Hf; cbn).
    split; [done |]. apply elem_of_app. right. unfold warnNotFound. elem_now. }
  2: { by intros q t [_ ?]. }
  intros []. apply triple_of_keeps; [| set_solver | done].
  create_chain.
Qed.

Hypothesis newErr_none : forall s, newErr s = None.

(** When no constructor fails, [createResources] returns no error,
    does not panic, and emits no error line. *)
Lemma createResources_succeeds initial :
  triple (fun p t => Forall (fun e => ~ isFatal e) t)
    (createResources newErr initial)
    (fun v p t => v = Some None /\ running p /\
                  Forall (fun e => ~ isFatal e) t).
Proof.
  set (φ := fun e => ~ isFatal e).
  set (S := fun (q : Core) (t : list Event) => is_Some (logger q) /\ Forall φ t).
  set (S' := fun (q : Core) (t : list Event) => running q /\ Forall φ t).
  assert (forall (P : Core -> list Event -> Prop) (m k : M (option string)) Q,
            triple P m (fun v q t => v = Some None /\ P q t) ->
            triple P k Q -> triple P (orReturn m k) Q) as next.
  { intros P m k Q Hm Hk. unfold orReturn.
    apply (triple_bind (fun v q t => v = Some None /\ P q t)); [done | |].
    - intros [err|]; [by intros q t [? _] |]. intros q t [_ ?]. by apply Hk.
    - by intros q t [? _]. }
  assert (forall (P : Core -> list Event -> Prop) (m : M unit) (k : M (option string)) Q,
            triple P m (fun v q t => v = Some tt /\ P q t) ->
            triple P k Q -> triple P (m ;; k) Q) as next'.
  { intros P m k Q Hm Hk.
    apply (triple_bind (fun v q t => v = Some tt /\ P q t)); [done | |].
    - intros []. intros q t [_ ?]. by apply Hk.
    - by intros q t [? _]. }
  unfold createResources, orReturn at 1.
  apply (triple_bind (fun v q t => v = Some None /\ S q t)).
  { intros q t Ht. msimpl. rewrite newErr_none.
    destruct (logger q) eqn:Hl; cbn; (split; [done |]); (split; [by eexists |]).
    - by rewrite app_nil_r.
    - apply Forall_app. split; [done |]. repeat constructor. by intros []. }
  2: { by intros q t [? _]. }
  intros [err|]; [by intros q t [? _] |].
  apply (triple_conseq _ S _ _ (fun v q t => v = Some None /\ S' q t));
    [| by intros q t [_ ?] | by intros v q t [? [??]]].
  apply next'.
  { intros q t [[h Hl] Ht]. msimpl.
    destruct initial; cbn; [| by rewrite app_nil_r; repeat split; eauto].
    repeat (rewrite ?Hl; cbn).
    destruct (confFound q); repeat (rewrite ?Hl; cbn);
      (split; [done |]); (split; [by eexists |]);
      (apply Forall_app; split; [done |]); repeat constructor; by intros []. }
  do 2 (apply next;
    [intros q t [[h Hl] Ht]; msimpl; rewrite ?newErr_none; repeat (mcase; cbn);
     (split; [done |]); (split; [by eexists |]);
     rewrite ?app_nil_r; try done;
     (apply Forall_app; split; [done |]); repeat constructor; by intros [] |]).
  apply (triple_bind (fun v q t => v = Some tt /\ S' q t)).
  { intros q t [[h Hl] Ht]. msimpl.
    destruct (pathManager q) eqn:Hpm; cbn; (split; [done |]);
      (split; [split; by eexists |]).
    - by rewrite app_nil_r.
    - apply Forall_app. split; [done |]. repeat constructor. by intros []. }
  2: { by intros q t [? _]. }
  intros []. apply (triple_conseq _ S' _ _ (fun v q t => v = Some None /\ S' q t));
    [| by intros q t [_ ?] | done].
  do 8 (apply next;
    [intros q t [[[h Hl] [h' Hpm]] Ht]; msimpl; rewrite ?newErr_none;
     repeat (mcase; cbn);
     (split; [done |]); (split; [split; by eexists |]);
     rewrite ?app_nil_r; try done;
     (apply Forall_app; split; [done |]); repeat constructor; by intros [] |]).
  intros q t [? ?]. cbn. by rewrite app_nil_r.
Qed.

End startup.

(** Whatever the constructors do, a [createResources] that returns no
    error leaves a logger and a path manager: the precondition of the
    reload properties holds at every iteration of [run]. *)
Lemma createResources_running newErr initial :
  triple (fun _ _ => True) (createResources newErr initial)
    (fun v p _ => v = Some None -> running p).
Proof.
  set (I := fun p : Core => is_Some (logger p)).
  set (S := fun (p : Core) (t : list Event) => I p /\ True).
  set (S' := fun (p : Core) (t : list Event) => running p /\ True).
  assert (forall J (m : M (option string)), keeps J (fun _ => True) m ->
            triple (fun p _ => J p /\ True) m
              (fun v p _ => v = Some None -> J p /\ True)) as step.
  { intros J m Hm. apply triple_of_keeps; [done | done | by intros]. }
  assert (forall J (m : M unit), keeps J (fun _ => True) m ->
            triple (fun p _ => J p /\ True) m (fun _ p _ => J p /\ True)) as step'.
  { intros J m Hm. apply triple_of_keeps; [done | done | by intros]. }
  unfold createResources.
  apply (triple_conseq _ (fun _ _ => True) _ _
           (fun v p t => v = Some None -> S' p t)); [| done | by intros v p t H ?; apply H].
  apply (triple_orReturn S).
  { intros q t _. subst S I. mrun; try done; intros _; split; by eauto. }
  apply (triple_seq S); [apply (step' I); subst I; keeps_step | intros _ | done].
  apply (triple_orReturn S); [apply (step I); subst I; keeps_step |].
  apply (triple_orReturn S); [apply (step I); subst I; keeps_step |].
  apply (triple_seq S').
  { intros q t [[h Hl] _]. subst S'. unfold running. mrun; by eauto. }
  2: { done. }
  intros _.
  do 8 (apply (triple_orReturn S'); [apply (step running); unfold running; keeps_step |]).
  intros q t HS. cbn. by rewrite app_nil_r.
Qed.

Lemma reloadConf_running newErr newConf calledByAPI p :
  res_val (reloadConf newErr newConf calledByAPI p) = Some None ->
  running (res_core (reloadConf newErr newConf calledByAPI p)).
Proof.
  rewrite reloadConf_unfold. cbn zeta.
  destruct (res_val (closeResources _ _ _)); cbn; [| done].
  by apply (createResources_running newErr false _ [] Logic.I).
Qed.

(** A successful parse has [Version] set exactly when [--version] was
    among the arguments. *)
Lemma kongParse_version args seen c cli :
  kongParse args seen c = inl cli ->
  (Version cli = true <-> "--version" ∈ args \/ Version c = true).
Proof.
  revert seen c. induction args as [|a rest IH]; intros seen c; cbn.
  - intros [= <-]. rewrite elem_of_nil. tauto.
  - case_bool_decide as Ha.
    + intros H. apply IH in H. cbn in H. rewrite H, elem_of_cons. subst a. tauto.
    + destruct (isFlag a); [done |]. destruct seen; [done |].
      intros H. apply IH in H. cbn in H. rewrite H, elem_of_cons.
      split; [tauto |]. intros [[Heq | ?] | ?]; [| tauto | tauto].
      by destruct Ha.
Qed.

(** C9.  The command line has one positional argument [confpath] that
    defaults to [rtsp-simple-server.yml]; with [--version], [New] prints
    the version and exits with status 0 before anything else; when the
    configuration file is missing, [New] goes on with the empty
    configuration, logs the warning once the logger exists, and -- if no
    constructor fails -- returns a running core without any error line. *)
Theorem C9_command_line files emptyConf newErr :
  Confpath cli_default = "rtsp-simple-server.yml" /\
  kongParse [] false cli_default = inl cli_default /\
  (forall a, isFlag a = false ->
     kongParse [a] false cli_default = inl {| Version := false; Confpath := a |}) /\
  (forall a b, isFlag a = false -> isFlag b = false ->
     exists err, kongParse [a; b] false cli_default = inr err) /\
  (forall args cli, kongParse args false cli_default = inl cli ->
     (Version cli = true <-> "--version" ∈ args)) /\
  (forall args cli, kongParse args false cli_default = inl cli ->
     Version cli = true ->
     New files emptyConf newErr args = NewExit 0 [EPrint version]) /\
  (forall args cli, kongParse args false cli_default = inl cli ->
     Version cli = false ->
     files (Confpath cli) = None ->
     exists r, New files emptyConf newErr args = NewCore r /\
       conf (res_core r) = emptyConf /\ confFound (res_core r) = false /\
       (newErr SLogger = None -> warnNotFound ∈ res_trace r) /\
       ((forall s, newErr s = None) ->
          res_val r = Some true /\ running (res_core r) /\
          Forall (fun e => ~ isFatal e) (res_trace r))).
Proof.
  split; [done |]. split; [done |]. split; [| split; [| split; [| split]]].
  - intros a Ha. cbn. case_bool_decide as E; [by subst a |]. by rewrite Ha.
  - intros a b Ha Hb. cbn.
    case_bool_decide as Ea; [by subst a |]. rewrite Ha.
    case_bool_decide as Eb; [by subst b |]. rewrite Hb. by eexists.
  - intros args cli H. rewrite (kongParse_version _ _ _ _ H).
    split; [intros [? | ?]; [done | discriminate] | by left].
  - intros args cli H Hv. unfold New. by rewrite H, Hv.
  - intros args cli H Hv Hfile. unfold New, Load. rewrite H, Hv, Hfile.
    eexists. split; [reflexivity |].
    set (p0 := initCore (Confpath cli) emptyConf false).
    split; [| split; [| split]].
    + refine (proj1 (proj1 ((_ : keeps (fun p => conf p = emptyConf /\ confFound p = false)
                                 (fun _ => True) _) p0 (conj eq_refl eq_refl)))).
      apply keeps_bind; [apply createResources_keeps_conf |].
      intros [e|]; [| keeps_step].
      apply keeps_bind; [keeps_step | intros _].
      apply keeps_bind; [apply closeResources_keeps_conf | intros _]. keeps_step.
    + refine (proj2 (proj1 ((_ : keeps (fun p => conf p = emptyConf /\ confFound p = false)
                                 (fun _ => True) _) p0 (conj eq_refl eq_refl)))).
      apply keeps_bind; [apply createResources_keeps_conf |].
      intros [e|]; [| keeps_step].
      apply keeps_bind; [keeps_step | intros _].
      apply keeps_bind; [apply closeResources_keeps_conf | intros _]. keeps_step.
    + intros Hn. apply bind_trace_l. by apply createResources_warns.
    + intros Hn.
      destruct (createResources_succeeds newErr Hn true p0 [] (Forall_nil_2 _))
        as [Hval [Hrun Htr]].
      rewrite bind_unfold, Hval. cbn. rewrite app_nil_r. done.
Qed.

(** With no file at all and the default configuration as the empty one:
    [--version] exits with status 0, and no argument starts the server
    with a warning. *)
Lemma C9_command_line_witness :
  New (fun _ => None) defaultConf noErr ["--version"] = NewExit 0 [EPrint version] /\
  exists r, New (fun _ => None) defaultConf noErr [] = NewCore r /\
    conf (res_core r) = defaultConf /\
    warnNotFound ∈ res_trace r /\ res_val r = Some true.
Proof.
  destruct (C9_command_line (fun _ => None) defaultConf noErr)
    as (_ & _ & _ & _ & _ & Hversion & Hmissing).
  split.
  - apply (Hversion ["--version"] {| Version := true; Confpath := "rtsp-simple-server.yml" |});
      reflexivity.
  - destruct (Hmissing [] cli_default eq_refl eq_refl eq_refl)
      as (r & Hr & Hconf & _ & Hwarn & Hok).
    exists r. split; [done |]. split; [done |].
    split; [by apply Hwarn |]. by apply Hok.
Defined.

End core_logic.

(** ** The WebRTC server *)
Module webrtc_logic.
Import conf webrtc webrtc_obs.

(** *** Request loop and shutdown *)

Lemma handle_listeners s req :
  udpMuxLn (step_server (handle s req)) = udpMuxLn s /\
  tcpMuxLn (step_server (handle s req)) = tcpMuxLn s.
Proof. destruct req; cbn; try done. by destruct (kickFind id (conns s)). Qed.

Lemma handle_trace s req : Forall isConnClose (step_trace (handle s req)).
Proof.
  destruct req; cbn; try by constructor.
  destruct (kickFind id (conns s)); cbn; by repeat constructor.
Qed.

Lemma handle_continue s req : step_continue (handle s req) = false <-> req = CtxDone.
Proof.
  destruct req; cbn; try done. by destruct (kickFind id (conns s)).
Qed.

Lemma loop_until_done s pre rest :
  CtxDone ∉ pre ->
  exists kicks,
    Forall isConnClose kicks /\
    (loop s (pre ++ CtxDone :: rest)).2 =
      kicks ++ [ECtxCancel; EHTTPShutdown; ELnClose; EWgWait] ++
      (match udpMuxLn s with Some h => [EUDPMuxLnClose h] | None => [] end) ++
      (match tcpMuxLn s with Some h => [ETCPMuxLnClose h] | None => [] end) ++
      [ERequestPoolClose; EDone].
Proof.
  revert s. induction pre as [|req pre IH]; intros s Hnot.
  - exists []. split; [constructor |]. reflexivity.
  - apply not_elem_of_cons in Hnot as [Hreq Hpre].
    cbn [app loop].
    destruct (step_continue (handle s req)) eqn:Hc.
    2: { apply handle_continue in Hc. by subst req. }
    destruct (IH (step_server (handle s req)) Hpre) as [kicks [Hk Heq]].
    destruct (handle_listeners s req) as [Hu Ht]. rewrite Hu, Ht in Heq.
    destruct (loop (step_server (handle s req)) (pre ++ CtxDone :: rest)) as [s' tr].
    cbn in *. subst tr.
    exists (step_trace (handle s req) ++ kicks).
    split; [apply Forall_app; split; [apply handle_trace | done] |].
    by rewrite <- app_assoc.
Qed.

(** C5.  When [run] receives the cancellation of its context (after any
    requests), what follows is, in this order: cancel the context, shut
    the HTTP server down and close its listener, wait for the connection
    actors, and only then close the ICE UDP mux and ICE TCP mux listeners
    that exist; before that the loop emitted nothing but the [close] of
    kicked connections. *)
Theorem C5_shutdown_order s pre rest :
  CtxDone ∉ pre ->
  exists kicks,
    Forall isConnClose kicks /\
    (run s (pre ++ CtxDone :: rest)).2 =
      [ERequestPoolNew; EServe (tlsConfig s)] ++ kicks ++
      [ECtxCancel; EHTTPShutdown; ELnClose; EWgWait] ++
      (match udpMuxLn s with Some h => [EUDPMuxLnClose h] | None => [] end) ++
      (match tcpMuxLn s with Some h => [ETCPMuxLnClose h] | None => [] end) ++
      [ERequestPoolClose; EDone].
Proof.
  intros Hnot. destruct (loop_until_done s pre rest Hnot) as [kicks [Hk Heq]].
  exists kicks. split; [done |]. unfold run.
  destruct (loop s (pre ++ CtxDone :: rest)) as [s' tr]. cbn in *. by subst tr.
Qed.

(** A server with an ICE TCP mux only: one connection is accepted and
    kicked, then the context is cancelled. *)
Lemma C5_shutdown_order_witness :
  exists kicks,
    Forall isConnClose kicks /\
    (run plainServer
       ([ReqConnNew (conn 1 "a"); ReqAPIConnsKick "a"] ++ CtxDone :: [])).2 =
      [ERequestPoolNew; EServe false] ++ kicks ++
      [ECtxCancel; EHTTPShutdown; ELnClose; EWgWait] ++
      [] ++ [ETCPMuxLnClose 1%nat] ++ [ERequestPoolClose; EDone].
Proof.
  apply (C5_shutdown_order plainServer
           [ReqConnNew (conn 1 "a"); ReqAPIConnsKick "a"] []).
  intros Hin.
  repeat (apply elem_of_cons in Hin as [Hin | Hin]; [discriminate |]).
  by apply elem_of_nil in Hin.
Defined.

(** *** Kick *)

Lemma kickFind_Some id l c :
  kickFind id l = Some c -> c ∈ l /\ uuid c = id.
Proof.
  induction l as [|c' l IH]; cbn; [done |].
  case_bool_decide as E.
  - intros [= <-]. split; [apply list_elem_of_here | done].
  - intros H. destruct (IH H). split; [by apply list_elem_of_further | done].
Qed.

Lemma kickFind_None id l :
  kickFind id l = None <-> forall c, c ∈ l -> uuid c <> id.
Proof.
  induction l as [|c' l IH]; cbn.
  - split; [| done]. intros _ c Hc. by apply elem_of_nil in Hc.
  - case_bool_decide as E.
    + split; [done |]. intros H. destruct (H c'); [apply list_elem_of_here | done].
    + rewrite IH. split.
      * intros H c Hc. apply elem_of_cons in Hc as [-> | Hc]; [done | by apply H].
      * intros H c Hc. apply H. by apply list_elem_of_further.
Qed.




(** *** Authentication *)

Section auth.
Variable IPaddr : Type.
Variable ParseIP : string -> IPaddr.
Variable IPString : IPaddr -> string.
Variable ipEqualOrInRange : IPaddr -> list IPOrCIDR -> bool.
Variable externalAuth :
  string -> string -> string -> string -> string -> string -> bool -> string
  -> option string.

Local Abbreviation authenticate :=
  (authenticate IPaddr ParseIP IPString ipEqualOrInRange externalAuth).
Local Abbreviation externalRefusal :=
  (externalRefusal IPaddr ParseIP IPString externalAuth).
Local Abbreviation ipAllowed := (ipAllowed IPaddr ParseIP ipEqualOrInRange).
Local Abbreviation authSpec :=
  (authSpec IPaddr ParseIP IPString ipEqualOrInRange externalAuth).

(** The external check comes first and decides alone when it fails. *)
Lemma authenticate_external s pa ctx err :
  externalRefusal s pa ctx = Some err ->
  authenticate s pa ctx =
    match BasicAuth ctx with
    | None => Some pathErrAuthNotCritical
    | Some _ =>
        Some (pathErrAuthCritical ("external authentication failed: " +:+ err))
    end.
Proof.
  unfold externalRefusal, webrtc.authenticate, neqb.
  case_bool_decide as Hurl; [done |]. cbn.
  destruct (BasicAuth ctx) as [[u p]|]; cbn; by intros ->.
Qed.

(** Once the external check passes, the result is that of the local
    checks. *)
Lemma authenticate_local s pa ctx :
  externalRefusal s pa ctx = None ->
  authenticate s pa ctx =
    if negb (ipAllowed pa ctx) then
      Some (pathErrAuthCritical
              ("IP '" +:+ IPString (ParseIP (ClientIP ctx)) +:+ "' not allowed"))
    else if bool_decide (ReadUser (safeConf pa) = "") then None
    else
      match BasicAuth ctx with
      | None => Some pathErrAuthNotCritical
      | Some (user, pass) =>
          if bool_decide (user = ReadUser (safeConf pa)) &&
             bool_decide (pass = ReadPass (safeConf pa))
          then None
          else Some (pathErrAuthCritical "invalid credentials")
      end.
Proof.
  unfold externalRefusal, ipAllowed, webrtc.authenticate, neqb.
  case_bool_decide as Hurl; cbn.
  - intros _.
    destruct (ReadIPs (safeConf pa)) as [ips|]; cbn;
      [destruct (ipEqualOrInRange _ ips); cbn; [| done] |];
      (case_bool_decide; cbn; [done |]);
      (destruct (BasicAuth ctx) as [[u p]|]; [| done]);
      do 2 case_bool_decide; by cbn.
  - destruct (BasicAuth ctx) as [[u p]|]; cbn; intros ->; cbn;
      (destruct (ReadIPs (safeConf pa)) as [ips|]; cbn;
       [destruct (ipEqualOrInRange _ ips); cbn; [| done] |]);
      (case_bool_decide; cbn; [done |]);
      try done; do 2 case_bool_decide; by cbn.
Qed.

(** C4.  The WebRTC read authenticator evaluates the external
    authentication URL, then the IP allowlist, then user and password:
    a refusal of the external endpoint is not-critical without Basic
    credentials and critical with them; an address outside a configured
    allowlist is critical; with a read user configured, missing
    credentials are not-critical and non-matching ones critical; in
    every other case there is no error. *)
Theorem C4_authenticate s pa ctx :
  verdict (authenticate s pa ctx) = authSpec s pa ctx /\
  (forall err, externalRefusal s pa ctx = Some err ->
     BasicAuth ctx = None ->
     authenticate s pa ctx = Some pathErrAuthNotCritical) /\
  (forall err, externalRefusal s pa ctx = Some err ->
     is_Some (BasicAuth ctx) ->
     authenticate s pa ctx =
       Some (pathErrAuthCritical ("external authentication failed: " +:+ err))) /\
  (externalRefusal s pa ctx = None ->
     ipAllowed pa ctx = false ->
     authenticate s pa ctx =
       Some (pathErrAuthCritical
               ("IP '" +:+ IPString (ParseIP (ClientIP ctx)) +:+ "' not allowed"))) /\
  (externalRefusal s pa ctx = None ->
     ipAllowed pa ctx = true ->
     ReadUser (safeConf pa) <> "" ->
     BasicAuth ctx = None ->
     authenticate s pa ctx = Some pathErrAuthNotCritical) /\
  (forall user pass,
     externalRefusal s pa ctx = None ->
     ipAllowed pa ctx = true ->
     ReadUser (safeConf pa) <> "" ->
     BasicAuth ctx = Some (user, pass) ->
     user <> ReadUser (safeConf pa) \/ pass <> ReadPass (safeConf pa) ->
     authenticate s pa ctx = Some (pathErrAuthCritical "invalid credentials")) /\
  (externalRefusal s pa ctx = None ->
     ipAllowed pa ctx = true ->
     ReadUser (safeConf pa) = "" \/
     BasicAuth ctx = Some (ReadUser (safeConf pa), ReadPass (safeConf pa)) ->
     authenticate s pa ctx = None).
Proof.
  split; [| split; [| split; [| split; [| split; [| split]]]]].
  - unfold webrtc_obs.authSpec.
    destruct (externalRefusal s pa ctx) as [err|] eqn:Hext.
    + rewrite (authenticate_external _ _ _ _ Hext). by destruct (BasicAuth ctx).
    + rewrite (authenticate_local _ _ _ Hext).
      destruct (negb (ipAllowed pa ctx)); [done |].
      case_bool_decide; [done |].
      destruct (BasicAuth ctx) as [[u p]|]; [| done].
      by destruct (_ && _).
  - intros err Hext Hb. by rewrite (authenticate_external _ _ _ _ Hext), Hb.
  - intros err Hext [b Hb]. by rewrite (authenticate_external _ _ _ _ Hext), Hb.
  - intros Hext Hip. by rewrite (authenticate_local _ _ _ Hext), Hip.
  - intros Hext Hip Hu Hb. rewrite (authenticate_local _ _ _ Hext), Hip, Hb. cbn.
    by rewrite bool_decide_eq_false_2.
  - intros user pass Hext Hip Hu Hb Hne.
    rewrite (authenticate_local _ _ _ Hext), Hip, Hb. cbn.
    rewrite (bool_decide_eq_false_2 _ Hu).
    destruct Hne as [Hne | Hne]; rewrite (bool_decide_eq_false_2 _ Hne);
      by rewrite ?andb_false_r.
  - intros Hext Hip Hok. rewrite (authenticate_local _ _ _ Hext), Hip. cbn.
    case_bool_decide; [done |].
    destruct Hok as [? | ->]; [done |]. by rewrite !bool_decide_eq_true_2.
Qed.

End auth.

(** Scenario 6 with wrong credentials, and the same request against a
    server whose external endpoint refuses it. *)
Lemma C4_authenticate_witness :
  authenticate string textIP textIP anyRange refusing plainServer secretPath
    (getSecret (Some ("u", "wrong"))) =
    Some (pathErrAuthCritical "invalid credentials") /\
  authenticate string textIP textIP anyRange refusing plainServer secretPath
    (getSecret None) = Some pathErrAuthNotCritical /\
  authenticate string textIP textIP anyRange refusing plainServer secretPath
    (getSecret (Some ("u", "p"))) = None.
Proof.
  split; [| split].
  - destruct (C4_authenticate string textIP textIP anyRange refusing plainServer
                secretPath (getSecret (Some ("u", "wrong"))))
      as (_ & _ & _ & _ & _ & H & _).
    apply (H "u" "wrong"); try done. by right.
  - destruct (C4_authenticate string textIP textIP anyRange refusing plainServer
                secretPath (getSecret None))
      as (_ & _ & _ & _ & H & _).
    by apply H.
  - destruct (C4_authenticate string textIP textIP anyRange refusing plainServer
                secretPath (getSecret (Some ("u", "p"))))
      as (_ & _ & _ & _ & _ & _ & H).
    apply H; try done. by right.
Defined.

(** *** The request handler *)

Section handler.
Variable IPaddr : Type.
Variable ParseIP : string -> IPaddr.
Variable IPString : IPaddr -> string.
Variable ipEqualOrInRange : IPaddr -> list IPOrCIDR -> bool.
Variable externalAuth :
  string -> string -> string -> string -> string -> string -> bool -> string
  -> option string.
Variable gopathDir : string -> string.
Variable gopathBase : string -> string.
Variable describe : string -> option path.

Local Abbreviation authenticate :=
  (authenticate IPaddr ParseIP IPString ipEqualOrInRange externalAuth).
Local Abbreviation onRequest :=
  (onRequest IPaddr ParseIP IPString ipEqualOrInRange externalAuth
     gopathDir gopathBase describe).
Local Abbreviation route := (route gopathDir gopathBase).

(** What [onRequest] does once it has a path name. *)
Lemma onRequest_routed s ctx dir fname :
  route ctx = Some (dir, fname) ->
  onRequest s ctx =
    [ESetHeader "Access-Control-Allow-Origin" (allowOrigin s);
     ESetHeader "Access-Control-Allow-Credentials" "true"] ++
    match describe dir with
    | None => [EWriteHeader 404]
    | Some pa =>
        match authenticate s pa ctx with
        | Some (pathErrAuthCritical message) =>
            [ELog Info ("authentication error: " +:+ message);
             ESetHeader "WWW-Authenticate" basicRealm;
             EWriteHeader 401]
        | Some pathErrAuthNotCritical =>
            [ESetHeader "WWW-Authenticate" basicRealm;
             EWriteHeader 401]
        | None =>
            if bool_decide (fname = "") then
              [ESetHeader "Content-Type" "text/html"; EWriteHeader 200;
               EWriteIndex]
            else if bool_decide (fname = "ws") then [EWebsocket dir]
            else []
        end
    end.
Proof.
  unfold webrtc_obs.route, webrtc.onRequest.
  destruct (bool_decide (Method ctx = "GET")); [| done].
  destruct (URLPath ctx) as [|c pa]; [done |].
  destruct (_ || _); [done |].
  destruct (if HasSuffix pa "/ws" then _ else _) as [d f].
  destruct (_ && _); [done |].
  by intros [= <- <-].
Qed.

(** C8.  Whenever [onRequest] reaches the authenticator and it returns
    an error, the answer is 401 Unauthorized with the
    [WWW-Authenticate: Basic] challenge; a log line is emitted exactly
    when the error is critical. *)
Theorem C8_auth_failure_response s ctx dir fname pa err :
  route ctx = Some (dir, fname) ->
  describe dir = Some pa ->
  authenticate s pa ctx = Some err ->
  let tr := onRequest s ctx in
  status tr = Some 401 /\
  header "WWW-Authenticate" tr = Some basicRealm /\
  (logs tr <> [] <-> isCritical err = true) /\
  logs tr =
    match err with
    | pathErrAuthCritical message =>
        [(Info, "authentication error: " +:+ message)]
    | pathErrAuthNotCritical => []
    end.
Proof.
  intros Hroute Hdesc Hauth tr. subst tr.
  rewrite (onRequest_routed _ _ _ _ Hroute), Hdesc, Hauth.
  destruct err; cbn; repeat split; done.
Qed.

End handler.

(** Scenario 6 of the specification: no credentials and wrong
    credentials both get the 401 challenge, only the second is logged. *)
Lemma C8_auth_failure_response_witness :
  let handler :=
    onRequest string textIP textIP anyRange refusing dirOfWs baseOfWs onlySecret
      plainServer in
  (status (handler (getSecret None)) = Some 401 /\
   header "WWW-Authenticate" (handler (getSecret None)) = Some basicRealm /\
   logs (handler (getSecret None)) = []) /\
  (status (handler (getSecret (Some ("u", "wrong")))) = Some 401 /\
   header "WWW-Authenticate" (handler (getSecret (Some ("u", "wrong")))) =
     Some basicRealm /\
   logs (handler (getSecret (Some ("u", "wrong")))) =
     [(Info, "authentication error: invalid credentials")]).
Proof.
  cbn zeta. split.
  - destruct (C8_auth_failure_response string textIP textIP anyRange refusing
                dirOfWs baseOfWs onlySecret plainServer (getSecret None)
                "secret" "" secretPath pathErrAuthNotCritical
                eq_refl eq_refl eq_refl) as (H1 & H2 & _ & H3).
    by repeat split.
  - destruct (C8_auth_failure_response string textIP textIP anyRange refusing
                dirOfWs baseOfWs onlySecret plainServer
                (getSecret (Some ("u", "wrong")))
                "secret" "" secretPath (pathErrAuthCritical "invalid credentials")
                eq_refl eq_refl eq_refl) as (H1 & H2 & _ & H3).
    by repeat split.
Defined.

End webrtc_logic.

(** * Further properties of the supervisor *)
Module core_extra.
Import conf decide_close core core_obs core_state core_logic.

(** Forgets the conditions on the two configurations that a case analysis
    has recorded; the goals below do not depend on them. *)
Ltac clear_conds :=
  repeat match goal with
         | H : ?b = true |- _ => lazymatch b with context [neqb] => clear H end
         | H : ?b = false |- _ => lazymatch b with context [neqb] => clear H end
         end.

Ltac step2 :=
  let q := fresh "q" in
  let Hq := fresh "Hq" in
  intros q Hq; mrun; clear_conds;
  try (lazymatch type of Hq with _ /\ _ => destruct Hq end);
  (split; [first [done | congruence
                  | by (intros; cbn;
                        repeat match goal with
                               | H : ?f ?q' = _ |- context [?f ?q'] => rewrite H
                               end; eauto)
                  | naive_solver]
          | repeat constructor; cbn; first [tauto | done | naive_solver]]).

Ltac close_chain2 := repeat (apply keeps_bind; [step2 | intros _]); step2.

Ltac create_chain2 :=
  repeat first
    [ apply keeps_orReturn; [step2 |]
    | apply keeps_bind; [step2 | intros _] ];
  step2.

(** ** What [closeResources] closes *)

(** The content of [closeResources_untouched] below, under the name that later
    proofs use. *)
Lemma closeResources_spares s newConf calledByAPI p :
  mustClose s newConf (conf p) = false ->
  pointer s (res_core (closeResources newConf calledByAPI p)) = pointer s p /\
  Forall (fun e => ~ closesOf s e) (res_trace (closeResources newConf calledByAPI p)).
Proof.
  intros Hflag. destruct newConf as [n|]; [| by destruct s].
  unfold closeResources. rewrite bind_get.
  remember (conf p) as c eqn:Ec. clear Ec.
  remember (pointer s p) as x eqn:Hx. symmetry in Hx.
  revert p Hx.
  refine (_ : keeps (fun q => pointer s q = x) _ _).
  destruct s; cbn [mustClose] in Hflag; rewrite ?Hflag; clear Hflag;
    cbn [pointer]; close_chain2.
Qed.

(** X1.  A subsystem whose close condition is false is left alone by
    [closeResources]: the [Core] keeps the same pointer and no [close] of
    that subsystem is emitted, whatever else is torn down. *)
Theorem closeResources_untouched s newConf calledByAPI p :
  mustClose s newConf (conf p) = false ->
  pointer s (res_core (closeResources newConf calledByAPI p)) = pointer s p /\
  Forall (fun e => ~ closesOf s e) (res_trace (closeResources newConf calledByAPI p)).
Proof. exact (closeResources_spares s newConf calledByAPI p). Qed.

Lemma triple_next {A B} (P' : Core -> list Event -> Prop) P (m : M A)
    (f : A -> M B) (G : Core -> list Event -> Prop) :
  triple P m (fun v q t => is_Some v -> P' q t) ->
  (forall a, triple P' (f a) (fun v q t => is_Some v -> G q t)) ->
  triple P (m ≫= f) (fun v q t => is_Some v -> G q t).
Proof.
  intros Hm Hf. apply (triple_bind (fun v q t => is_Some v -> P' q t)); [done | |].
  - intros a q t Hp. apply Hf. apply Hp. by eexists.
  - intros q t _ [? ?]. done.
Qed.

Section closed_live.
Variable s : Subsystem.
Variable x : option Handle.

Let P0 (q : Core) (t : list Event) : Prop := pointer s q = x /\ True.
Let G (q : Core) (t : list Event) : Prop :=
  pointer s q = None /\ forall h, x = Some h -> EClose s h ∈ t.

Lemma closed_live_keep {A} (m : M A) :
  keeps (fun q => pointer s q = x) (fun _ => True) m ->
  triple P0 m (fun v q t => is_Some v -> P0 q t).
Proof. intros H. apply triple_of_keeps; [done | done | by intros]. Qed.

Lemma closed_live_finish {A} (m : M A) :
  keeps (fun q => pointer s q = None) (fun _ => True) m ->
  triple G m (fun v q t => is_Some v -> G q t).
Proof.
  intros H. apply triple_of_keeps; [done | | by intros].
  intros t t' Ht h Hh. apply elem_of_app. left. by apply Ht.
Qed.

End closed_live.

(** Runs the step at hand and shows that it clears the pointer and closes
    the handle that was there. *)
Ltac establish :=
  let q := fresh "q" in
  let t := fresh "t" in
  let Hq := fresh "Hq" in
  let Hv := fresh "Hv" in
  intros q t [Hq _]; cbn [pointer] in Hq; mrun; clear_conds;
  intros Hv; try (by destruct Hv); clear Hv; cbn;
  try (match goal with H : api ?q' = _ |- context [api ?q'] => rewrite H end; cbn);
  (split; [done |]);
  let h := fresh "h" in
  let Hh := fresh "Hh" in
  intros h Hh; cbn in Hq;
  first [congruence | simplify_eq; apply elem_of_app; right; elem_now].

Ltac walk s x :=
  lazymatch goal with
  | |- triple _ (_ ≫= _) _ =>
      first
        [ apply (triple_next (fun q t => pointer s q = None /\
                                forall h, x = Some h -> EClose s h ∈ t));
          [establish | intros _; apply closed_live_finish; cbn [pointer]; close_chain2]
        | apply (triple_next (fun (q : Core) (t : list Event) => pointer s q = x /\ True));
          [apply closed_live_keep; cbn [pointer]; step2 | intros _; walk s x] ]
  | |- _ => establish
  end.

(** The content of [closeResources_closed] below, under the name that later
    proofs use. *)
Lemma closeResources_clears s newConf calledByAPI p :
  s <> SExternalCmdPool ->
  mustClose s newConf (conf p) = true ->
  is_Some (res_val (closeResources newConf calledByAPI p)) ->
  pointer s (res_core (closeResources newConf calledByAPI p)) = None /\
  forall h, pointer s p = Some h ->
    EClose s h ∈ res_trace (closeResources newConf calledByAPI p).
Proof.
  intros Hs Hflag.
  unfold closeResources. rewrite bind_get.
  remember (conf p) as c eqn:Ec. clear Ec.
  remember (pointer s p) as x eqn:Hx. symmetry in Hx.
  match goal with
  | |- is_Some (res_val (?m p)) -> _ =>
      enough (triple (fun q t => pointer s q = x /\ True) m
                (fun v q t => is_Some v ->
                   pointer s q = None /\ forall h, x = Some h -> EClose s h ∈ t)) as T
        by (apply (T p [] (conj Hx Logic.I)))
  end.
  clear p Hx.
  pose (which := s).
  destruct s; try done; cbn [mustClose] in Hflag; rewrite ?Hflag.
  all: destruct newConf as [n|]; try discriminate; clear Hflag Hs.
  all: let s' := eval unfold which in which in clear which; walk s' x.
Qed.

(** X2.  A subsystem whose close condition is true is gone after a
    [closeResources] that does not panic: its pointer is nil and, if it
    existed, its [close] was called.  (The external command pool is closed
    at shutdown without its pointer being cleared, and is left out.) *)
Theorem closeResources_closed s newConf calledByAPI p :
  s <> SExternalCmdPool ->
  mustClose s newConf (conf p) = true ->
  is_Some (res_val (closeResources newConf calledByAPI p)) ->
  pointer s (res_core (closeResources newConf calledByAPI p)) = None /\
  forall h, pointer s p = Some h ->
    EClose s h ∈ res_trace (closeResources newConf calledByAPI p).
Proof. exact (closeResources_clears s newConf calledByAPI p). Qed.

(** ** Panics *)

Lemma triple_ok {A B} (S' : Core -> Prop) P (m : M A) (f : A -> M B) Q :
  triple P m (fun v q _ => is_Some v /\ S' q) ->
  (forall a, triple (fun q _ => S' q) (f a) Q) ->
  triple P (m ≫= f) Q.
Proof.
  intros Hm Hf. apply (triple_bind (fun v q _ => is_Some v /\ S' q)); [done | |].
  - intros a q t [_ Hs]. by apply Hf.
  - intros q t [[? ?] _]. done.
Qed.

(** Runs one step and shows that it returns and keeps the logger. *)
Ltac ok_step :=
  let q := fresh "q" in
  let t := fresh "t" in
  let Hq := fresh "Hq" in
  intros q t Hq; mrun; clear_conds;
  repeat match goal with
         | H : _ /\ _ |- _ => destruct H
         | H : is_Some _ |- _ => destruct H
         | H : _ \/ _ |- _ => destruct H
         end;
  simplify_eq; cbn; repeat split; first [done | by eauto].

(** The content of [closeResources_returns] below, under the name that later
    proofs use. *)
Lemma closeResources_total newConf calledByAPI p :
  is_Some (logger p) ->
  newConf = None \/ is_Some (pathManager p) ->
  res_val (closeResources newConf calledByAPI p) = Some tt.
Proof.
  intros Hl Hpm.
  enough (is_Some (res_val (closeResources newConf calledByAPI p))) as [[] ?]; [done |].
  unfold closeResources. rewrite bind_get.
  remember (conf p) as c eqn:Ec. clear Ec.
  match goal with
  | |- is_Some (res_val (?m p)) =>
      enough (triple (fun q _ => is_Some (logger q) /\
                                 (newConf = None \/ is_Some (pathManager q))) m
                (fun v _ _ => is_Some v)) as T
        by (apply (T p [] (conj Hl Hpm)))
  end.
  clear p Hl Hpm.
  apply (triple_ok (fun q => is_Some (logger q))).
  { destruct newConf as [n|]; ok_step. }
  intros _.
  do 12 (apply (triple_ok (fun q => is_Some (logger q))); [ok_step | intros _]).
  destruct newConf; ok_step.
Qed.

(** X3.  [closeResources] panics only on a nil logger or, on a reload, a
    nil path manager: with a logger, and with a path manager unless it is
    the shutdown call, it returns. *)
Theorem closeResources_returns newConf calledByAPI p :
  is_Some (logger p) ->
  newConf = None \/ is_Some (pathManager p) ->
  res_val (closeResources newConf calledByAPI p) = Some tt.
Proof. exact (closeResources_total newConf calledByAPI p). Qed.

(** ** Shutdown *)

Lemma mustClose_shutdown s c : mustClose s None c = true.
Proof. by destruct s. Qed.

Lemma closeOrder_NoDup : NoDup closeOrder.
Proof.
  unfold closeOrder.
  repeat (apply NoDup_cons; split;
          [intros Hin;
           repeat (apply elem_of_cons in Hin as [Hin | Hin]; [discriminate |]);
           by apply elem_of_nil in Hin |]).
  apply NoDup_nil_2.
Qed.

Lemma shutdown_closes_pool calledByAPI p h :
  is_Some (logger p) ->
  externalCmdPool p = Some h ->
  EClose SExternalCmdPool h ∈ res_trace (closeResources None calledByAPI p).
Proof.
  intros Hl Hp. unfold closeResources. rewrite bind_get.
  remember (conf p) as c eqn:Ec. clear Ec.
  match goal with
  | |- _ ∈ res_trace (?m p) =>
      enough (triple (fun q _ => externalCmdPool q = Some h /\ is_Some (logger q)) m
                (fun _ _ t => EClose SExternalCmdPool h ∈ t)) as T
        by (apply (T p [] (conj Hp Hl)))
  end.
  clear p Hl Hp.
  do 12 (apply (triple_ok (fun q => externalCmdPool q = Some h /\ is_Some (logger q)));
         [ok_step | intros _]).
  apply (triple_seq (fun _ t => EClose SExternalCmdPool h ∈ t)).
  - intros q t [Hp [l Hl]]. msimpl. rewrite Hp. cbn. rewrite Hl. cbn.
    apply elem_of_app. right. elem_now.
  - intros _ q t Hin. apply elem_of_app. by left.
  - done.
Qed.

(** X4.  The shutdown call [closeResources(nil, _)] of a supervisor that
    has a logger returns, calls [close] on every subsystem that exists,
    each one once, and leaves every pointer nil except that of the
    external command pool, which the code does not clear. *)
Theorem shutdown_closes_everything calledByAPI p :
  is_Some (logger p) ->
  let r := closeResources None calledByAPI p in
  res_val r = Some tt /\
  (forall s, s <> SExternalCmdPool -> pointer s (res_core r) = None) /\
  (forall s h, pointer s p = Some h -> EClose s h ∈ res_trace r) /\
  NoDup (closed (res_trace r)).
Proof.
  intros Hl r.
  assert (res_val r = Some tt) as Hv by (apply closeResources_total; auto).
  split; [done |]. split; [| split].
  - intros s Hs.
    apply (closeResources_clears s None calledByAPI p Hs (mustClose_shutdown _ _)).
    fold r. by rewrite Hv.
  - intros s h Hp. destruct (decide (s = SExternalCmdPool)) as [-> | Hs].
    + by apply shutdown_closes_pool.
    + apply (closeResources_clears s None calledByAPI p Hs (mustClose_shutdown _ _));
        [fold r; by rewrite Hv | done].
  - eapply sublist_NoDup; [| apply closeResources_closes].
    apply closeOrder_NoDup.
Qed.

(** ** What [createResources] constructs *)

Lemma orReturn_ok (S' : Core -> Prop) P (m k : M (option string)) :
  triple P m (fun v q _ => is_Some v /\ (v = Some None -> S' q)) ->
  triple (fun q _ => S' q) k (fun v _ _ => is_Some v) ->
  triple P (orReturn m k) (fun v _ _ => is_Some v).
Proof.
  intros Hm Hk. unfold orReturn.
  apply (triple_bind (fun v q _ => is_Some v /\ (v = Some None -> S' q))); [done | |].
  - intros [err|] q t [_ Hs]; cbn; [by eexists |]. apply (Hk q t). by apply Hs.
  - intros q t [[? ?] _]. done.
Qed.

(** X5.  [createResources] never panics: it returns nil or the error of a
    constructor, whatever the state and whichever constructors fail. *)
Theorem createResources_returns newErr initial p :
  is_Some (res_val (createResources newErr initial p)).
Proof.
  enough (triple (fun _ _ => True) (createResources newErr initial)
            (fun v _ _ => is_Some v)) as T by (apply (T p [] Logic.I)).
  unfold createResources.
  apply (orReturn_ok (fun q => is_Some (logger q))); [ok_step |].
  apply (triple_ok (fun q => is_Some (logger q))); [destruct initial; ok_step | intros _].
  do 2 (apply (orReturn_ok (fun q => is_Some (logger q))); [ok_step |]).
  apply (triple_ok (fun q => is_Some (logger q))); [ok_step | intros _].
  do 8 (apply (orReturn_ok (fun q => is_Some (logger q))); [ok_step |]).
  intros q t _. cbn. by eexists.
Qed.

(** X6.  [createResources] constructs only what is missing: a configured
    subsystem that exists keeps its pointer and is not constructed again. *)
Theorem createResources_keeps_existing newErr initial s h p :
  s ∈ configured ->
  pointer s p = Some h ->
  pointer s (res_core (createResources newErr initial p)) = Some h /\
  Forall (fun e => ~ newsOf s e) (res_trace (createResources newErr initial p)).
Proof.
  intros Hs. revert p.
  refine (_ : keeps (fun q => pointer s q = Some h) _ _).
  unfold createResources.
  destruct s; try (exfalso; revert Hs; clear; unfold configured; intros Hs;
                   repeat (apply elem_of_cons in Hs as [Hs | Hs]; [discriminate |]);
                   by apply elem_of_nil in Hs);
    clear Hs; cbn [pointer]; create_chain2.
Qed.

(** A subsystem that runs although the configuration does not ask for it
    is never the work of [createResources]. *)
Lemma createResources_keeps_wanted newErr initial s :
  s ∈ configured ->
  keeps (fun q => is_Some (pointer s q) -> enabled s (conf q) = true)
    (fun _ => True) (createResources newErr initial).
Proof.
  intros Hs. unfold createResources.
  destruct s; try (exfalso; revert Hs; clear; unfold configured; intros Hs;
                   repeat (apply elem_of_cons in Hs as [Hs | Hs]; [discriminate |]);
                   by apply elem_of_nil in Hs);
    clear Hs; cbn [pointer enabled]; create_chain2.
Qed.

Section first_error.
Variable newErr : Subsystem -> option string.

Let E (err : string) (t : list Event) : Prop :=
  exists s, newErr s = Some err /\ last t = Some (ENewFailed s err).
Let Q (v : option (option string)) (q : Core) (t : list Event) : Prop :=
  forall err, v = Some (Some err) -> E err t.

Lemma first_error_orReturn (m k : M (option string)) :
  triple (fun _ _ => True) m Q -> triple (fun _ _ => True) k Q ->
  triple (fun _ _ => True) (orReturn m k) Q.
Proof.
  intros Hm Hk. unfold orReturn. apply (triple_bind Q); [done | |].
  - intros [err|] q t Hq.
    + intros err' [= <-]. cbn. rewrite app_nil_r. by apply Hq.
    + by apply Hk.
  - intros q t _ err. done.
Qed.

Lemma first_error_seq (m : M unit) (k : M (option string)) :
  triple (fun _ _ => True) k Q -> triple (fun _ _ => True) (m ;; k) Q.
Proof.
  intros Hk. apply (triple_bind (fun _ _ _ => True)); [done | |].
  - intros a q t _. by apply Hk.
  - intros q t _ err. done.
Qed.

(** Runs a constructor step: an error comes with its [ENewFailed] last. *)
Ltac err_step :=
  let q := fresh "q" in
  let t := fresh "t" in
  let err := fresh "err" in
  let H := fresh "H" in
  intros q t _ err; mrun; intros H; simplify_eq;
  eexists; split; [eassumption | by rewrite last_snoc].

(** X7.  When [createResources] returns an error it is the error of the
    constructor that failed, and that failure is the last thing it did:
    nothing is constructed after it. *)
Theorem createResources_first_error initial p err :
  res_val (createResources newErr initial p) = Some (Some err) ->
  exists s, newErr s = Some err /\
    last (res_trace (createResources newErr initial p)) = Some (ENewFailed s err).
Proof.
  enough (triple (fun _ _ => True) (createResources newErr initial) Q) as T
    by (apply (T p [] Logic.I)).
  unfold createResources.
  apply first_error_orReturn; [err_step |].
  apply first_error_seq.
  do 2 (apply first_error_orReturn; [err_step |]).
  apply first_error_seq.
  do 8 (apply first_error_orReturn; [err_step |]).
  intros q t _ err'. done.
Qed.

End first_error.

Ltac estab :=
  let q := fresh "q" in
  let t := fresh "t" in
  let Hv := fresh "Hv" in
  let He := fresh "He" in
  intros q t _; mrun; intros Hv; simplify_eq; (split; [| done]); cbn;
  intros He;
  repeat match goal with
         | H : ?f ?q' = _ |- context [?f ?q'] => rewrite H; cbn
         end;
  first [by eexists | congruence | done].

Ltac cwalk s :=
  lazymatch goal with
  | |- triple _ (orReturn _ _) _ =>
      first
        [ apply (triple_orReturn
                   (fun (q : Core) (t : list Event) =>
                      (enabled s (conf q) = true -> is_Some (pointer s q)) /\ True));
          [cbn [pointer enabled]; estab
          | apply triple_of_keeps; [cbn [pointer enabled]; create_chain2 | done | by intros] ]
        | apply (triple_orReturn (fun _ _ => True)); [by intros ? ? ? | cwalk s] ]
  | |- triple _ (_ ≫= _) _ =>
      first
        [ apply (triple_seq
                   (fun (q : Core) (t : list Event) =>
                      (enabled s (conf q) = true -> is_Some (pointer s q)) /\ True));
          [ cbn [pointer enabled];
            let q := fresh "q" in let t := fresh "t" in
            intros q t _; mrun; (split; [| done]); intros _; by eexists
          | intros _;
            apply triple_of_keeps; [cbn [pointer enabled]; create_chain2 | done | by intros]
          | done ]
        | apply (triple_seq (fun _ _ => True)); [by intros ? ? ? | intros _; cwalk s | done] ]
  end.

(** The content of [createResources_constructs] below, under the name that later
    proofs use. *)
Lemma createResources_builds newErr initial s p :
  s ∈ configured ->
  res_val (createResources newErr initial p) = Some None ->
  enabled s (conf (res_core (createResources newErr initial p))) = true ->
  is_Some (pointer s (res_core (createResources newErr initial p))).
Proof.
  intros Hs.
  enough (triple (fun _ _ => True) (createResources newErr initial)
            (fun v q t => v = Some None ->
               (enabled s (conf q) = true -> is_Some (pointer s q)) /\ True)) as T.
  { intros Hv. by apply (T p [] Logic.I). }
  unfold createResources. pose (which := s).
  destruct s; try (exfalso; revert Hs; clear; unfold configured; intros Hs;
                   repeat (apply elem_of_cons in Hs as [Hs | Hs]; [discriminate |]);
                   by apply elem_of_nil in Hs);
    clear Hs.
  all: let s' := eval unfold which in which in clear which; cwalk s'.
Qed.

(** X8.  A [createResources] that returns no error leaves every subsystem
    that the configuration enables constructed. *)
Theorem createResources_constructs newErr initial s p :
  s ∈ configured ->
  res_val (createResources newErr initial p) = Some None ->
  enabled s (conf (res_core (createResources newErr initial p))) = true ->
  is_Some (pointer s (res_core (createResources newErr initial p))).
Proof. exact (createResources_builds newErr initial s p). Qed.

(** ** The running set follows the configuration *)

Lemma neqb_eq {A} `{EqDecision A} (a b : A) : (a !=? b) = false -> a = b.
Proof. unfold neqb. rewrite negb_false_iff. apply bool_decide_eq_true_1. Qed.

Ltac not_configured Hs :=
  exfalso; revert Hs; clear; unfold configured; intros Hs;
  repeat (apply elem_of_cons in Hs as [Hs | Hs]; [discriminate |]);
  by apply elem_of_nil in Hs.

(** A subsystem that a reload does not close is wanted by the new
    configuration exactly if it was by the old one. *)
Lemma enabled_unchanged s n c :
  s ∈ configured ->
  mustClose s (Some n) c = false ->
  enabled s n = enabled s c.
Proof.
  intros Hs Hflag.
  destruct s; try not_configured Hs; clear Hs; try done;
    unfold mustClose, closeAPI, closeRTSPServer, closeRTSPSServer, closeRTMPServer,
      closeRTMPSServer, closeHLSServer, closeWebRTCServer, closePPROF,
      closeMetrics in Hflag;
    repeat match goal with
           | H : _ || _ = false |- _ => apply orb_false_elim in H as [H ?]
           end;
    repeat match goal with
           | H : (_ !=? _) = false |- _ => apply neqb_eq in H
           | H : closePathManager _ _ = false |- _ => clear H
           end;
    unfold enabled, rtspEnabled, rtspsEnabled, rtmpEnabled, rtmpsEnabled;
    repeat match goal with
           | H : ?f n = ?f c |- _ => first [rewrite H | clear H]
           | H : ?f c = ?f n |- _ => first [rewrite <- H | clear H]
           | H : _ = _ |- _ => clear H
           end;
    reflexivity.
Qed.

Lemma mustClose_same s c : mustClose s (Some c) c = false.
Proof.
  destruct s;
    unfold mustClose, closeAPI, closeRTSPServer, closeRTSPSServer, closeRTMPServer,
      closeRTMPSServer, closeHLSServer, closeWebRTCServer, closePathManager,
      closePPROF, closeMetrics, closeLogger;
    by rewrite ?neqb_refl.
Qed.

Lemma createResources_conf newErr initial p :
  conf (res_core (createResources newErr initial p)) = conf p.
Proof.
  by destruct (createResources_keeps_conf newErr (conf p) (confFound p) initial p)
    as [[? ?] _].
Qed.

Lemma bind_val_not {A B} (m : M A) (k : A -> M B) v q :
  (forall a q', res_val (k a q') <> Some v) ->
  res_val ((m ≫= k) q) <> Some v.
Proof. intros Hk. rewrite bind_unfold. destruct (res_val (m q)); cbn; [apply Hk | done]. Qed.

(** X9.  A successful start leaves exactly the subsystems that the
    configuration asks for: when [New] returns a core, the logger and the
    path manager exist and every other configured subsystem exists if and
    only if the configuration enables it. *)
Theorem New_matchesConf files emptyConf newErr args r :
  New files emptyConf newErr args = NewCore r ->
  res_val r = Some true ->
  matchesConf (res_core r).
Proof.
  unfold New.
  destruct (kongParse args false cli_default) as [cli | ?]; [| done].
  destruct (Version cli); [done |].
  destruct (Load files emptyConf (Confpath cli)) as [[c found] | ?]; [| done].
  intros [= <-]. set (p0 := initCore (Confpath cli) c found).
  rewrite bind_unfold.
  pose proof (createResources_builds newErr true) as Hc.
  pose proof (createResources_keeps_wanted newErr true) as Hk.
  destruct (res_val (createResources newErr true p0)) as [[e|]|] eqn:Hv; cbn.
  - intros H. exfalso. revert H.
    apply bind_val_not. intros _ ?. apply bind_val_not. by intros.
  - intros _ s Hs. cbn. split.
    + intros Hp. destruct (Hk s Hs p0) as [H _]; [by intros [? ?]; destruct s |].
      by apply H.
    + by apply Hc.
  - done.
Qed.

(** The content of [reloadConf_matchesConf] below, under the name that later
    proofs use. *)
Lemma reloadConf_follows newErr newConf calledByAPI p :
  matchesConf p ->
  res_val (reloadConf newErr newConf calledByAPI p) = Some None ->
  conf (res_core (reloadConf newErr newConf calledByAPI p)) = newConf /\
  matchesConf (res_core (reloadConf newErr newConf calledByAPI p)).
Proof.
  intros Hm. rewrite reloadConf_unfold. cbn zeta.
  set (r1 := closeResources (Some newConf) calledByAPI p).
  destruct (res_val r1) as [[]|] eqn:Hv1; cbn; [| done].
  set (p1 := set_conf newConf (res_core r1)).
  intros Hv2.
  assert (conf (res_core (createResources newErr false p1)) = newConf) as Hconf
    by (by rewrite createResources_conf).
  split; [done |]. intros s Hs. rewrite Hconf. split.
  - intros Hp.
    destruct (createResources_keeps_wanted newErr false s Hs p1) as [H _].
    + intros Hp1. change (conf p1) with newConf.
      replace (pointer s p1) with (pointer s (res_core r1)) in Hp1 by (by destruct s).
      destruct (mustClose s (Some newConf) (conf p)) eqn:Hflag.
      * assert (s <> SExternalCmdPool) as Hne by (intros ->; not_configured Hs).
        destruct (closeResources_clears s (Some newConf) calledByAPI p Hne Hflag) as [Hn _];
          [fold r1; by rewrite Hv1 |].
        fold r1 in Hn. rewrite Hn in Hp1. by destruct Hp1.
      * rewrite (enabled_unchanged s newConf (conf p) Hs Hflag).
        apply Hm; [done |].
        destruct (closeResources_spares s (Some newConf) calledByAPI p Hflag) as [He _].
        fold r1 in He. by rewrite <- He.
    + rewrite Hconf in H. by apply H.
  - intros He. apply createResources_builds; [done | done |]. by rewrite Hconf.
Qed.

(** X10.  The invariant survives a reload: after a [reloadConf] that
    returns no error on a supervisor whose subsystems matched its
    configuration, the configuration is the new one and the subsystems
    match it -- what the new configuration disables is gone, what it
    enables exists. *)
Theorem reloadConf_matchesConf newErr newConf calledByAPI p :
  matchesConf p ->
  res_val (reloadConf newErr newConf calledByAPI p) = Some None ->
  conf (res_core (reloadConf newErr newConf calledByAPI p)) = newConf /\
  matchesConf (res_core (reloadConf newErr newConf calledByAPI p)).
Proof. exact (reloadConf_follows newErr newConf calledByAPI p). Qed.

(** ** Reloading the configuration that is already in force *)

Lemma bind_idle {A B} (m : M A) (k : A -> M B) a p :
  m p = mkRes (Some a) p [] -> (m ≫= k) p = k a p.
Proof. intros H. rewrite bind_unfold, H. cbn. by destruct (k a p). Qed.

Lemma bind_idle_r (m : M unit) (k : unit -> M unit) p :
  (forall a q, k a q = mkRes (Some tt) q []) -> (m ≫= k) p = m p.
Proof.
  intros Hk. rewrite bind_unfold.
  destruct (m p) as [[[]|] q t]; cbn; [| done].
  rewrite Hk. cbn. by rewrite app_nil_r.
Qed.

Lemma orReturn_idle (m k : M (option string)) p :
  m p = mkRes (Some None) p [] -> orReturn m k p = k p.
Proof. intros H. unfold orReturn. by rewrite (bind_idle _ _ None). Qed.

Lemma closeIf_false s field clear p :
  closeIf false s field clear p = mkRes (Some tt) p [].
Proof. unfold closeIf. rewrite bind_get. by destruct (field p). Qed.

Lemma ensure_idle newErr cond s field set p :
  (cond (conf p) = true -> is_Some (field p)) ->
  ensure newErr cond s field set p = mkRes (Some None) p [].
Proof.
  intros H. unfold ensure. rewrite bind_get.
  destruct (cond (conf p)); [| done].
  by destruct (H eq_refl) as [h ->].
Qed.

(** With every wanted subsystem in place, [createResources] outside of
    start-up is the identity. *)
Lemma createResources_idle newErr p :
  matchesConf p ->
  createResources newErr false p = mkRes (Some None) p [].
Proof.
  intros Hm.
  assert (forall s, s ∈ configured -> enabled s (conf p) = true -> is_Some (pointer s p))
    as Hp by (intros s Hs; by apply Hm).
  clear Hm. unfold createResources.
  rewrite orReturn_idle; cycle 1.
  { rewrite bind_get. destruct (Hp SLogger ltac:(elem_now) eq_refl) as [h Hh].
    cbn in Hh. by rewrite Hh. }
  rewrite (bind_idle _ _ tt) by done.
  rewrite orReturn_idle by (apply ensure_idle, (Hp SMetrics); elem_now).
  rewrite orReturn_idle by (apply ensure_idle, (Hp SPPROF); elem_now).
  rewrite (bind_idle _ _ tt); cycle 1.
  { rewrite bind_get. destruct (Hp SPathManager ltac:(elem_now) eq_refl) as [h Hh].
    cbn in Hh. by rewrite Hh. }
  rewrite orReturn_idle by (apply ensure_idle, (Hp SRTSPServer); elem_now).
  rewrite orReturn_idle by (apply ensure_idle, (Hp SRTSPSServer); elem_now).
  rewrite orReturn_idle by (apply ensure_idle, (Hp SRTMPServer); elem_now).
  rewrite orReturn_idle by (apply ensure_idle, (Hp SRTMPSServer); elem_now).
  rewrite orReturn_idle by (apply ensure_idle, (Hp SHLSServer); elem_now).
  rewrite orReturn_idle by (apply ensure_idle, (Hp SWebRTCServer); elem_now).
  rewrite orReturn_idle; cycle 1.
  { rewrite bind_get. pose proof (Hp SAPI ltac:(elem_now)) as H. cbn in H.
    destruct (API (conf p)); [| done].
    destruct (H eq_refl) as [h Hh]. by destruct (api p). }
  rewrite orReturn_idle by (by rewrite bind_get).
  done.
Qed.

Lemma closeResources_same calledByAPI p :
  closeResources (Some (conf p)) calledByAPI p =
  mkRes (Some tt) (notified calledByAPI p) (notice calledByAPI p).
Proof.
  unfold closeResources. rewrite bind_get. cbn zeta.
  pose proof (fun s => mustClose_same s (conf p)) as H.
  pose proof (H SLogger) as H1. pose proof (H SMetrics) as H2.
  pose proof (H SPPROF) as H3. pose proof (H SPathManager) as H4.
  pose proof (H SRTSPServer) as H5. pose proof (H SRTSPSServer) as H6.
  pose proof (H SRTMPServer) as H7. pose proof (H SRTMPSServer) as H8.
  pose proof (H SHLSServer) as H9. pose proof (H SWebRTCServer) as H10.
  pose proof (H SAPI) as H11. clear H. cbn [mustClose] in *.
  rewrite H1, H2, H3, H4, H5, H6, H7, H8, H9, H10, H11, neqb_refl.
  clear H1 H2 H3 H4 H5 H6 H7 H8 H9 H10 H11.
  rewrite (bind_idle _ _ tt) by done.
  rewrite (bind_idle _ _ tt) by (rewrite bind_get; by destruct (confWatcher p)).
  rewrite bind_idle_r; cycle 1.
  { intros _ q. repeat (rewrite (bind_idle _ _ tt) by apply closeIf_false). done. }
  rewrite bind_get. unfold notified, notice.
  destruct (api p) as [a|]; [destruct calledByAPI |]; done.
Qed.

Lemma pointer_notified s calledByAPI p :
  pointer s (notified calledByAPI p) = pointer s p.
Proof.
  unfold notified. destruct (api p) as [a|] eqn:Ha; [| done].
  destruct calledByAPI; [done |]. destruct s; cbn; try done. by rewrite Ha.
Qed.

Lemma conf_notified calledByAPI p : conf (notified calledByAPI p) = conf p.
Proof. unfold notified. destruct (api p); [| done]. by destruct calledByAPI. Qed.

(** X11.  Reloading the configuration that is already in force changes
    nothing: on a supervisor whose subsystems match its configuration,
    [reloadConf] with that same configuration returns no error, closes
    and constructs nothing, and keeps every subsystem; its only event is
    the notification of the API, and none when the API itself asked for
    the reload. *)
Theorem reloadConf_same_conf newErr calledByAPI p :
  matchesConf p ->
  res_val (reloadConf newErr (conf p) calledByAPI p) = Some None /\
  res_trace (reloadConf newErr (conf p) calledByAPI p) = notice calledByAPI p /\
  conf (res_core (reloadConf newErr (conf p) calledByAPI p)) = conf p /\
  forall s, pointer s (res_core (reloadConf newErr (conf p) calledByAPI p)) = pointer s p.
Proof.
  intros Hm. rewrite reloadConf_unfold, closeResources_same. cbn.
  rewrite createResources_idle.
  - cbn. rewrite app_nil_r. split; [done |]. split; [done |]. split; [done |].
    intros s. rewrite <- (pointer_notified s calledByAPI p). by destruct s.
  - intros s Hs.
    replace (pointer s (set_conf (conf p) (notified calledByAPI p)))
      with (pointer s p)
      by (rewrite <- (pointer_notified s calledByAPI p); by destruct s).
    by apply Hm.
Qed.

(** ** The supervisor loop *)

Lemma runIter_stops newErr msg p :
  stops msg = true -> res_val (runIter newErr msg p) <> Some true.
Proof.
  destruct msg as [[[] | ] | | | ]; try done; intros _; cbn [runIter].
  - apply bind_val_not. intros _ ?. apply bind_val_not. by intros.
  - apply bind_val_not. by intros.
Qed.

Lemma run_break newErr msg rest rest' p :
  res_val (runIter newErr msg p) <> Some true ->
  run ((newErr, msg) :: rest) p = run ((newErr, msg) :: rest') p.
Proof.
  intros H. cbn [run]. rewrite !bind_unfold.
  by destruct (res_val (runIter newErr msg p)) as [[]|].
Qed.

(** X12.  [run] leaves its loop at an interrupt, at the end of its
    context and at a configuration file that fails to load, whatever the
    state: no message that arrives after one of these is handled. *)
Theorem run_stops pre newErr msg rest p :
  stops msg = true ->
  run (pre ++ (newErr, msg) :: rest) p = run (pre ++ [(newErr, msg)]) p.
Proof.
  intros Hs. revert p. induction pre as [| [e m] pre IH]; intros p.
  - apply run_break. by apply runIter_stops.
  - cbn [app run]. rewrite !bind_unfold.
    destruct (res_val (runIter e m p)) as [[]|]; [| done | done].
    by rewrite IH.
Qed.

Lemma keeps_Log I l msg : keeps I (fun _ => True) (Log l msg).
Proof. intros q Hq. unfold Log. rewrite bind_get. destruct (logger q); cbn; by repeat constructor. Qed.

Lemma closeResources_ctxDone b newConf calledByAPI :
  keeps (fun q => ctxDone q = b) (fun _ => True) (closeResources newConf calledByAPI).
Proof.
  unfold closeResources. apply keeps_get_bind. intros p0.
  generalize (conf p0). intros c. cbn zeta.
  generalize (closeLogger newConf c) (closeMetrics newConf c) (closePPROF newConf c)
    (closePathManager newConf c) (closeRTSPServer newConf c) (closeRTSPSServer newConf c)
    (closeRTMPServer newConf c) (closeRTMPSServer newConf c) (closeHLSServer newConf c)
    (closeWebRTCServer newConf c) (closeAPI newConf c).
  intros. destruct newConf as [n|].
  - generalize (Paths n !=? Paths c). intros. close_chain2.
  - close_chain2.
Qed.

Lemma createResources_ctxDone b newErr initial :
  keeps (fun q => ctxDone q = b) (fun _ => True) (createResources newErr initial).
Proof. unfold createResources. create_chain2. Qed.

Lemma reloadConf_ctxDone b newErr newConf calledByAPI :
  keeps (fun q => ctxDone q = b) (fun _ => True) (reloadConf newErr newConf calledByAPI).
Proof.
  unfold reloadConf. apply keeps_bind; [apply closeResources_ctxDone | intros _].
  apply keeps_bind; [by intros q Hq | intros _]. apply createResources_ctxDone.
Qed.

Lemma keeps_ret {A} I φ (a : A) : keeps I φ (mret a).
Proof. intros q Hq. split; [done | constructor]. Qed.

Lemma runIter_ctxDone b newErr msg :
  keeps (fun q => ctxDone q = b) (fun _ => True) (runIter newErr msg).
Proof.
  destruct msg as [[[n f] | err] | n | | ]; cbn [runIter].
  - apply keeps_bind; [apply keeps_Log | intros _].
    apply keeps_bind; [apply reloadConf_ctxDone | intros [e|]].
    + apply keeps_bind; [apply keeps_Log | intros _; apply keeps_ret].
    + apply keeps_ret.
  - apply keeps_bind; [apply keeps_Log | intros _].
    apply keeps_bind; [apply keeps_Log | intros _; apply keeps_ret].
  - apply keeps_bind; [apply keeps_Log | intros _].
    apply keeps_bind; [apply reloadConf_ctxDone | intros [e|]].
    + apply keeps_bind; [apply keeps_Log | intros _; apply keeps_ret].
    + apply keeps_ret.
  - apply keeps_bind; [apply keeps_Log | intros _; apply keeps_ret].
  - apply keeps_ret.
Qed.

Lemma Log_core l msg p : res_core (Log l msg p) = p.
Proof. unfold Log. rewrite bind_get. by destruct (logger p). Qed.

(** The outcome of a reload followed by the error handling of [run]. *)
Lemma reload_continues newErr newConf calledByAPI p :
  matchesConf p ->
  res_val ((e ← reloadConf newErr newConf calledByAPI;
            match e with
            | Some err => Log Error err ;; mret false
            | None => mret true
            end) p) = Some true ->
  matchesConf (res_core ((e ← reloadConf newErr newConf calledByAPI;
            match e with
            | Some err => Log Error err ;; mret false
            | None => mret true
            end) p)).
Proof.
  intros Hm. rewrite bind_unfold.
  pose proof (reloadConf_follows newErr newConf calledByAPI p Hm) as H.
  destruct (res_val (reloadConf newErr newConf calledByAPI p)) as [[err|]|]; cbn.
  - intros Hv. exfalso. revert Hv. apply bind_val_not. by intros.
  - intros _. by apply H.
  - done.
Qed.

(** An iteration of [run] after which the loop goes on leaves the
    subsystems matching the configuration in force. *)
Lemma runIter_follows newErr msg p :
  matchesConf p ->
  res_val (runIter newErr msg p) = Some true ->
  matchesConf (res_core (runIter newErr msg p)).
Proof.
  intros Hm Hv.
  destruct msg as [[[n f] | err] | n | | ];
    try (exfalso; revert Hv; by apply runIter_stops).
  - revert Hv. cbn [runIter]. rewrite bind_unfold.
    pose proof (Log_core Info "reloading configuration (file changed)" p) as Hc.
    destruct (res_val (Log Info _ p)); [| done]. rewrite Hc.
    intros Hv.
    apply (reload_continues newErr n false p Hm). revert Hv. cbn.
    by destruct (res_val _).
  - revert Hv. cbn [runIter]. rewrite bind_unfold.
    pose proof (Log_core Info "reloading configuration (API request)" p) as Hc.
    destruct (res_val (Log Info _ p)); [| done]. rewrite Hc.
    intros Hv.
    apply (reload_continues newErr n true p Hm). revert Hv. cbn.
    by destruct (res_val _).
Qed.

(** The way out of [run]: cancel the context, close everything. *)
Lemma leave_outcome p :
  let r := (emit ECtxCancel ;; modify (set_ctxDone true) ;;
            closeResources None false ;; emit EDone) p in
  ctxDone (res_core r) = true /\
  (res_val r = Some tt ->
   (forall s, s <> SExternalCmdPool -> pointer s (res_core r) = None) /\
   last (res_trace r) = Some EDone).
Proof.
  cbn zeta. rewrite (bind_unfold (emit ECtxCancel)).
  cbn [emit res_val res_core res_trace].
  rewrite (bind_unfold (modify (set_ctxDone true))).
  cbn [modify res_val res_core res_trace].
  rewrite (bind_unfold (closeResources None false)).
  set (q := set_ctxDone true p).
  destruct (closeResources_ctxDone true None false q eq_refl) as [Hd _].
  pose proof (fun s Hs => closeResources_clears s None false q Hs (mustClose_shutdown _ _))
    as Hc.
  destruct (res_val (closeResources None false q)) as [[]|];
    cbn [emit res_val res_core res_trace]; [| done].
  split; [done |]. intros _. split.
  - intros s Hs. by apply Hc.
  - rewrite !app_assoc. apply last_snoc.
Qed.

(** X13.  When [run] has returned, every subsystem is closed and the last
    thing that happened is the closing of [done]: if the loop was left
    (the context is cancelled) and nothing panicked, every pointer of the
    supervisor except the external command pool is nil. *)
Theorem run_shutdown msgs p :
  ctxDone p = false ->
  res_val (run msgs p) = Some tt ->
  ctxDone (res_core (run msgs p)) = true ->
  (forall s, s <> SExternalCmdPool -> pointer s (res_core (run msgs p)) = None) /\
  last (res_trace (run msgs p)) = Some EDone.
Proof.
  revert p. induction msgs as [| [e m] rest IH]; intros p Hp.
  - cbn. congruence.
  - cbn [run]. rewrite bind_unfold.
    destruct (runIter_ctxDone false e m p Hp) as [Hq _].
    destruct (res_val (runIter e m p)) as [[]|]; [| | done].
    + cbn [res_val res_core res_trace]. intros Hv Hd.
      destruct (IH _ Hq Hv Hd) as [H1 H2]. split; [done |].
      rewrite last_app, H2. done.
    + cbn [res_val res_core res_trace]. intros Hv _.
      destruct (leave_outcome (res_core (runIter e m p))) as [_ H].
      destruct (H Hv) as [H1 H2]. split; [done |].
      rewrite last_app. cbn zeta in H2. by rewrite H2.
Qed.

(** X14.  While [run] is waiting for its next message the subsystems match
    the configuration: after any sequence of messages that did not end
    the loop, what runs is what the configuration in force asks for. *)
Theorem run_waiting msgs p :
  ctxDone p = false ->
  matchesConf p ->
  res_val (run msgs p) = Some tt ->
  ctxDone (res_core (run msgs p)) = false ->
  matchesConf (res_core (run msgs p)).
Proof.
  revert p. induction msgs as [| [e m] rest IH]; intros p Hp Hm.
  - done.
  - cbn [run]. rewrite bind_unfold.
    destruct (runIter_ctxDone false e m p Hp) as [Hq _].
    pose proof (runIter_follows e m p Hm) as Hm'.
    destruct (res_val (runIter e m p)) as [[]|]; [| | done].
    + cbn [res_val res_core res_trace]. intros Hv Hd. by apply IH; [| apply Hm' | |].
    + cbn [res_val res_core res_trace]. intros _ Hd.
      destruct (leave_outcome (res_core (runIter e m p))) as [H _].
      cbn zeta in H. congruence.
Qed.

(** X15.  A start that fails cleans up: when [New] reports failure after
    a constructor failed, every subsystem it had constructed is closed
    again and no pointer except the external command pool is left. *)
Theorem New_failure_cleans_up files emptyConf newErr args r :
  New files emptyConf newErr args = NewCore r ->
  res_val r = Some false ->
  forall s, s <> SExternalCmdPool -> pointer s (res_core r) = None.
Proof.
  unfold New.
  destruct (kongParse args false cli_default) as [cli | ?]; [| done].
  destruct (Version cli); [done |].
  destruct (Load files emptyConf (Confpath cli)) as [[c found] | ?]; [| done].
  intros [= <-]. set (p0 := initCore (Confpath cli) c found).
  rewrite bind_unfold.
  destruct (res_val (createResources newErr true p0)) as [[e|]|]; [| done | done].
  cbn [res_val res_core res_trace]. rewrite bind_unfold.
  match goal with |- context [res_val (?m ?p)] => set (r1 := m p) end.
  destruct (res_val r1); [| done].
  cbn [res_val res_core res_trace]. rewrite bind_unfold.
  pose proof (fun s Hs => closeResources_clears s None false (res_core r1) Hs
                            (mustClose_shutdown _ _)) as Hc.
  destruct (res_val (closeResources None false (res_core r1))) as [[]|]; [| done].
  cbn. intros _ s Hs. by apply Hc.
Qed.

(** ** Restart decisions and construction order *)

(** X16.  The close conditions follow the constructor arguments: whenever
    a subsystem is closed, every subsystem that was constructed with a
    pointer to it is closed as well, so that none is left holding a
    closed one -- with the one exception of the API, which holds the
    RTMPS server. *)
Theorem close_cascade newConf c s d :
  d ∈ given s ->
  (s, d) <> (SAPI, SRTMPSServer) ->
  mustClose d newConf c = true ->
  mustClose s newConf c = true.
Proof.
  intros Hd Hne. destruct newConf as [n|]; [| by destruct s].
  destruct s; cbn [given] in Hd; try (by apply elem_of_nil in Hd);
    repeat (apply elem_of_cons in Hd as [-> | Hd];
            [try done; cbn [mustClose]; intros H;
             first [ discriminate H
                   | unfold closePathManager; by rewrite H, ?orb_true_r
                   | unfold closeRTSPServer; by rewrite H, ?orb_true_r
                   | unfold closeRTSPSServer; by rewrite H, ?orb_true_r
                   | unfold closeRTMPServer; by rewrite H, ?orb_true_r
                   | unfold closeRTMPSServer; by rewrite H, ?orb_true_r
                   | unfold closeHLSServer; by rewrite H, ?orb_true_r
                   | unfold closeWebRTCServer; by rewrite H, ?orb_true_r
                   | unfold closeAPI; by rewrite H, ?orb_true_r ] |]);
    by apply elem_of_nil in Hd.
Qed.

(** ** Scenarios *)

Lemma matchesConfb_ok p : matchesConfb p = true -> matchesConf p.
Proof.
  unfold matchesConfb, matchesConf. rewrite forallb_forall. intros H s Hs.
  apply list_elem_of_In in Hs. specialize (H s Hs).
  apply Bool.eqb_prop in H. rewrite <- H. split.
  - intros Hp. by apply bool_decide_eq_true_2.
  - intros Hb. by apply bool_decide_eq_true_1 in Hb.
Qed.

(** Enabling the API leaves the RTSP server alone. *)
Lemma closeResources_untouched_witness :
  pointer SRTSPServer
    (res_core (closeResources (Some (with_API true defaultConf)) false
                 (started defaultConf)))
    = pointer SRTSPServer (started defaultConf) /\
  Forall (fun e => ~ closesOf SRTSPServer e)
    (res_trace (closeResources (Some (with_API true defaultConf)) false
                  (started defaultConf))).
Proof.
  apply (closeResources_untouched SRTSPServer (Some (with_API true defaultConf))
           false (started defaultConf)).
  by vm_compute.
Defined.

(** A new read buffer count closes the path manager of the default
    configuration, which has handle 2. *)
Lemma closeResources_closed_witness :
  pointer SPathManager
    (res_core (closeResources (Some (with_ReadBufferCount 1024 defaultConf)) false
                 (started defaultConf))) = None /\
  forall h, pointer SPathManager (started defaultConf) = Some h ->
    EClose SPathManager h ∈
      res_trace (closeResources (Some (with_ReadBufferCount 1024 defaultConf)) false
                   (started defaultConf)).
Proof.
  apply (closeResources_closed SPathManager
           (Some (with_ReadBufferCount 1024 defaultConf)) false (started defaultConf)).
  - discriminate.
  - by vm_compute.
  - vm_compute. by eexists.
Defined.

Lemma closeResources_returns_witness :
  res_val (closeResources (Some (with_API true defaultConf)) true (started defaultConf))
    = Some tt.
Proof.
  apply (closeResources_returns (Some (with_API true defaultConf)) true
           (started defaultConf)).
  - vm_compute. by eexists.
  - right. vm_compute. by eexists.
Defined.

Lemma shutdown_closes_everything_witness :
  let r := closeResources None false (started defaultConf) in
  res_val r = Some tt /\
  (forall s, s <> SExternalCmdPool -> pointer s (res_core r) = None) /\
  (forall s h, pointer s (started defaultConf) = Some h -> EClose s h ∈ res_trace r) /\
  NoDup (closed (res_trace r)).
Proof.
  apply (shutdown_closes_everything false (started defaultConf)).
  vm_compute. by eexists.
Defined.

(** The path manager of a started supervisor survives another
    [createResources]. *)
Lemma createResources_keeps_existing_witness :
  pointer SPathManager (res_core (createResources noErr false (started defaultConf)))
    = Some 2%nat /\
  Forall (fun e => ~ newsOf SPathManager e)
    (res_trace (createResources noErr false (started defaultConf))).
Proof.
  apply (createResources_keeps_existing noErr false SPathManager 2%nat
           (started defaultConf)).
  - unfold configured. elem_now.
  - by vm_compute.
Defined.

(** With the RTSP port taken, start-up fails at the RTSP server. *)
Lemma createResources_first_error_witness :
  exists s,
    rtspBusy s = Some "listen tcp :8554: bind: address already in use" /\
    last (res_trace (createResources rtspBusy true
                       (initCore "rtsp-simple-server.yml" defaultConf true)))
      = Some (ENewFailed s "listen tcp :8554: bind: address already in use").
Proof.
  apply (createResources_first_error rtspBusy true
           (initCore "rtsp-simple-server.yml" defaultConf true)
           "listen tcp :8554: bind: address already in use").
  by vm_compute.
Defined.

Lemma createResources_constructs_witness :
  is_Some (pointer SRTSPServer
             (res_core (createResources noErr true
                          (initCore "rtsp-simple-server.yml" defaultConf true)))).
Proof.
  apply (createResources_constructs noErr true SRTSPServer
           (initCore "rtsp-simple-server.yml" defaultConf true)).
  - unfold configured. elem_now.
  - by vm_compute.
  - by vm_compute.
Defined.

(** A start without arguments and without a configuration file. *)
Lemma New_matchesConf_witness :
  exists r,
    New (fun _ => None) defaultConf noErr [] = NewCore r /\
    matchesConf (res_core r).
Proof.
  eexists. split; [reflexivity |].
  apply (New_matchesConf (fun _ => None) defaultConf noErr [] _ eq_refl).
  by vm_compute.
Defined.

Lemma reloadConf_matchesConf_witness :
  conf (res_core (reloadConf noErr (with_API true defaultConf) false
                    (started defaultConf)))
    = with_API true defaultConf /\
  matchesConf (res_core (reloadConf noErr (with_API true defaultConf) false
                           (started defaultConf))).
Proof.
  apply (reloadConf_matchesConf noErr (with_API true defaultConf) false
           (started defaultConf)).
  - apply matchesConfb_ok. by vm_compute.
  - by vm_compute.
Defined.

Lemma reloadConf_same_conf_witness :
  res_val (reloadConf noErr (conf (started defaultConf)) true (started defaultConf))
    = Some None /\
  res_trace (reloadConf noErr (conf (started defaultConf)) true (started defaultConf))
    = notice true (started defaultConf) /\
  conf (res_core (reloadConf noErr (conf (started defaultConf)) true
                    (started defaultConf)))
    = conf (started defaultConf) /\
  forall s,
    pointer s (res_core (reloadConf noErr (conf (started defaultConf)) true
                           (started defaultConf)))
      = pointer s (started defaultConf).
Proof.
  apply (reloadConf_same_conf noErr true (started defaultConf)).
  apply matchesConfb_ok. by vm_compute.
Defined.

(** A configuration change that arrives after the interrupt. *)
Lemma run_stops_witness :
  run ([] ++ (noErr, MInterrupt) :: [(noErr, MAPIConfigSet (with_API true defaultConf))])
    (started defaultConf)
  = run ([] ++ [(noErr, MInterrupt)]) (started defaultConf).
Proof.
  apply (run_stops [] noErr MInterrupt
           [(noErr, MAPIConfigSet (with_API true defaultConf))] (started defaultConf)).
  reflexivity.
Defined.

(** The API is enabled through the API, then the process is interrupted. *)
Lemma run_shutdown_witness :
  let msgs := [(noErr, MAPIConfigSet (with_API true defaultConf)); (noErr, MInterrupt)] in
  (forall s, s <> SExternalCmdPool ->
     pointer s (res_core (run msgs (started defaultConf))) = None) /\
  last (res_trace (run msgs (started defaultConf))) = Some EDone.
Proof.
  apply (run_shutdown
           [(noErr, MAPIConfigSet (with_API true defaultConf)); (noErr, MInterrupt)]
           (started defaultConf)); by vm_compute.
Defined.

Lemma run_waiting_witness :
  matchesConf
    (res_core (run [(noErr, MAPIConfigSet (with_API true defaultConf))]
                 (started defaultConf))).
Proof.
  apply (run_waiting [(noErr, MAPIConfigSet (with_API true defaultConf))]
           (started defaultConf)).
  - by vm_compute.
  - apply matchesConfb_ok. by vm_compute.
  - by vm_compute.
  - by vm_compute.
Defined.

(** A start with the RTSP port taken. *)
Lemma New_failure_cleans_up_witness :
  exists r,
    New (fun _ => None) defaultConf rtspBusy [] = NewCore r /\
    forall s, s <> SExternalCmdPool -> pointer s (res_core r) = None.
Proof.
  eexists. split; [reflexivity |].
  apply (New_failure_cleans_up (fun _ => None) defaultConf rtspBusy [] _ eq_refl).
  by vm_compute.
Defined.

(** The HLS server is constructed with the path manager, which a new
    read buffer count closes. *)
Lemma close_cascade_witness :
  mustClose SHLSServer (Some (with_ReadBufferCount 1024 defaultConf)) defaultConf = true.
Proof.
  apply (close_cascade (Some (with_ReadBufferCount 1024 defaultConf)) defaultConf
           SHLSServer SPathManager).
  - cbn [given]. elem_now.
  - discriminate.
  - by vm_compute.
Defined.

End core_extra.

(** * Further properties of the WebRTC server *)
Module webrtc_extra.
Import conf webrtc webrtc_obs webrtc_new webrtc_logic.

(** ** The connection set *)

Lemma listItems_acc_lookup id l (acc : gmap string webRTCServerAPIConnsListItem) :
  is_Some (foldl (fun items c => <[uuid c := listItem c]> items) acc l !! id) <->
  is_Some (acc !! id) \/ exists c, c ∈ l /\ uuid c = id.
Proof.
  revert acc. induction l as [|c l IH]; intros acc; cbn.
  - split; [by left |]. intros [H | [c [Hc _]]]; [done | by apply elem_of_nil in Hc].
  - rewrite IH. split.
    + intros [H | [c' [Hc' Hid]]].
      * destruct (decide (uuid c = id)) as [E | E].
        -- right. exists c. split; [apply list_elem_of_here | done].
        -- left. by rewrite lookup_insert_ne in H.
      * right. exists c'. split; [by apply list_elem_of_further | done].
    + intros [H | [c' [Hc' Hid]]].
      * left. destruct (decide (uuid c = id)) as [E | E].
        -- subst id. rewrite lookup_insert_eq. by eexists.
        -- by rewrite lookup_insert_ne.
      * apply elem_of_cons in Hc' as [-> | Hc'].
        -- left. subst id. rewrite lookup_insert_eq. by eexists.
        -- right. by exists c'.
Qed.

Lemma listItems_lookup id l :
  is_Some (listItems l !! id) <-> exists c, c ∈ l /\ uuid c = id.
Proof.
  unfold listItems. rewrite listItems_acc_lookup. split; [| by right].
  intros [H | H]; [| done]. rewrite lookup_empty in H. by destruct H.
Qed.

(** X17.  The list and the kick of the API agree: a UUID is a key of the
    items that [apiConnsList] returns exactly if [apiConnsKick] of that
    UUID, served on the same set, finds a connection. *)
Theorem list_kick_agree s id :
  exists items,
    list_data (apiConnsList s CaseSent).2 = Some items /\
    list_err (apiConnsList s CaseSent).2 = None /\
    (is_Some (items !! id) <-> kick_err (apiConnsKick s id CaseSent).2 = None).
Proof.
  exists (listItems (conns s)). split; [done |]. split; [done |].
  rewrite listItems_lookup. unfold apiConnsKick, handle.
  destruct (kickFind id (conns s)) as [c|] eqn:Hf; cbn.
  - apply kickFind_Some in Hf as [Hin Hid]. split; [done |]. intros _. by exists c.
  - split; [| done]. intros [c [Hin Hid]].
    by destruct (proj1 (kickFind_None id (conns s)) Hf c Hin).
Qed.

Lemma listItems_acc_last l (acc : gmap string webRTCServerAPIConnsListItem) c :
  NoDup (uuid <$> l) -> c ∈ l ->
  foldl (fun items c => <[uuid c := listItem c]> items) acc l !! uuid c
    = Some (listItem c).
Proof.
  revert acc. induction l as [|c' l IH]; intros acc Hnd Hc; cbn.
  - by apply elem_of_nil in Hc.
  - cbn in Hnd. apply NoDup_cons in Hnd as [Hnot Hnd].
    apply elem_of_cons in Hc as [-> | Hc]; [| by apply IH].
    assert (forall acc' : gmap string webRTCServerAPIConnsListItem,
              acc' !! uuid c' = Some (listItem c') ->
              foldl (fun items c => <[uuid c := listItem c]> items) acc' l !! uuid c'
                = Some (listItem c')) as Hkeep.
    { clear IH Hnd. induction l as [|d l IHl]; intros acc' Ha; cbn; [done |].
      apply not_elem_of_cons in Hnot as [Hd Hl]. apply IHl; [done |].
      by rewrite lookup_insert_ne. }
    apply Hkeep. by rewrite lookup_insert_eq.
Qed.

(** X18.  When the UUIDs of the connections are pairwise distinct, the
    list of the API has one item per connection, filled from the
    accessors of that connection. *)
Theorem list_complete s c :
  NoDup (uuid <$> conns s) ->
  c ∈ conns s ->
  exists items,
    list_data (apiConnsList s CaseSent).2 = Some items /\
    items !! uuid c = Some (listItem c).
Proof.
  intros Hnd Hc. exists (listItems (conns s)). split; [done |].
  by apply listItems_acc_last.
Qed.

Lemma conns_delete_fresh c l :
  c ∉ ptr <$> l -> conns_delete c l = l.
Proof.
  unfold conns_delete. induction l as [|d l IH]; [done |].
  rewrite fmap_cons. intros H. apply not_elem_of_cons in H as [Hd Hl].
  rewrite filter_cons_True by done. by rewrite IH.
Qed.

Lemma conns_delete_app c l1 l2 :
  conns_delete c (l1 ++ l2) = conns_delete c l1 ++ conns_delete c l2.
Proof. unfold conns_delete. apply filter_app. Qed.

(** X19.  A connection that is registered and then closed leaves the set
    as it was: [connNew] of a fresh actor followed by [connClose] of it
    restores the connections. *)
Theorem connNew_connClose s c :
  ptr c ∉ ptr <$> conns s ->
  conns (step_server
           (handle (step_server (handle s (ReqConnNew c))) (ReqConnClose (ptr c))))
    = conns s.
Proof.
  intros Hc. unfold handle. cbn [step_server conns set_conns].
  unfold conns_add. rewrite bool_decide_eq_false_2 by done.
  rewrite conns_delete_app, conns_delete_fresh by done.
  unfold conns_delete. rewrite filter_cons_False by (intros H; by apply H).
  by rewrite filter_nil, app_nil_r.
Qed.

Lemma conns_delete_NoDup c l :
  NoDup (ptr <$> l) -> NoDup (ptr <$> conns_delete c l).
Proof.
  intros H. apply (sublist_NoDup _ (ptr <$> l)); [done |].
  apply fmap_sublist. unfold conns_delete. apply sublist_filter.
Qed.

(** The connection set is a set: no request makes the loop hold
    two connections with the same pointer. *)
Lemma handle_NoDup s req :
  NoDup (ptr <$> conns s) ->
  NoDup (ptr <$> conns (step_server (handle s req))).
Proof.
  intros H. destruct req; cbn; try done.
  - unfold conns_add. case_bool_decide as E; [done |].
    rewrite fmap_app. cbn. apply NoDup_app. split; [done |].
    split; [| apply NoDup_singleton].
    intros x Hx Hx'. apply list_elem_of_singleton in Hx'. by subst x.
  - by apply conns_delete_NoDup.
  - destruct (kickFind id (conns s)); cbn; [| done]. by apply conns_delete_NoDup.
Qed.

Lemma uuid_inj_on l (c c' : webRTCConn) :
  NoDup (uuid <$> l) -> c ∈ l -> c' ∈ l -> uuid c' = uuid c -> c' = c.
Proof.
  induction l as [|d l IH]; intros Hnd Hin Hc' Hu; [by apply elem_of_nil in Hin |].
  cbn in Hnd. apply NoDup_cons in Hnd as [Hd Hnd].
  apply elem_of_cons in Hin as [-> | Hin]; apply elem_of_cons in Hc' as [-> | Hc'].
  - done.
  - destruct Hd. rewrite <- Hu. by apply list_elem_of_fmap_2.
  - destruct Hd. rewrite Hu. by apply list_elem_of_fmap_2.
  - by apply IH.
Qed.

Lemma kickFind_after_delete id l c :
  NoDup (uuid <$> l) ->
  kickFind id l = Some c ->
  kickFind id (conns_delete (ptr c) l) = None.
Proof.
  intros Hnd Hf. apply kickFind_Some in Hf as [Hin Hid].
  apply kickFind_None. intros c' Hc' Hid'.
  unfold conns_delete in Hc'. apply list_elem_of_filter in Hc' as [Hne Hc'].
  apply Hne. f_equal. apply (uuid_inj_on l); [done | done | done | congruence].
Qed.

(** X20.  With pairwise distinct UUIDs a kick is final: once
    [apiConnsKick] of a UUID has been served, a second kick of the same
    UUID answers "not found". *)
Theorem kick_twice s id :
  NoDup (uuid <$> conns s) ->
  kick_err (apiConnsKick (apiConnsKick s id CaseSent).1.1 id CaseSent).2
    = Some "not found".
Proof.
  intros Hnd. pose proof (kickFind_after_delete id (conns s)) as Hk.
  unfold apiConnsKick, handle.
  destruct (kickFind id (conns s)) as [c|] eqn:Hf;
    cbn [fst snd step_server step_trace step_reply conns set_conns].
  - by rewrite (Hk c Hnd eq_refl).
  - by rewrite Hf.
Qed.

(** ** The request loop *)

Lemma loop_after_done s pre rest :
  loop s (pre ++ CtxDone :: rest) = loop s (pre ++ [CtxDone]).
Proof.
  revert s. induction pre as [|req pre IH]; intros s; [done |].
  cbn [app loop]. destruct (step_continue (handle s req)); [| done].
  by rewrite IH.
Qed.

(** X21.  Once the context is cancelled [run] handles nothing more: the
    state and the events of [run] do not depend on the requests that
    arrive after the cancellation. *)
Theorem run_after_done s pre rest :
  run s (pre ++ CtxDone :: rest) = run s (pre ++ [CtxDone]).
Proof. unfold run. by rewrite loop_after_done. Qed.

Lemma handle_ctxDone s req : ctxDone (step_server (handle s req)) = ctxDone s.
Proof. destruct req; cbn; try done. by destruct (kickFind id (conns s)). Qed.

Lemma loop_serving s reqs :
  CtxDone ∉ reqs ->
  ctxDone (loop s reqs).1 = ctxDone s /\ Forall isConnClose (loop s reqs).2.
Proof.
  revert s. induction reqs as [|req reqs IH]; intros s Hnot.
  - split; [done | constructor].
  - apply not_elem_of_cons in Hnot as [Hreq Hnot]. cbn [loop].
    destruct (step_continue (handle s req)) eqn:Hc.
    2: { apply handle_continue in Hc. by subst req. }
    destruct (IH (step_server (handle s req)) Hnot) as [H1 H2].
    destruct (loop (step_server (handle s req)) reqs) as [s' tr]. cbn in *.
    split; [by rewrite H1, handle_ctxDone |].
    apply Forall_app. split; [apply handle_trace | done].
Qed.

(** X22.  Nothing but the cancellation of the context stops [run]: as
    long as no cancellation arrives the context stays as it is, and after
    starting the HTTP server [run] does nothing but close kicked
    connections -- no listener is closed and [done] is not reached. *)
Theorem run_keeps_serving s reqs :
  CtxDone ∉ reqs ->
  ctxDone (run s reqs).1 = ctxDone s /\
  exists kicks,
    Forall isConnClose kicks /\
    (run s reqs).2 = [ERequestPoolNew; EServe (tlsConfig s)] ++ kicks.
Proof.
  intros Hnot. destruct (loop_serving s reqs Hnot) as [H1 H2]. unfold run.
  destruct (loop s reqs) as [s' tr]. cbn in *. split; [done |]. by exists tr.
Qed.

(** ** The request handler *)

Section handler.
Variable IPaddr : Type.
Variable ParseIP : string -> IPaddr.
Variable IPString : IPaddr -> string.
Variable ipEqualOrInRange : IPaddr -> list IPOrCIDR -> bool.
Variable externalAuth :
  string -> string -> string -> string -> string -> string -> bool -> string
  -> option string.
Variable gopathDir : string -> string.
Variable gopathBase : string -> string.
Variable describe : string -> option path.

Local Abbreviation authenticate :=
  (authenticate IPaddr ParseIP IPString ipEqualOrInRange externalAuth).
Local Abbreviation onRequest :=
  (onRequest IPaddr ParseIP IPString ipEqualOrInRange externalAuth
     gopathDir gopathBase describe).
Local Abbreviation route := (route gopathDir gopathBase).

(** What [onRequest] does when it does not get to a path name. *)
Lemma onRequest_unrouted s ctx :
  route ctx = None ->
  onRequest s ctx =
    [ESetHeader "Access-Control-Allow-Origin" (allowOrigin s);
     ESetHeader "Access-Control-Allow-Credentials" "true"] ++
    (if bool_decide (Method ctx = "GET") then
       match URLPath ctx with
       | EmptyString => [EPanic]
       | String _ pa =>
           if bool_decide (pa = "") || bool_decide (pa = "favicon.ico") then []
           else
             [ESetHeader "Location"
                ("/" +:+ (if HasSuffix pa "/ws" then gopathDir pa else pa) +:+ "/");
              EWriteHeader 301]
       end
     else if bool_decide (Method ctx = "OPTIONS") then
       [ESetHeader "Access-Control-Allow-Methods" "GET, OPTIONS";
        ESetHeader "Access-Control-Allow-Headers" (AccessControlRequestHeaders ctx);
        EWriteHeader 200]
     else []).
Proof.
  unfold webrtc_obs.route, webrtc.onRequest.
  destruct (bool_decide (Method ctx = "GET")); [| done].
  destruct (URLPath ctx) as [|c pa]; [done |].
  destruct (_ || _); [done |].
  destruct (HasSuffix pa "/ws"); cbn; by destruct (_ && _).
Qed.

(** X23.  The page and the websocket are served only to authenticated
    requests: when [onRequest] writes the page or upgrades to a
    websocket, the request was routed to a path that the path manager
    knows and for which [authenticate] returned no error. *)
Theorem served_only_authenticated s ctx :
  Exists serves (onRequest s ctx) ->
  exists dir fname pa,
    route ctx = Some (dir, fname) /\
    describe dir = Some pa /\
    authenticate s pa ctx = None.
Proof.
  destruct (route ctx) as [[dir fname]|] eqn:Hr.
  - rewrite (onRequest_routed _ _ _ _ _ _ _ _ _ _ _ _ Hr).
    destruct (describe dir) as [pa|] eqn:Hd.
    + destruct (authenticate s pa ctx) as [[|m]|] eqn:Ha.
      * intros H. exfalso. revert H. rewrite Exists_exists.
        intros [e [He Hs]]. revert Hs.
        repeat (apply elem_of_cons in He as [-> | He]; [by cbn |]).
        by apply elem_of_nil in He.
      * intros H. exfalso. revert H. rewrite Exists_exists.
        intros [e [He Hs]]. revert Hs.
        repeat (apply elem_of_cons in He as [-> | He]; [by cbn |]).
        by apply elem_of_nil in He.
      * intros _. by exists dir, fname, pa.
    + intros H. exfalso. revert H. rewrite Exists_exists.
      intros [e [He Hs]]. revert Hs.
      repeat (apply elem_of_cons in He as [-> | He]; [by cbn |]).
      by apply elem_of_nil in He.
  - rewrite (onRequest_unrouted _ _ Hr).
    intros H. exfalso. revert H. rewrite Exists_exists.
    intros [e [He Hs]]. revert Hs.
    destruct (bool_decide (Method ctx = "GET")).
    + destruct (URLPath ctx) as [|c pa]; [| destruct (_ || _)];
        repeat (apply elem_of_cons in He as [-> | He]; [by cbn |]);
        by apply elem_of_nil in He.
    + destruct (bool_decide (Method ctx = "OPTIONS"));
        repeat (apply elem_of_cons in He as [-> | He]; [by cbn |]);
        by apply elem_of_nil in He.
Qed.

(** X24.  Every answer carries the CORS headers: whatever the request,
    [onRequest] sets [Access-Control-Allow-Origin] to the configured
    origin and [Access-Control-Allow-Credentials] to [true], and nothing
    it does later overwrites them. *)
Theorem cors_headers s ctx :
  header "Access-Control-Allow-Origin" (onRequest s ctx) = Some (allowOrigin s) /\
  header "Access-Control-Allow-Credentials" (onRequest s ctx) = Some "true".
Proof.
  destruct (route ctx) as [[dir fname]|] eqn:Hr.
  - rewrite (onRequest_routed _ _ _ _ _ _ _ _ _ _ _ _ Hr).
    destruct (describe dir) as [pa|]; [| by split].
    destruct (authenticate s pa ctx) as [[|m]|]; [by split | by split |].
    destruct (bool_decide (fname = "")); [by split |].
    destruct (bool_decide (fname = "ws")); by split.
  - rewrite (onRequest_unrouted _ _ Hr).
    destruct (bool_decide (Method ctx = "GET")).
    + destruct (URLPath ctx) as [|c pa]; [by split |].
      destruct (_ || _); by split.
    + destruct (bool_decide (Method ctx = "OPTIONS")); by split.
Qed.

End handler.

(** X25.  A request that is not routed to a path -- any method but GET,
    the root, the favicon, a path to be redirected -- is answered without
    the path manager and without any authenticator: the answer is the
    same whatever [pathManager.describe], the external endpoint and the
    IP functions would say. *)
Theorem unrouted_independent
    IPaddr ParseIP IPString ipEqualOrInRange externalAuth describe
    IPaddr' ParseIP' IPString' ipEqualOrInRange' externalAuth' describe'
    gopathDir gopathBase s ctx :
  route gopathDir gopathBase ctx = None ->
  onRequest IPaddr ParseIP IPString ipEqualOrInRange externalAuth
    gopathDir gopathBase describe s ctx =
  onRequest IPaddr' ParseIP' IPString' ipEqualOrInRange' externalAuth'
    gopathDir gopathBase describe' s ctx.
Proof. intros Hr. by rewrite !onRequest_unrouted. Qed.

(** ** Construction *)

Lemma stillOpen_close_last ln :
  stillOpen [EOpened ln; EClosed ln] = [].
Proof.
  unfold stillOpen. cbn [foldl app].
  by rewrite filter_cons_False by (intros H; by apply H).
Qed.

Lemma stillOpen_first ln tr :
  (forall h, EClosed h ∉ tr) -> ln ∈ stillOpen (EOpened ln :: tr).
Proof.
  unfold stillOpen. cbn [foldl app]. generalize [ln] (list_elem_of_here ln []).
  induction tr as [|e tr IH]; intros acc Hacc Hnot; [done |].
  cbn [foldl]. assert (forall h, EClosed h ∉ tr) as Hnot'.
  { intros h Hh. apply (Hnot h). by apply list_elem_of_further. }
  destruct e; try (by apply IH).
  - apply IH; [| done]. apply elem_of_app. by left.
  - destruct (Hnot h). apply list_elem_of_here.
Qed.

(** X26.  What a failed [newWebRTCServer] leaves behind: when it fails
    after the HTTP listener was opened, either the key pair could not be
    loaded and the listener is closed again, or an ICE mux listener
    could not be opened and the HTTP listener is still open when the
    error is returned. *)
Theorem newWebRTCServer_failure a env err tr ln :
  newWebRTCServer a env = (inr err, tr) ->
  listenHTTP env = inl ln ->
  (a_encryption a = true /\ loadX509KeyPair env = Some err /\ stillOpen tr = []) \/
  (ln ∈ stillOpen tr /\
   (listenPacketUDP env = inr err \/ listenTCP env = inr err)).
Proof.
  unfold newWebRTCServer. intros H Hln. rewrite Hln in H.
  destruct (a_encryption a).
  - destruct (loadX509KeyPair env) as [e|].
    + injection H as <- <-. left. split; [done |]. split; [done |].
      apply stillOpen_close_last.
    + right. revert H.
      destruct (a_iceUDPMuxAddress a !=? "").
      * destruct (listenPacketUDP env) as [u|e].
        -- destruct (a_iceTCPMuxAddress a !=? ""); [| done].
           destruct (listenTCP env) as [t|e]; [done |].
           intros [= <- <-]. split; [| by right].
           apply stillOpen_first. intros h Hh.
           repeat (apply elem_of_cons in Hh as [Hh | Hh]; [discriminate |]).
           by apply elem_of_nil in Hh.
        -- intros [= <- <-]. split; [| by left].
           apply stillOpen_first. intros h Hh. by apply elem_of_nil in Hh.
      * destruct (a_iceTCPMuxAddress a !=? ""); [| done].
        destruct (listenTCP env) as [t|e]; [done |].
        intros [= <- <-]. split; [| by right].
        apply stillOpen_first. intros h Hh. by apply elem_of_nil in Hh.
  - right. revert H.
    destruct (a_iceUDPMuxAddress a !=? "").
    + destruct (listenPacketUDP env) as [u|e].
      * destruct (a_iceTCPMuxAddress a !=? ""); [| done].
        destruct (listenTCP env) as [t|e]; [done |].
        intros [= <- <-]. split; [| by right].
        apply stillOpen_first. intros h Hh.
        repeat (apply elem_of_cons in Hh as [Hh | Hh]; [discriminate |]).
        by apply elem_of_nil in Hh.
      * intros [= <- <-]. split; [| by left].
        apply stillOpen_first. intros h Hh. by apply elem_of_nil in Hh.
    + destruct (a_iceTCPMuxAddress a !=? ""); [| done].
      destruct (listenTCP env) as [t|e]; [done |].
      intros [= <- <-]. split; [| by right].
      apply stillOpen_first. intros h Hh. by apply elem_of_nil in Hh.
Qed.

Lemma newWebRTCServer_opened a env s tr h :
  newWebRTCServer a env = (inl s, tr) ->
  EOpened h ∈ tr ->
  listenHTTP env = inl h \/ udpMuxLn s = Some h \/ tcpMuxLn s = Some h.
Proof.
  unfold newWebRTCServer.
  destruct (listenHTTP env) as [ln|]; [| done].
  destruct (if a_encryption a then _ else _); [done |].
  destruct (a_iceUDPMuxAddress a !=? "");
    [destruct (listenPacketUDP env) as [u|]; [| done] |];
    (destruct (a_iceTCPMuxAddress a !=? "");
     [destruct (listenTCP env) as [t|]; [| done] |]);
    cbn; intros [= <- <-]; cbn; destruct (a_metrics a); cbn; intros Hh;
    repeat (apply elem_of_cons in Hh as [Hh | Hh];
            [first [discriminate | injection Hh as ->; by auto] |]);
    by apply elem_of_nil in Hh.
Qed.

(** X27.  A server that [newWebRTCServer] built closes all it opened:
    when the context is cancelled, [run] closes every listener that the
    constructor opened -- the HTTP listener and the ICE mux listeners. *)
Theorem newWebRTCServer_run_closes a env s tr pre rest h :
  newWebRTCServer a env = (inl s, tr) ->
  CtxDone ∉ pre ->
  EOpened h ∈ tr ->
  let tr' := (run s (pre ++ CtxDone :: rest)).2 in
  (listenHTTP env = inl h /\ ELnClose ∈ tr') \/
  EUDPMuxLnClose h ∈ tr' \/ ETCPMuxLnClose h ∈ tr'.
Proof.
  intros Hnew Hpre Hh tr'.
  destruct (loop_until_done s pre rest Hpre) as [kicks [_ Hl]].
  assert (tr' = [ERequestPoolNew; EServe (tlsConfig s)] ++
                (loop s (pre ++ CtxDone :: rest)).2) as Htr.
  { unfold tr', run. by destruct (loop s (pre ++ CtxDone :: rest)). }
  rewrite Hl in Htr. clear Hl. rewrite Htr.
  destruct (newWebRTCServer_opened a env s tr h Hnew Hh) as [H | [H | H]].
  - left. split; [done |].
    apply elem_of_app. right. apply elem_of_app. right. elem_now.
  - right. left. rewrite H.
    apply elem_of_app. right. apply elem_of_app. right. elem_now.
  - right. right. rewrite H.
    apply elem_of_app. right. apply elem_of_app. right.
    destruct (udpMuxLn s); elem_now.
Qed.

(** ** Scenarios *)

Lemma list_complete_witness :
  exists items,
    list_data (apiConnsList (set_conns [conn 1 "a"; conn 2 "b"] plainServer)
                 CaseSent).2 = Some items /\
    items !! uuid (conn 2 "b") = Some (listItem (conn 2 "b")).
Proof.
  apply (list_complete (set_conns [conn 1 "a"; conn 2 "b"] plainServer) (conn 2 "b")).
  - apply (bool_decide_unpack _). by vm_compute.
  - cbn. elem_now.
Defined.

Lemma connNew_connClose_witness :
  conns (step_server
           (handle (step_server
                      (handle (set_conns [conn 1 "a"] plainServer)
                         (ReqConnNew (conn 2 "b"))))
              (ReqConnClose (ptr (conn 2 "b")))))
    = conns (set_conns [conn 1 "a"] plainServer).
Proof.
  apply (connNew_connClose (set_conns [conn 1 "a"] plainServer) (conn 2 "b")).
  apply (bool_decide_unpack _). by vm_compute.
Defined.

Lemma kick_twice_witness :
  kick_err
    (apiConnsKick
       (apiConnsKick (set_conns [conn 1 "a"; conn 2 "b"] plainServer) "b" CaseSent).1.1
       "b" CaseSent).2
    = Some "not found".
Proof.
  apply (kick_twice (set_conns [conn 1 "a"; conn 2 "b"] plainServer) "b").
  apply (bool_decide_unpack _). by vm_compute.
Defined.

Lemma run_keeps_serving_witness :
  ctxDone (run plainServer [ReqConnNew (conn 1 "a"); ReqAPIConnsKick "a"]).1
    = ctxDone plainServer /\
  exists kicks,
    Forall isConnClose kicks /\
    (run plainServer [ReqConnNew (conn 1 "a"); ReqAPIConnsKick "a"]).2
      = [ERequestPoolNew; EServe (tlsConfig plainServer)] ++ kicks.
Proof.
  apply (run_keeps_serving plainServer [ReqConnNew (conn 1 "a"); ReqAPIConnsKick "a"]).
  intros Hin.
  repeat (apply elem_of_cons in Hin as [Hin | Hin]; [discriminate |]).
  by apply elem_of_nil in Hin.
Defined.

(** Scenario 6 of the specification with the right credentials. *)
Lemma served_only_authenticated_witness :
  exists dir fname pa,
    route dirOfWs baseOfWs (getSecret (Some ("u", "p"))) = Some (dir, fname) /\
    onlySecret dir = Some pa /\
    authenticate string textIP textIP anyRange refusing plainServer pa
      (getSecret (Some ("u", "p"))) = None.
Proof.
  apply (served_only_authenticated string textIP textIP anyRange refusing
           dirOfWs baseOfWs onlySecret plainServer (getSecret (Some ("u", "p")))).
  vm_compute. do 4 apply Exists_cons_tl. apply Exists_cons_hd. exact I.
Defined.

(** A POST is answered the same with a refusing endpoint and a known
    path as with an accepting endpoint and no path at all. *)
Lemma unrouted_independent_witness :
  onRequest string textIP textIP anyRange refusing dirOfWs baseOfWs onlySecret
    plainServer postSecret =
  onRequest string textIP textIP anyRange accepting dirOfWs baseOfWs noPath
    plainServer postSecret.
Proof.
  apply (unrouted_independent string textIP textIP anyRange refusing onlySecret
           string textIP textIP anyRange accepting noPath
           dirOfWs baseOfWs plainServer postSecret).
  reflexivity.
Defined.

(** The ICE TCP mux address is taken: the constructor fails with the HTTP
    listener (handle 1) still open. *)
Lemma newWebRTCServer_failure_witness :
  (a_encryption fullArgs = true /\
   loadX509KeyPair tcpTaken = Some "listen tcp :8189: bind: address already in use" /\
   stillOpen [EOpened 1%nat; EOpened 2%nat] = []) \/
  (1%nat ∈ stillOpen [EOpened 1%nat; EOpened 2%nat] /\
   (listenPacketUDP tcpTaken = inr "listen tcp :8189: bind: address already in use" \/
    listenTCP tcpTaken = inr "listen tcp :8189: bind: address already in use")).
Proof.
  apply (newWebRTCServer_failure fullArgs tcpTaken
           "listen tcp :8189: bind: address already in use"
           [EOpened 1%nat; EOpened 2%nat] 1%nat); reflexivity.
Defined.

(** Every address is free: the ICE TCP mux listener (handle 3) is closed
    when the context is cancelled. *)
Lemma newWebRTCServer_run_closes_witness :
  exists s tr,
    newWebRTCServer fullArgs allFree = (inl s, tr) /\
    ((listenHTTP allFree = inl 3%nat /\
      ELnClose ∈ (run s ([ReqConnNew (conn 1 "a")] ++ CtxDone :: [])).2) \/
     EUDPMuxLnClose 3%nat ∈ (run s ([ReqConnNew (conn 1 "a")] ++ CtxDone :: [])).2 \/
     ETCPMuxLnClose 3%nat ∈ (run s ([ReqConnNew (conn 1 "a")] ++ CtxDone :: [])).2).
Proof.
  eexists. eexists. split; [reflexivity |].
  apply (newWebRTCServer_run_closes fullArgs allFree _ _ [ReqConnNew (conn 1 "a")] []
           3%nat eq_refl).
  - intros Hin.
    repeat (apply elem_of_cons in Hin as [Hin | Hin]; [discriminate |]).
    by apply elem_of_nil in Hin.
  - cbn. elem_now.
Defined.

End webrtc_extra.
